(** * gmail-to-docs: the incremental consolidation engine

    A shallow embedding of [docs_mode.gs] (the orchestrator with the dedup
    ring buffer, [processMessagesToDoc], [ensureConsolidatedDoc_],
    [gtd_resetForReimport]) and of [docs_utils.js] ([prependBatchPlain],
    [prependMessageHtmlToDoc]), followed by the properties of the engine.

    Conventions of the embedding:
    - a JavaScript [Date] is the integer number of milliseconds since the
      epoch it wraps ([Z]); [toISOString] followed by [new Date] is the
      identity on it, so the persisted ISO string is kept as that number;
    - Script Properties are a record with one optional field per key;
    - Drive is a finite map from document ids to files; a document body is
      the list of its children, top of the document first;
    - the services the script calls may raise: the outcome of the HTML
      conversion endpoint and of each insertion into a body is given by the
      environment; an exception carries the text of [e.toString()];
    - elapsed times and document titles are not represented. *)

From stdpp Require Import gmap strings list sorting pretty.
From Stdlib Require Import ZArith Lia Ascii.

Local Open Scope string_scope.
Local Open Scope list_scope.
Local Open Scope Z_scope.

(** ** Messages and candidates *)

Record Message := mkMessage {
  getId : string;
  getDate : Z;
  getSubject : string;
  getFrom : string;
  getTo : string;
  getPlainBody : string;
  getBody : string
}.

(** A Gmail thread is the list of its messages, in thread order. *)
Abbreviation Thread := (list Message).

(** The object literal pushed on [newMessages]:
    [{ date, message, id, subj }]. *)
Record Item := mkItem {
  date : Z;
  message : Message;
  id : string;
  subj : string
}.

#[global] Instance Message_eq_dec : EqDecision Message.
Proof. solve_decision. Defined.
#[global] Instance Item_eq_dec : EqDecision Item.
Proof. solve_decision. Defined.

(** [s || dflt] on strings: the empty string is falsy. *)
Definition or_else (s dflt : string) : string :=
  if decide (s = "") then dflt else s.

Definition item_of (m : Message) : Item :=
  {| date := getDate m; message := m; id := getId m;
     subj := or_else (getSubject m) "(no subject)" |}.

(** ** Configuration *)

Definition MAX_MESSAGES_PER_RUN : nat := 200.
Definition RECENT_IDS_LIMIT : nat := 200.
(** ['1970-01-01T00:00:00Z'] as a date. *)
Definition EPOCH : Z := 0.

(** ** JavaScript containers *)

(** A [Set] of strings iterates in insertion order; adding a member that
    is already present leaves the set as it is. *)
Module JsSet.
Definition t := list string.
Definition has (s : t) (x : string) : bool := bool_decide (x ∈ s).
Definition add (s : t) (x : string) : t := if has s x then s else s ++ [x].
(** [new Set(array)] *)
Definition of_array (a : list string) : t := foldl add [] a.
Definition size (s : t) : nat := length s.
End JsSet.

(** [arr.slice(-n)]: the last [n] elements. *)
Definition slice_last {A} (n : nat) (l : list A) : list A :=
  drop (length l - n) l.

(** [Array.prototype.sort(cmp)] is stable; with a consistent comparator
    the result is the stable sorted arrangement, computed here by stable
    insertion: [x] goes before the first [y] with [cmp x y <= 0]. *)
Section js_sort.
Context {A : Type} (cmp : A → A → Z).

Fixpoint sort_insert (x : A) (l : list A) : list A :=
  match l with
  | [] => [x]
  | y :: l' => if decide (cmp x y <= 0) then x :: y :: l'
               else y :: sort_insert x l'
  end.

Definition js_sort (l : list A) : list A := foldr sort_insert [] l.
End js_sort.

(** ** Candidate selection ([processMessagesToDoc], lines 84-100) *)

(** [GmailApp.search(query, start, max)]: at most [max] threads of the
    threads carrying the label, from position [start]. *)
Definition search (labelled : list Thread) (start max : nat) : list Thread :=
  take max (drop start labelled).

(** The two nested [for ... of] loops. *)
Definition eligible (lastDate : Z) (recent : JsSet.t) (m : Message) : bool :=
  bool_decide (getDate m > lastDate) && negb (JsSet.has recent (getId m)).

Definition collect (threads : list Thread) (lastDate : Z) (recent : JsSet.t)
  : list Item :=
  foldl (λ acc t,
           foldl (λ acc m, if eligible lastDate recent m
                           then acc ++ [item_of m] else acc) acc t)
        [] threads.

Definition totalMsgsSeen (threads : list Thread) : nat :=
  foldl (λ n t, (n + length t)%nat) 0%nat threads.

(** [(a,b) => b.date - a.date] *)
Definition newest_first (a b : Item) : Z := date b - date a.

Definition select (threads : list Thread) (lastDate : Z) (recent : JsSet.t)
  : list Item :=
  js_sort newest_first (collect threads lastDate recent).

(** ** Documents, Drive and Script Properties *)

Inductive Heading := NORMAL | HEADING6.

(** The children of a document body, by [ElementType]. [Other] is any
    type the script has no branch for, with the result of [getText] when
    the element has that method. *)
Inductive Element :=
| Paragraph (heading : Heading) (text : string)
| ListItem (text : string)
| Table (rows : list (list string))
| PageBreak
| InlineImage (blob : string)
| Other (text : option string).

Abbreviation DocId := positive.

Record File := mkFile {
  isTrashed : bool;
  children : list Element
}.

(** The three Script Properties: [PROP_LAST_ISO],
    [PROP_CONSOLIDATED_DOC], [PROP_RECENT_IDS]. A field is [None] when
    [getProperty] returns a falsy value (no such property). *)
Record Props := mkProps {
  gtd_last_iso : option Z;
  gtd_consolidated_doc_id : option DocId;
  gtd_recent_ids : option (list string)
}.

(** One constructor per [Logger.log] call of the orchestrator. *)
Inductive LogEntry :=
| LogStart (mode : string) (lastISO : Z) (docId : DocId)
| LogScanned (threads messages newEligible : nat)
| LogSamples (subjects : list string)
| LogNewestOldest (newest oldest : Z)
| LogNoNew
| LogInsertPlain (n : nat) (docId : DocId)
| LogInsertHtml (n : nat) (docId : DocId)
| LogError (subject : string) (err : string)
| LogUpdated (lastISO : Z) (recentIds : nat)
| LogCreated (docId : DocId)
| LogInitialized (lastISO : option Z) (docId : DocId)
| LogReset.

Record World := mkWorld {
  props : Props;
  drive : gmap DocId File;
  logged : list LogEntry
}.

(** What the script does not control. *)
Record Env := mkEnv {
  (** the threads carrying [CONSOLIDATE_LABEL], in search order *)
  labelled : list Thread;
  OUTPUT_MODE : string;
  (** [Drive.Files.insert(resource, blob, {convert: true})]: the children
      of the converted document, or the exception raised *)
  convert_html : string → string + list Element;
  (** whether inserting this element at the top of a body raises *)
  insert_error : Element → option string;
  (** [Date.prototype.toString] *)
  date_toString : Z → string
}.

(** ** Computations of the script: state and exceptions *)

Inductive Res (A : Type) :=
| Ok (a : A) (w : World)
| Throw (e : string) (w : World).
Arguments Ok {A} a w.
Arguments Throw {A} e w.

Definition M (A : Type) := World → Res A.

Definition ret {A} (a : A) : M A := λ w, Ok a w.
Definition bind {A B} (k : A → M B) (m : M A) : M B :=
  λ w, match m w with
       | Ok a w' => k a w'
       | Throw e w' => Throw e w'
       end.
Definition throw {A} (e : string) : M A := λ w, Throw e w.
(** [try { m } catch (e) { h e }] *)
Definition try_catch {A} (m : M A) (h : string → M A) : M A :=
  λ w, match m w with
       | Ok a w' => Ok a w'
       | Throw e w' => h e w'
       end.

(** The notations [x ← m; k] and [m;; k] sequence computations. *)
#[global] Instance M_ret : MRet M := @ret.
#[global] Instance M_bind : MBind M := @bind.

(** [for (const x of l) body(x)] *)
Fixpoint for_of {A} (l : list A) (body : A → M unit) : M unit :=
  match l with
  | [] => mret tt
  | x :: l' => body x;; for_of l' body
  end.

(** A loop that carries local variables [S] of the enclosing function. *)
Fixpoint for_of_with {A S} (l : list A) (s : S) (body : A → S → M S) : M S :=
  match l with
  | [] => mret s
  | x :: l' => s' ← body x s; for_of_with l' s' body
  end.

Definition final_world {A} (r : Res A) : World :=
  match r with Ok _ w => w | Throw _ w => w end.

(** ** The services *)

Definition Logger_log (e : LogEntry) : M unit :=
  λ w, Ok tt {| props := props w; drive := drive w; logged := logged w ++ [e] |}.

Definition getProperties : M Props := λ w, Ok (props w) w.
Definition setProperties (p : Props) : M unit :=
  λ w, Ok tt {| props := p; drive := drive w; logged := logged w |}.

Definition set_last_iso (d : Z) : M unit :=
  p ← getProperties;
  setProperties {| gtd_last_iso := Some d;
                   gtd_consolidated_doc_id := gtd_consolidated_doc_id p;
                   gtd_recent_ids := gtd_recent_ids p |}.
Definition set_consolidated_doc (d : DocId) : M unit :=
  p ← getProperties;
  setProperties {| gtd_last_iso := gtd_last_iso p;
                   gtd_consolidated_doc_id := Some d;
                   gtd_recent_ids := gtd_recent_ids p |}.
Definition set_recent_ids (l : option (list string)) : M unit :=
  p ← getProperties;
  setProperties {| gtd_last_iso := gtd_last_iso p;
                   gtd_consolidated_doc_id := gtd_consolidated_doc_id p;
                   gtd_recent_ids := l |}.

Definition put_file (d : DocId) (f : File) : M unit :=
  λ w, Ok tt {| props := props w; drive := <[d := f]> (drive w);
                logged := logged w |}.

Definition not_found : string := "Exception: Document is missing or inaccessible".

(** [DriveApp.getFileById(id)] raises when the file does not exist. *)
Definition getFileById (d : DocId) : M File :=
  λ w, match drive w !! d with
       | Some f => Ok f w
       | None => Throw not_found w
       end.

(** [DocumentApp.create(name)]: a new, empty document under an unused id. *)
Definition new_doc (body : list Element) : M DocId :=
  λ w, let d := fresh (dom (drive w)) in
       Ok d {| props := props w;
               drive := <[d := {| isTrashed := false; children := body |}]> (drive w);
               logged := logged w |}.
Definition DocumentApp_create : M DocId := new_doc [].

(** [DocumentApp.openById(id).getBody()]: the body is addressed by the id
    of its document. *)
Definition openById (d : DocId) : M DocId :=
  getFileById d;; mret d.

Definition getChildren (body : DocId) : M (list Element) :=
  f ← getFileById body; mret (children f).

Definition setTrashed (d : DocId) (b : bool) : M unit :=
  f ← getFileById d;
  put_file d {| isTrashed := b; children := children f |}.

(** [body.appendParagraph(..)], [body.appendPageBreak()] *)
Definition append (body : DocId) (el : Element) : M unit :=
  f ← getFileById body;
  put_file body {| isTrashed := isTrashed f; children := children f ++ [el] |}.

(** [body.insertParagraph(0, ..)], [insertListItem(0, ..)],
    [insertPageBreak(0)], [insertImage(0, ..)] *)
Definition insert0 (env : Env) (body : DocId) (el : Element) : M unit :=
  f ← getFileById body;
  match insert_error env el with
  | Some e => throw e
  | None => put_file body {| isTrashed := isTrashed f;
                             children := el :: children f |}
  end.

Definition out_of_range : string := "Exception: Child index out of bounds".

(** [body.getChild(i).copy()] *)
Definition getChild (body : DocId) (i : nat) : M Element :=
  f ← getFileById body;
  match children f !! i with
  | Some c => mret c
  | None => throw out_of_range
  end.

Definition getNumChildren (body : DocId) : M nat :=
  f ← getFileById body; mret (length (children f)).

(** [for (let i = n - 1; i >= 0; i--) body(i)] *)
Fixpoint for_down (n : nat) (body : nat → M unit) : M unit :=
  match n with
  | O => mret tt
  | S i => body i;; for_down i body
  end.

(** ** Strings *)

Definition LF : ascii := "010"%char.
Definition CR : ascii := "013"%char.
Definition TAB : string := String "009"%char "".
Definition NL : string := String LF "".
Definition DQ : string := String "034"%char "".

(** [s.split(/\r?\n/)] *)
Fixpoint split_lines (s : string) : list string :=
  match s with
  | "" => [""]
  | String c s' =>
    if decide (c = LF) then "" :: split_lines s'
    else
      match s' with
      | String c' _ =>
        if decide (c = CR ∧ c' = LF) then split_lines s'
        else match split_lines s' with
             | l :: ls => String c l :: ls
             | [] => [String c ""]
             end
      | "" => [String c ""]
      end
  end.

(** [s.replace(/c/g, r)] for a one-character pattern *)
Fixpoint replace_char (c : ascii) (r : string) (s : string) : string :=
  match s with
  | "" => ""
  | String c' s' => if decide (c' = c) then r +:+ replace_char c r s'
                    else String c' (replace_char c r s')
  end.

Definition escapeHtml (s : string) : string :=
  replace_char ">" "&gt;" (replace_char "<" "&lt;" (replace_char "&" "&amp;" s)).

(** [cells.join('\t')] *)
Definition join_tab (cells : list string) : string := String.concat TAB cells.

(** [child.getText] where the element type has the method. *)
Definition getText (child : Element) : option string :=
  match child with
  | Paragraph _ t | ListItem t => Some t
  | Table rows => Some (String.concat NL (String.concat NL <$> rows))
  | PageBreak | InlineImage _ => None
  | Other t => t
  end.

Definition text_or_unsupported (child : Element) : string :=
  default "[unsupported element]" (getText child).

(** ** docs_utils: [prependBatchPlain] *)

(** The first operand of each [plain] conditional, falling through to
    the next on an empty string. *)
Definition plain_text (msg : Message) : string :=
  if decide (getPlainBody msg ≠ "") then getPlainBody msg
  else if decide (getBody msg ≠ "") then getBody msg
  else "(no body)".

(** The body of the [for (const { message: msg } of messages)] loop. *)
Definition append_plain (env : Env) (tmpBody : DocId) (msg : Message) : M unit :=
  append tmpBody (Paragraph HEADING6 "--- EMAIL START ---");;
  append tmpBody (Paragraph NORMAL ("Subject: " +:+ or_else (getSubject msg) "(no subject)"));;
  append tmpBody (Paragraph NORMAL ("From: " +:+ or_else (getFrom msg) ""));;
  append tmpBody (Paragraph NORMAL ("To: " +:+ or_else (getTo msg) ""));;
  append tmpBody (Paragraph NORMAL ("Date: " +:+ date_toString env (getDate msg)));;
  append tmpBody (Paragraph NORMAL "");;
  for_of (split_lines (plain_text msg))
         (λ line, append tmpBody (Paragraph NORMAL line));;
  append tmpBody (Paragraph NORMAL "--- EMAIL END ---");;
  append tmpBody PageBreak.

(** The type dispatch of the copy loop of [prependBatchPlain]. *)
Definition copy_plain (env : Env) (mainBody : DocId) (child : Element) : M unit :=
  match child with
  | Paragraph _ t => insert0 env mainBody (Paragraph NORMAL t)
  | ListItem t => insert0 env mainBody (ListItem t)
  | PageBreak => insert0 env mainBody PageBreak
  | _ => insert0 env mainBody (Paragraph NORMAL (text_or_unsupported child))
  end.

Definition prependBatchPlain (env : Env) (messages : list Item)
    (consolidatedDocId : DocId) : M unit :=
  mainBody ← openById consolidatedDocId;
  tmpDoc ← DocumentApp_create;
  let tmpBody := tmpDoc in
  for_of messages (λ it, append_plain env tmpBody (message it));;
  n ← getNumChildren tmpBody;
  for_down n (λ i, child ← getChild tmpBody i; copy_plain env mainBody child);;
  setTrashed tmpDoc true.

(** ** docs_utils: [prependMessageHtmlToDoc] *)

Definition htmlHeader (env : Env) (msg : Message) : string :=
  NL +:+ "    <html><head><meta charset=" +:+ DQ +:+ "utf-8" +:+ DQ
     +:+ "></head><body>" +:+ NL
  +:+ "    <div><strong>Subject:</strong> "
     +:+ escapeHtml (or_else (getSubject msg) "") +:+ "</div>" +:+ NL
  +:+ "    <div><strong>From:</strong> "
     +:+ escapeHtml (or_else (getFrom msg) "") +:+ "</div>" +:+ NL
  +:+ "    <div><strong>To:</strong> "
     +:+ escapeHtml (or_else (getTo msg) "") +:+ "</div>" +:+ NL
  +:+ "    <div><strong>Date:</strong> "
     +:+ escapeHtml (date_toString env (getDate msg)) +:+ "</div>" +:+ NL
  +:+ "    <hr/>".

Definition bodyHtml (msg : Message) : string :=
  if decide (getBody msg ≠ "") then getBody msg
  else escapeHtml (if decide (getPlainBody msg ≠ "") then getPlainBody msg
                   else "(no body)").

Definition fullHtml (env : Env) (msg : Message) : string :=
  htmlHeader env msg +:+ bodyHtml msg +:+ "</body></html>".

(** [convertHtmlToDoc]: the conversion either raises or leaves a new
    document holding the converted content. *)
Definition convertHtmlToDoc (env : Env) (htmlString : string) : M DocId :=
  match convert_html env htmlString with
  | inl e => throw e
  | inr body => new_doc body
  end.

(** The type dispatch inside the [try] of the copy loop. *)
Definition copy_html (env : Env) (mainBody : DocId) (child : Element) : M unit :=
  match child with
  | Paragraph _ t => insert0 env mainBody (Paragraph NORMAL t)
  | ListItem t => insert0 env mainBody (ListItem t)
  | Table rows =>
      for_of (reverse rows)
             (λ row, insert0 env mainBody (Paragraph NORMAL (join_tab row)))
  | PageBreak => insert0 env mainBody PageBreak
  | InlineImage blob => insert0 env mainBody (InlineImage blob)
  | Other _ => insert0 env mainBody (Paragraph NORMAL (text_or_unsupported child))
  end.

Definition insert_failed (e : string) : Element :=
  Paragraph NORMAL ("[insert failed: " +:+ e +:+ "]").

Definition prependMessageHtmlToDoc (env : Env) (msg : Message)
    (consolidatedDocId : DocId) : M unit :=
  tmpDocId ← convertHtmlToDoc env (fullHtml env msg);
  tmpBody ← openById tmpDocId;
  mainBody ← openById consolidatedDocId;
  n ← getNumChildren tmpBody;
  for_down n (λ i,
    child ← getChild tmpBody i;
    try_catch (copy_html env mainBody child)
              (λ e, insert0 env mainBody (insert_failed e)));;
  setTrashed tmpDocId true.

(** ** docs_mode: state helpers *)

Definition getRecentIds_ : M JsSet.t :=
  p ← getProperties;
  mret (match gtd_recent_ids p with
        | Some a => JsSet.of_array a
        | None => []
        end).

Definition saveRecentIds_ (set : JsSet.t) : M unit :=
  set_recent_ids (Some (slice_last RECENT_IDS_LIMIT set)).

Definition ensureConsolidatedDoc_ : M DocId :=
  p ← getProperties;
  let id := gtd_consolidated_doc_id p in
  needsNew ← match id with
             | None => mret true
             | Some id =>
               try_catch (f ← getFileById id; mret (isTrashed f))
                         (λ _, mret true)
             end;
  match id, needsNew with
  | Some id, false => mret id
  | _, _ =>
    id ← DocumentApp_create;
    set_consolidated_doc id;;
    Logger_log (LogCreated id);;
    mret id
  end.

Definition gtd_init : M unit :=
  p ← getProperties;
  match gtd_last_iso p with
  | Some _ => mret tt
  | None => set_last_iso EPOCH
  end;;
  id ← ensureConsolidatedDoc_;
  p' ← getProperties;
  Logger_log (LogInitialized (gtd_last_iso p') id).

Definition gtd_resetForReimport : M unit :=
  set_last_iso EPOCH;;
  set_recent_ids None;;
  Logger_log LogReset.

(** ** docs_mode: [processMessagesToDoc]

    The function is embedded in the four parts its own comments name:
    "Config/state" with "Gather candidates", "Process", "Persist state". *)

(** The constants bound before the processing branch. *)
Record Gathered := mkGathered {
  lastDate : Z;
  consolidatedDocId : DocId;
  recent0 : JsSet.t;
  threads : list Thread;
  newMessages : list Item
}.

(** The local variables the processing branches update. *)
Record Locals := mkLocals {
  recent : JsSet.t;
  newestSeen : Z
}.

Definition sampleN : nat := 5.

Definition gather (env : Env) : M Gathered :=
  p ← getProperties;
  let lastISO := default EPOCH (gtd_last_iso p) in
  consolidatedDocId ← ensureConsolidatedDoc_;
  recent ← getRecentIds_;
  let lastDate := lastISO in
  Logger_log (LogStart (OUTPUT_MODE env) lastISO consolidatedDocId);;
  let threads := search (labelled env) 0 MAX_MESSAGES_PER_RUN in
  let newMessages := select threads lastDate recent in
  Logger_log (LogScanned (length threads) (totalMsgsSeen threads)
                         (length newMessages));;
  match newMessages with
  | [] => mret tt
  | first :: _ =>
    Logger_log (LogSamples (subj <$> take sampleN newMessages));;
    Logger_log (LogNewestOldest (date first)
                                (date (List.last newMessages first)))
  end;;
  mret {| lastDate := lastDate; consolidatedDocId := consolidatedDocId;
          recent0 := recent; threads := threads;
          newMessages := newMessages |}.

(** The body of the [doc_html] loop, with its [try]/[catch]. *)
Definition html_step (env : Env) (consolidatedDocId : DocId)
    (item : Item) (l : Locals) : M Locals :=
  try_catch
    (prependMessageHtmlToDoc env (message item) consolidatedDocId;;
     mret {| recent := JsSet.add (recent l) (id item);
             newestSeen := if decide (date item > newestSeen l)
                           then date item else newestSeen l |})
    (λ e, Logger_log (LogError (getSubject (message item)) e);; mret l).

Definition html_loop (env : Env) (consolidatedDocId : DocId)
    (items : list Item) (l : Locals) : M Locals :=
  for_of_with items l (html_step env consolidatedDocId).

Definition undefined_date : string :=
  "TypeError: Cannot read properties of undefined (reading 'date')".

Definition process (env : Env) (g : Gathered) : M Locals :=
  if decide (OUTPUT_MODE env = "doc_plain") then
    Logger_log (LogInsertPlain (length (newMessages g)) (consolidatedDocId g));;
    prependBatchPlain env (newMessages g) (consolidatedDocId g);;
    match newMessages g with
    | first :: _ =>
      mret {| recent := foldl JsSet.add (recent0 g) (id <$> newMessages g);
              newestSeen := date first |}
    | [] => throw undefined_date
    end
  else if decide (OUTPUT_MODE env = "doc_html") then
    Logger_log (LogInsertHtml (length (newMessages g)) (consolidatedDocId g));;
    html_loop env (consolidatedDocId g) (newMessages g)
              {| recent := recent0 g; newestSeen := lastDate g |}
  else throw ("Error: Unknown OUTPUT_MODE: " +:+ OUTPUT_MODE env).

Definition persist (l : Locals) : M unit :=
  set_last_iso (newestSeen l);;
  saveRecentIds_ (recent l);;
  Logger_log (LogUpdated (newestSeen l) (JsSet.size (recent l))).

Definition processMessagesToDoc (env : Env) : M unit :=
  g ← gather env;
  match newMessages g with
  | [] => Logger_log LogNoNew
  | _ :: _ => l ← process env g; persist l
  end.

(** * Vocabulary of the properties *)

(** Eligibility as the specification words it. *)
Definition is_new (W : Z) (R : JsSet.t) (m : Message) : Prop :=
  getDate m > W ∧ getId m ∉ R.

#[global] Instance is_new_dec W R m : Decision (is_new W R m).
Proof. unfold is_new. apply _. Defined.

(** The messages of the scanned threads, in source iteration order. *)
Definition scanned (threads : list Thread) : list Message := concat threads.

(** The watermark a run reads: [getProperty(PROP_LAST_ISO) || epoch]. *)
Definition watermark (w : World) : Z := default EPOCH (gtd_last_iso (props w)).

(** The array persisted under [PROP_RECENT_IDS]. *)
Definition persisted_ids (w : World) : list string :=
  default [] (gtd_recent_ids (props w)).

(** The recency set a run reads. *)
Definition recency (w : World) : JsSet.t :=
  match gtd_recent_ids (props w) with
  | Some a => JsSet.of_array a
  | None => []
  end.

Definition handle (w : World) : option DocId := gtd_consolidated_doc_id (props w).

(** The persisted handle, when it resolves to a document that is not
    trashed. *)
Definition live_handle (w : World) : option DocId :=
  match handle w with
  | Some d => match drive w !! d with
              | Some f => if isTrashed f then None else Some d
              | None => None
              end
  | None => None
  end.

Definition new_id (w : World) : DocId := fresh (dom (drive w)).

Definition empty_doc : File := {| isTrashed := false; children := [] |}.

(** The world once a new empty document is created and made the
    destination. *)
Definition created (w : World) : World :=
  {| props := {| gtd_last_iso := gtd_last_iso (props w);
                 gtd_consolidated_doc_id := Some (new_id w);
                 gtd_recent_ids := gtd_recent_ids (props w) |};
     drive := <[new_id w := empty_doc]> (drive w);
     logged := logged w ++ [LogCreated (new_id w)] |}.

Definition is_ok {A} (r : Res A) : bool :=
  match r with Ok _ _ => true | Throw _ _ => false end.

Definition body_of (w : World) (d : DocId) : list Element :=
  match drive w !! d with Some f => children f | None => [] end.

(** What [prependBatchPlain] appends to the temporary document for one
    message, and what its copy loop inserts for one child. *)
Definition render_plain (env : Env) (msg : Message) : list Element :=
  [Paragraph HEADING6 "--- EMAIL START ---";
   Paragraph NORMAL ("Subject: " +:+ or_else (getSubject msg) "(no subject)");
   Paragraph NORMAL ("From: " +:+ or_else (getFrom msg) "");
   Paragraph NORMAL ("To: " +:+ or_else (getTo msg) "");
   Paragraph NORMAL ("Date: " +:+ date_toString env (getDate msg));
   Paragraph NORMAL ""]
  ++ (Paragraph NORMAL <$> split_lines (plain_text msg))
  ++ [Paragraph NORMAL "--- EMAIL END ---"; PageBreak].

Definition copied_plain (child : Element) : Element :=
  match child with
  | Paragraph _ t => Paragraph NORMAL t
  | ListItem t => ListItem t
  | PageBreak => PageBreak
  | _ => Paragraph NORMAL (text_or_unsupported child)
  end.

(** The rendering of one message as it lands in the destination. *)
Definition plain_block (env : Env) (msg : Message) : list Element :=
  copied_plain <$> render_plain env msg.

(** The rendering of a batch: the blocks of its messages, in batch order. *)
Definition plain_batch (env : Env) (messages : list Item) : list Element :=
  concat (plain_block env ∘ message <$> messages).

(** Replace the file stored under [d]. *)
Definition with_file (w : World) (d : DocId) (f : File) : World :=
  {| props := props w; drive := <[d := f]> (drive w); logged := logged w |}.

(** The world and the destination after [ensureConsolidatedDoc_]. *)
Definition ensured (w : World) : World :=
  match live_handle w with Some _ => w | None => created w end.
Definition destination (w : World) : DocId :=
  match live_handle w with Some d => d | None => new_id w end.

(** The threads one run scans and the batch it selects. *)
Definition scan (env : Env) : list Thread :=
  search (labelled env) 0 MAX_MESSAGES_PER_RUN.
Definition batch (env : Env) (w : World) : list Item :=
  select (scan env) (watermark w) (recency w).

Definition gathered (env : Env) (w : World) : Gathered :=
  {| lastDate := watermark w; consolidatedDocId := destination w;
     recent0 := recency w; threads := scan env; newMessages := batch env w |}.

(** The outcome of the [doc_html] loop, message by message: [None] when
    the call of [prependMessageHtmlToDoc] returned, [Some e] when it raised
    [e] (which the loop catches and logs). *)
Fixpoint html_trace (env : Env) (doc : DocId) (items : list Item) (w : World)
  : list (Item * option string) :=
  match items with
  | [] => []
  | it :: rest =>
    match prependMessageHtmlToDoc env (message it) doc w with
    | Ok _ w' => (it, None) :: html_trace env doc rest w'
    | Throw e w' =>
      (it, Some e)
      :: html_trace env doc rest
           (final_world (Logger_log (LogError (getSubject (message it)) e) w'))
    end
  end.

Definition succeeded (tr : list (Item * option string)) : list Item :=
  fst <$> filter (λ x, snd x = None) tr.

(** The world in which the processing branch starts its insertions. *)
Definition insertion_start (env : Env) (w : World) : World :=
  let w1 := final_world (gather env w) in
  final_world
    (Logger_log
       (if decide (OUTPUT_MODE env = "doc_plain")
        then LogInsertPlain (length (batch env w)) (destination w)
        else LogInsertHtml (length (batch env w)) (destination w)) w1).

Definition run_trace (env : Env) (w : World) : list (Item * option string) :=
  html_trace env (destination w) (batch env w) (insertion_start env w).

(** The messages a run inserts: in [doc_plain] mode the whole batch when
    [prependBatchPlain] returns, in [doc_html] mode the messages whose
    [prependMessageHtmlToDoc] call returned. *)
Definition inserted (env : Env) (w : World) : list Item :=
  if decide (OUTPUT_MODE env = "doc_plain") then
    if is_ok (prependBatchPlain env (batch env w) (destination w)
                                (insertion_start env w))
    then batch env w else []
  else if decide (OUTPUT_MODE env = "doc_html") then
    succeeded (run_trace env w)
  else [].

(** The greatest of [W] and the timestamps of [l]. *)
Definition max_date (W : Z) (l : list Item) : Z := foldl Z.max W (date <$> l).

(** Watermark and recency set, the state the updater owns. *)
Definition same_state : relation World := λ w w',
  gtd_last_iso (props w') = gtd_last_iso (props w)
  ∧ gtd_recent_ids (props w') = gtd_recent_ids (props w).

(** The properties a run persists when it reaches "Persist state". *)
Definition committed (env : Env) (w : World) : Props :=
  {| gtd_last_iso := Some (max_date (watermark w) (inserted env w));
     gtd_consolidated_doc_id := Some (destination w);
     gtd_recent_ids :=
       Some (slice_last RECENT_IDS_LIMIT
               (foldl JsSet.add (recency w) (id <$> inserted env w))) |}.

(** ** Sample data *)

Definition msg_a : Message := mkMessage "a" 10 "first" "ann" "bob" "hello" "".
Definition msg_b : Message := mkMessage "b" 30 "third" "ann" "bob" "bye" "".
Definition msg_c : Message := mkMessage "c" 20 "second" "ann" "bob" "" "<p>hi</p>".
Definition msg_d : Message := mkMessage "d" 40 "fourth" "ann" "bob" "later" "".

(** A conversion endpoint that is down for [msg_b] and for no other page. *)
Definition sample_env (mode : string) (mailbox : list Thread) : Env :=
  {| labelled := mailbox;
     OUTPUT_MODE := mode;
     convert_html := λ html,
       if decide (html = htmlHeader (mkEnv [] "" (λ _, inl "") (λ _, None)
                                           (λ _, "Thu Jan 01 1970")) msg_b
                         +:+ bodyHtml msg_b +:+ "</body></html>")
       then inl "Exception: conversion failed"
       else inr [Paragraph NORMAL "converted"];
     insert_error := λ _, None;
     date_toString := λ _, "Thu Jan 01 1970" |}.

(** No property set, nothing in Drive, nothing logged. *)
Definition blank : World :=
  {| props := {| gtd_last_iso := None; gtd_consolidated_doc_id := None;
                 gtd_recent_ids := None |};
     drive := ∅; logged := [] |}.

(** Three threads of 67 messages each, 201 messages in all, every one
    with its own identifier and timestamp. *)
Definition numbered (n : nat) : Message :=
  mkMessage ("m" +:+ pretty n) (1000 + Z.of_nat n) "subject" "ann" "bob" "text" "".
Definition long_thread (k : nat) : Thread := numbered <$> seq (67 * k) 67.
Definition big_mailbox : list Thread :=
  [long_thread 0; long_thread 1; long_thread 2].

(** Every operation of the script but the reset. *)
Inductive Op :=
| Run (env : Env)
| Init
| Ensure.

Definition exec (o : Op) (w : World) : World :=
  match o with
  | Run env => final_world (processMessagesToDoc env w)
  | Init => final_world (gtd_init w)
  | Ensure => final_world (ensureConsolidatedDoc_ w)
  end.

(** The world after a sequence of operations. *)
Definition after (ops : list Op) (w : World) : World := foldl (λ w o, exec o w) w ops.

(** Watermark and recency set as a run reads them. *)
Definition same_guard : relation World := λ w w',
  watermark w' = watermark w
  ∧ gtd_recent_ids (props w') = gtd_recent_ids (props w).

(** A document service that refuses page breaks. *)
Definition refusing_env (mailbox : list Thread) : Env :=
  {| labelled := mailbox;
     OUTPUT_MODE := "doc_plain";
     convert_html := λ _, inr [];
     insert_error := λ el, match el with
                           | PageBreak => Some "Exception: Service error"
                           | _ => None
                           end;
     date_toString := λ _, "Thu Jan 01 1970" |}.

(** ** Vocabulary of the proofs *)

(** [R] relates the world before a computation to the world it leaves,
    whether it returns or raises. *)
Definition respects {A} (R : relation World) (m : M A) : Prop :=
  ∀ w, R w (final_world (m w)).

(** The persisted properties are the same. *)
Definition same_props : relation World := λ w w', props w' = props w.
(** The log is extended, nothing logged is lost. *)
Definition log_grows : relation World := λ w w', logged w `prefix_of` logged w'.

(** [m] returns after adding [els] at the end of document [d]. *)
Definition appends (d : DocId) (els : list Element) (m : M unit) : Prop :=
  ∀ w f, drive w !! d = Some f →
    m w = Ok tt (with_file w d {| isTrashed := isTrashed f;
                                  children := children f ++ els |}).

(** * Further code and its vocabulary *)

(** ** [escapeHtml], character by character *)

Definition AMP : ascii := "&"%char.
Definition LT : ascii := "<"%char.
Definition GT : ascii := ">"%char.

(** The entity a character is written as. *)
Definition escape_char (c : ascii) : string :=
  if decide (c = AMP) then "&amp;"
  else if decide (c = LT) then "&lt;"
  else if decide (c = GT) then "&gt;"
  else String c "".

Fixpoint escape_chars (s : string) : string :=
  match s with
  | "" => ""
  | String c s' => escape_char c +:+ escape_chars s'
  end.

(** The characters of a string. *)
Fixpoint chars (s : string) : list ascii :=
  match s with
  | "" => []
  | String c s' => c :: chars s'
  end.

(** ** docs_utils: [prependMessageToDocPlain] *)

(** One message, rendered like a message of [prependBatchPlain]; the copy
    loop has a [try]/[catch] around the insertion of each child. *)
Definition prependMessageToDocPlain (env : Env) (msg : Message)
    (consolidatedDocId : DocId) : M unit :=
  mainBody ← openById consolidatedDocId;
  tmpDoc ← DocumentApp_create;
  let tmpBody := tmpDoc in
  append_plain env tmpBody msg;;
  n ← getNumChildren tmpBody;
  for_down n (λ i,
    child ← getChild tmpBody i;
    try_catch (copy_plain env mainBody child)
              (λ err, insert0 env mainBody (insert_failed err)));;
  setTrashed tmpDoc true.

(** ** Vocabulary of the copy loops *)

(** [m] returns after putting [els] on top of document [d]. *)
Definition prepends (d : DocId) (els : list Element) (m : M unit) : Prop :=
  ∀ w f, drive w !! d = Some f →
    m w = Ok tt (with_file w d {| isTrashed := isTrashed f;
                                  children := els ++ children f |}).

(** Inserting the placeholder itself never raises. *)
Definition placeholders_ok (env : Env) : Prop :=
  ∀ e, insert_error env (insert_failed e) = None.

(** What a guarded insertion leaves: the element, or the placeholder
    carrying the exception. *)
Definition guarded (env : Env) (el : Element) : Element :=
  match insert_error env el with
  | None => el
  | Some e => insert_failed e
  end.

(** The rows of a table as the copy loop of [prependMessageHtmlToDoc]
    leaves them: it inserts from the last row up and stops at the first
    insertion that raises, the placeholder then standing above the rows
    already inserted. [rows] is in insertion order, last row first. *)
Fixpoint table_rows (env : Env) (rows : list (list string))
    (acc : list Element) : list Element :=
  match rows with
  | [] => acc
  | row :: rest =>
    let el := Paragraph NORMAL (join_tab row) in
    match insert_error env el with
    | None => table_rows env rest (el :: acc)
    | Some e => insert_failed e :: acc
    end
  end.

(** What the copy loop of [prependMessageHtmlToDoc] leaves for one child. *)
Definition html_child (env : Env) (child : Element) : list Element :=
  match child with
  | Paragraph _ t => [guarded env (Paragraph NORMAL t)]
  | ListItem t => [guarded env (ListItem t)]
  | Table rows => table_rows env (reverse rows) []
  | PageBreak => [guarded env PageBreak]
  | InlineImage blob => [guarded env (InlineImage blob)]
  | Other _ => [guarded env (Paragraph NORMAL (text_or_unsupported child))]
  end.

Definition html_block (env : Env) (kids : list Element) : list Element :=
  concat (html_child env <$> kids).

(** The same without any failure: a table becomes one paragraph per
    row, tab separated, other elements keep their text. *)
Definition flat_child (child : Element) : list Element :=
  match child with
  | Paragraph _ t => [Paragraph NORMAL t]
  | ListItem t => [ListItem t]
  | Table rows => (λ row, Paragraph NORMAL (join_tab row)) <$> rows
  | PageBreak => [PageBreak]
  | InlineImage blob => [InlineImage blob]
  | Other _ => [Paragraph NORMAL (text_or_unsupported child)]
  end.

(** The converted document of a message, when the conversion returns. *)
Definition converted (env : Env) (msg : Message) : option (list Element) :=
  match convert_html env (fullHtml env msg) with
  | inr kids => Some kids
  | inl _ => None
  end.

(** What one message of a [doc_html] batch contributes to the
    destination: its converted content, nothing when the conversion
    raised. *)
Definition html_message_block (env : Env) (it : Item) : list Element :=
  match converted env (message it) with
  | Some kids => html_block env kids
  | None => []
  end.

(** The world after a prepend through a temporary document: the
    temporary document, created under an unused id with content [rendered],
    ends trashed, and [block] stands on top of the destination. *)
Definition after_prepend (w : World) (main : DocId)
    (rendered block : list Element) (prior : File) : World :=
  with_file
    (with_file
       (with_file w (new_id w) {| isTrashed := false; children := rendered |})
       main {| isTrashed := isTrashed prior;
               children := block ++ children prior |})
    (new_id w) {| isTrashed := true; children := rendered |}.

(** An element without heading and without structure: a normal
    paragraph or a page break. *)
Definition is_plain (el : Element) : Prop :=
  match el with
  | Paragraph NORMAL _ | PageBreak => True
  | _ => False
  end.

(** A conversion endpoint that turns every page into a title, a table
    and a page break, with a document service that refuses page breaks. *)
Definition tabular_env (mode : string) (mailbox : list Thread) : Env :=
  {| labelled := mailbox;
     OUTPUT_MODE := mode;
     convert_html := λ _, inr [Paragraph HEADING6 "title";
                               Table [["a"; "b"]; ["c"]]; PageBreak];
     insert_error := λ el, match el with
                           | PageBreak => Some "Exception: Service error"
                           | _ => None
                           end;
     date_toString := λ _, "Thu Jan 01 1970" |}.

(** Whether the conversion of the message of an item returns. *)
Definition converts (env : Env) (it : Item) : Prop :=
  is_Some (converted env (message it)).

#[global] Instance converts_dec env it : Decision (converts env it).
Proof. unfold converts. apply _. Defined.

(** An identifier always names a message with the same timestamp:
    [date_of] gives the timestamp of every scanned message from its
    identifier. *)
Definition dated (date_of : string → Z) (env : Env) : Prop :=
  ∀ m, m ∈ scanned (scan env) → getDate m = date_of (getId m).

(** Every identifier of the recency set names a message at or below the
    watermark. *)
Definition guard_covered (date_of : string → Z) (w : World) : Prop :=
  ∀ x, x ∈ recency w → date_of x <= watermark w.

(** ** docs_utils: [copyElementToBody] *)

(** [destBody.appendParagraph(..)], [appendListItem], [appendImage],
    [appendPageBreak] on a body that may refuse the element:
    [append_error] tells whether appending it raises. *)
Definition append_checked (append_error : Element → option string)
    (body : DocId) (el : Element) : M unit :=
  f ← getFileById body;
  match append_error el with
  | Some e => throw e
  | None => put_file body {| isTrashed := isTrashed f;
                             children := children f ++ [el] |}
  end.

(** [child.asText()] on an element that is not text. *)
Definition not_text : string := "Exception: Element is not of type Text".

Definition copyElementToBody (append_error : Element → option string)
    (child : Element) (destBody : DocId) : M unit :=
  let appendTo := append_checked append_error destBody in
  match child with
  | Paragraph _ t => appendTo (Paragraph NORMAL t)
  | ListItem t => appendTo (ListItem t)
  | Table rows =>
      for_of rows (λ row, appendTo (Paragraph NORMAL (join_tab row)))
  | InlineImage blob =>
      try_catch (appendTo (InlineImage blob))
                (λ _, appendTo (Paragraph NORMAL "[image error]"))
  | PageBreak => appendTo PageBreak
  | Other t =>
      try_catch (match t with
                 | Some text => appendTo (Paragraph NORMAL text)
                 | None => throw not_text
                 end)
                (λ _, appendTo (Paragraph NORMAL "[unsupported element]"))
  end.

(** Document [d] exists on both sides and what it held is still there,
    in place, at the top. *)
Definition body_grows (d : DocId) : relation World := λ w w',
  ∀ f, drive w !! d = Some f →
       ∃ f', drive w' !! d = Some f' ∧ children f `prefix_of` children f'.

(** ** What a copy leaves in the destination

    The copy loops insert at the top of the destination, one element
    after the other, and stop at the first exception that nothing catches;
    what was inserted before stays. The functions below tell, from the
    environment alone, what a copy leaves on top of the destination and
    which exception it raises. *)

Record Outcome := mkOutcome {
  (** the elements left on top of the destination, the last inserted first *)
  landed : list Element;
  (** the exception raised, if any *)
  raised : option string
}.

(** [insertX(0, ..)] *)
Definition insertion (env : Env) (el : Element) : Outcome :=
  match insert_error env el with
  | None => {| landed := [el]; raised := None |}
  | Some e => {| landed := []; raised := Some e |}
  end.

(** A loop of copies over [l], in the order of the iteration: it goes on
    while nothing raises. *)
Fixpoint each {A} (step : A → Outcome) (l : list A) : Outcome :=
  match l with
  | [] => {| landed := []; raised := None |}
  | x :: rest =>
    match raised (step x) with
    | None => {| landed := landed (each step rest) ++ landed (step x);
                 raised := raised (each step rest) |}
    | Some _ => step x
    end
  end.

(** [try { o } catch (e) { h e }] *)
Definition caught (o : Outcome) (h : string → Outcome) : Outcome :=
  match raised o with
  | None => o
  | Some e => {| landed := landed (h e) ++ landed o; raised := raised (h e) |}
  end.

(** The copy loop of [prependBatchPlain], from the last child up. *)
Definition plain_outcome (env : Env) (messages : list Item) : Outcome :=
  each (λ c, insertion env (copied_plain c))
       (reverse (concat (render_plain env ∘ message <$> messages))).

(** The type dispatch of [prependMessageHtmlToDoc], its [try]/[catch],
    and its copy loop. *)
Definition copy_html_outcome (env : Env) (child : Element) : Outcome :=
  match child with
  | Paragraph _ t => insertion env (Paragraph NORMAL t)
  | ListItem t => insertion env (ListItem t)
  | Table rows =>
    each (λ row, insertion env (Paragraph NORMAL (join_tab row))) (reverse rows)
  | PageBreak => insertion env PageBreak
  | InlineImage blob => insertion env (InlineImage blob)
  | Other _ => insertion env (Paragraph NORMAL (text_or_unsupported child))
  end.

Definition html_child_outcome (env : Env) (child : Element) : Outcome :=
  caught (copy_html_outcome env child) (λ e, insertion env (insert_failed e)).

Definition html_outcome (env : Env) (kids : list Element) : Outcome :=
  each (html_child_outcome env) (reverse kids).

(** One call of [prependMessageHtmlToDoc]: nothing is left when the
    conversion raises. *)
Definition message_outcome (env : Env) (msg : Message) : Outcome :=
  match convert_html env (fullHtml env msg) with
  | inl e => {| landed := []; raised := Some e |}
  | inr kids => html_outcome env kids
  end.

(** The call of [prependMessageHtmlToDoc] for the message of an item
    returns. *)
Definition returns (env : Env) (it : Item) : Prop :=
  raised (message_outcome env (message it)) = None.

#[global] Instance returns_dec env it : Decision (returns env it).
Proof. unfold returns. apply _. Defined.

(** What a run leaves on top of the destination, whether it returns or
    raises. *)
Definition run_landed (env : Env) (w : World) : list Element :=
  if decide (OUTPUT_MODE env = "doc_plain") then
    landed (plain_outcome env (batch env w))
  else if decide (OUTPUT_MODE env = "doc_html") then
    concat (reverse ((λ it, landed (message_outcome env (message it)))
                     <$> batch env w))
  else [].

(** The rendering of an inserted message as the destination shows it. *)
Definition rendering (env : Env) (it : Item) : list Element :=
  if decide (OUTPUT_MODE env = "doc_plain") then plain_block env (message it)
  else html_message_block env it.

(** [l] stands in [body], in one piece. *)
Definition stands_in (l body : list Element) : Prop :=
  ∃ above below, body = above ++ l ++ below.

(** The world after a prepend through a temporary document whose copy
    loop raised: [block] stands on top of the destination, the temporary
    document is left as it was filled, not trashed. *)
Definition after_abort (w : World) (main : DocId)
    (rendered block : list Element) (prior : File) : World :=
  with_file
    (with_file w (new_id w) {| isTrashed := false; children := rendered |})
    main {| isTrashed := isTrashed prior;
            children := block ++ children prior |}.

(** The result of a computation that left the world [w] with outcome [o]. *)
Definition finish (o : Outcome) (w : World) : Res unit :=
  match raised o with
  | None => Ok tt w
  | Some e => Throw e w
  end.

(** [m] leaves [landed o] on top of document [d] and nothing else, and
    returns or raises as [o] says. *)
Definition leaves (d : DocId) (o : Outcome) (m : M unit) : Prop :=
  ∀ w f, drive w !! d = Some f →
    m w = finish o (with_file w d {| isTrashed := isTrashed f;
                                     children := landed o ++ children f |}).

(** A document service that refuses the subject line of [msg_b]. *)
Definition picky_env (mode : string) (mailbox : list Thread) : Env :=
  {| labelled := mailbox;
     OUTPUT_MODE := mode;
     convert_html := λ _, inr [Paragraph NORMAL "converted"];
     insert_error := λ el, match el with
                           | Paragraph NORMAL t =>
                             if decide (t = "Subject: third")
                             then Some "Exception: Service error" else None
                           | _ => None
                           end;
     date_toString := λ _, "Thu Jan 01 1970" |}.

(** A conversion endpoint that turns every page into a list item and a
    page break, with a document service that refuses page breaks, list
    items, and the placeholder for a refused list item. *)
Definition stubborn_env (mode : string) (mailbox : list Thread) : Env :=
  {| labelled := mailbox;
     OUTPUT_MODE := mode;
     convert_html := λ _, inr [ListItem "item"; PageBreak];
     insert_error := λ el, match el with
                           | PageBreak => Some "Exception: Service error"
                           | ListItem _ => Some "Exception: List error"
                           | Paragraph NORMAL t =>
                             if decide (t = "[insert failed: Exception: List error]")
                             then Some "Exception: Quota exceeded" else None
                           | _ => None
                           end;
     date_toString := λ _, "Thu Jan 01 1970" |}.

(** ** docs_mode.gs, the orchestrator without the dedup ring

    [src/docs_mode.gs] holds another [gtd_init] and [processMessagesToDoc]:
    no recency set, no check that the destination is still there, one
    message at a time inside a [try]. Its log lines differ from those of
    the orchestrator above, so its computations carry the world together
    with their own lines. *)
Module DocsModeGs.

(** One constructor per [Logger.log] call of this file. *)
Inductive Line :=
| Starting (lastISO : Z) (consolidatedDocId : option DocId)
| CreatedNew (docId : DocId)
| CreatedDoc (docId : DocId)
| NoNew
| Found (n : nat)
| Processed (subject : string) (date : Z)
| Failed (subject : string) (err : string)
| StateUpdated (lastISO : Z)
| Initialized (lastISO : option Z) (docId : option DocId).

Record State := mkState {
  world : World;
  lines : list Line
}.

Inductive Out (A : Type) :=
| Done (a : A) (s : State)
| Raised (e : string) (s : State).
Arguments Done {A} a s.
Arguments Raised {A} e s.

Definition L (A : Type) := State → Out A.

Definition lret {A} (a : A) : L A := λ s, Done a s.
Definition lbind {A B} (k : A → L B) (m : L A) : L B :=
  λ s, match m s with
       | Done a s' => k a s'
       | Raised e s' => Raised e s'
       end.
Definition lthrow {A} (e : string) : L A := λ s, Raised e s.
Definition ltry {A} (m : L A) (h : string → L A) : L A :=
  λ s, match m s with
       | Done a s' => Done a s'
       | Raised e s' => h e s'
       end.

#[global] Instance L_ret : MRet L := @lret.
#[global] Instance L_bind : MBind L := @lbind.

(** A computation on the world, the lines left as they are. *)
Definition lift {A} (m : M A) : L A :=
  λ s, match m (world s) with
       | Ok a w => Done a {| world := w; lines := lines s |}
       | Throw e w => Raised e {| world := w; lines := lines s |}
       end.

Definition log (l : Line) : L unit :=
  λ s, Done tt {| world := world s; lines := lines s ++ [l] |}.

(** [arr.forEach(body)] with the captured variable [newestSeen]. *)
Fixpoint forEach {A S} (l : list A) (s : S) (body : A → S → L S) : L S :=
  match l with
  | [] => mret s
  | x :: l' => s' ← body x s; forEach l' s' body
  end.

Definition final_state {A} (o : Out A) : State :=
  match o with Done _ s => s | Raised _ s => s end.

(** The object literal [{date: d, message: m}]. *)
Record Entry := mkEntry {
  date : Z;
  message : Message
}.

Definition gtd_init : L unit :=
  p ← lift getProperties;
  match gtd_last_iso p with
  | Some _ => mret tt
  | None => lift (set_last_iso EPOCH)
  end;;
  p ← lift getProperties;
  match gtd_consolidated_doc_id p with
  | Some _ => mret tt
  | None =>
    doc ← lift DocumentApp_create;
    lift (set_consolidated_doc doc);;
    log (CreatedDoc doc)
  end;;
  p ← lift getProperties;
  log (Initialized (gtd_last_iso p) (gtd_consolidated_doc_id p)).

(** The two nested index loops: every message dated after [lastDate]. *)
Definition collect (threads : list Thread) (lastDate : Z) : list Entry :=
  foldl (λ acc t,
           foldl (λ acc m, if bool_decide (getDate m > lastDate)
                           then acc ++ [{| date := getDate m; message := m |}]
                           else acc) acc t)
        [] threads.

(** The body of the [forEach], with its [try]/[catch]. *)
Definition step (env : Env) (consolidatedDocId : DocId)
    (item : Entry) (newestSeen : Z) : L Z :=
  let msg := message item in
  ltry
    ((if decide (OUTPUT_MODE env = "doc_plain") then
        lift (prependMessageToDocPlain env msg consolidatedDocId)
      else if decide (OUTPUT_MODE env = "doc_html") then
        lift (prependMessageHtmlToDoc env msg consolidatedDocId)
      else lthrow ("Error: Unknown OUTPUT_MODE: " +:+ OUTPUT_MODE env));;
     let newestSeen' := if decide (date item > newestSeen)
                        then date item else newestSeen in
     log (Processed (getSubject msg) (getDate msg));;
     mret newestSeen')
    (λ e, log (Failed (getSubject msg) e);; mret newestSeen).

Definition processMessagesToDoc (env : Env) : L unit :=
  p ← lift getProperties;
  let lastISO := default EPOCH (gtd_last_iso p) in
  log (Starting lastISO (gtd_consolidated_doc_id p));;
  consolidatedDocId ←
    match gtd_consolidated_doc_id p with
    | Some d => mret d
    | None =>
      doc ← lift DocumentApp_create;
      lift (set_consolidated_doc doc);;
      log (CreatedNew doc);;
      mret doc
    end;
  let lastDate := lastISO in
  let threads := search (labelled env) 0 MAX_MESSAGES_PER_RUN in
  let newMessages := collect threads lastDate in
  match newMessages with
  | [] => log NoNew
  | _ :: _ =>
    let newMessages := js_sort (λ a b, date b - date a) newMessages in
    log (Found (length newMessages));;
    newestSeen ← forEach newMessages lastDate (step env consolidatedDocId);
    lift (set_last_iso newestSeen);;
    log (StateUpdated newestSeen)
  end.

(** *** Vocabulary *)

(** The messages this orchestrator selects, in the order it processes
    them. *)
Definition selected (env : Env) (s : State) : list Entry :=
  js_sort (λ a b, date b - date a)
          (collect (scan env) (watermark (world s))).

(** The destination it uses: the persisted handle, whatever it points
    to, otherwise a new document. *)
Definition target (s : State) : DocId :=
  match handle (world s) with
  | Some d => d
  | None => new_id (world s)
  end.

(** The world once the destination is settled: as it was when a handle
    is persisted, with a new empty document made the destination
    otherwise. *)
Definition settled (s : State) : World :=
  match handle (world s) with
  | Some _ => world s
  | None =>
    {| props := {| gtd_last_iso := gtd_last_iso (props (world s));
                   gtd_consolidated_doc_id := Some (new_id (world s));
                   gtd_recent_ids := gtd_recent_ids (props (world s)) |};
       drive := <[new_id (world s) := empty_doc]> (drive (world s));
       logged := logged (world s) |}
  end.

(** The lines logged before the messages are looked at. *)
Definition prelude (s : State) : list Line :=
  Starting (watermark (world s)) (handle (world s))
  :: match handle (world s) with
     | Some _ => []
     | None => [CreatedNew (new_id (world s))]
     end.

(** The line logged for a message whose call raised [e]. *)
Definition failed_line (e : string) (item : Entry) : Line :=
  Failed (getSubject (message item)) e.

(** What the message of an entry contributes to the destination in
    [doc_plain] mode. *)
Definition entry_block (env : Env) (item : Entry) : list Element :=
  guarded env <$> plain_block env (message item).

(** What the message of an entry contributes to the destination in
    [doc_html] mode: its converted content, nothing when the conversion
    raised. *)
Definition entry_html_block (env : Env) (item : Entry) : list Element :=
  match converted env (message item) with
  | Some kids => html_block env kids
  | None => []
  end.

(** The line logged for a message whose call returned. *)
Definition processed_line (item : Entry) : Line :=
  Processed (getSubject (message item)) (getDate (message item)).

(** The call made for one message, by output mode. *)
Definition call (env : Env) (doc : DocId) (msg : Message) : M unit :=
  if decide (OUTPUT_MODE env = "doc_plain") then
    prependMessageToDocPlain env msg doc
  else if decide (OUTPUT_MODE env = "doc_html") then
    prependMessageHtmlToDoc env msg doc
  else throw ("Error: Unknown OUTPUT_MODE: " +:+ OUTPUT_MODE env).

(** The world with the watermark property written. *)
Definition with_watermark (w : World) (t : Z) : World :=
  {| props := {| gtd_last_iso := Some t;
                 gtd_consolidated_doc_id := handle w;
                 gtd_recent_ids := gtd_recent_ids (props w) |};
     drive := drive w; logged := logged w |}.

End DocsModeGs.

(** * Properties *)

(** ** Sorting *)

Section js_sort_facts.
Context {A : Type} (key : A → Z).
(** Newest first on [key]: the comparator [(a,b) => key b - key a]. *)
Let cmp (a b : A) : Z := key b - key a.
Let ge_key (a b : A) : Prop := key b <= key a.

Lemma sort_insert_perm x l : sort_insert cmp x l ≡ₚ x :: l.
Proof.
  induction l as [|y l IH]; simpl; [done|].
  case_decide; [done|]. rewrite IH. apply Permutation_swap.
Qed.

Lemma js_sort_perm l : js_sort cmp l ≡ₚ l.
Proof.
  induction l as [|x l IH]; simpl; [done|].
  by rewrite sort_insert_perm, IH.
Qed.

Lemma sort_insert_sorted x l :
  StronglySorted ge_key l → StronglySorted ge_key (sort_insert cmp x l).
Proof.
  induction 1 as [|y l Hl IH Hy]; simpl.
  - repeat constructor.
  - case_decide as Hc; unfold cmp in Hc.
    + constructor; [by constructor|].
      constructor; [unfold ge_key; lia|].
      eapply Forall_impl; [exact Hy|]. unfold ge_key. intros; lia.
    + constructor; [done|].
      rewrite sort_insert_perm. constructor; [unfold ge_key; lia|done].
Qed.

Lemma js_sort_sorted l : StronglySorted ge_key (js_sort cmp l).
Proof.
  induction l; simpl; [constructor|]. by apply sort_insert_sorted.
Qed.

(** Stability: elements with equal keys keep their relative order. *)
Lemma sort_insert_stable t x l :
  filter (λ a, key a = t) (sort_insert cmp x l)
  = filter (λ a, key a = t) (x :: l).
Proof.
  induction l as [|y l IH]; simpl; [done|].
  case_decide as Hc; [done|]. unfold cmp in Hc.
  rewrite !filter_cons in *. rewrite IH.
  repeat case_decide; try done; lia.
Qed.

Lemma js_sort_stable t l :
  filter (λ a, key a = t) (js_sort cmp l) = filter (λ a, key a = t) l.
Proof.
  induction l as [|x l IH]; simpl; [done|].
  rewrite sort_insert_stable, !filter_cons, IH. done.
Qed.

(** The head of the sorted array carries the greatest key. *)
Lemma js_sort_head x l' l :
  js_sort cmp l = x :: l' → ∀ y, y ∈ l → key y <= key x.
Proof.
  intros H y Hy. pose proof (js_sort_sorted l) as Hs.
  rewrite <- (js_sort_perm l), H in Hy. rewrite H in Hs.
  apply StronglySorted_cons in Hs as [Hall _].
  apply elem_of_cons in Hy as [->|Hy]; [lia|].
  rewrite Forall_forall in Hall. by apply Hall.
Qed.
End js_sort_facts.

(** ** Selection *)

Lemma eligible_spec W R m : eligible W R m = true ↔ is_new W R m.
Proof.
  unfold eligible, is_new, JsSet.has.
  rewrite andb_true_iff, negb_true_iff, bool_decide_eq_true, bool_decide_eq_false.
  done.
Qed.

Lemma collect_thread W R (t : Thread) acc :
  foldl (λ acc m, if eligible W R m then acc ++ [item_of m] else acc) acc t
  = acc ++ (item_of <$> filter (is_new W R) t).
Proof.
  revert acc. induction t as [|m t IH]; intros acc; simpl.
  - by rewrite app_nil_r.
  - rewrite IH, filter_cons.
    destruct (eligible W R m) eqn:E.
    + apply eligible_spec in E. rewrite decide_True by done.
      by rewrite fmap_cons, <- app_assoc.
    + rewrite decide_False; [done|]. intros H%eligible_spec. congruence.
Qed.

Lemma collect_spec threads W R :
  collect threads W R = item_of <$> filter (is_new W R) (scanned threads).
Proof.
  unfold collect, scanned.
  enough (∀ acc,
    foldl (λ acc t,
      foldl (λ acc m, if eligible W R m then acc ++ [item_of m] else acc) acc t)
      acc threads
    = acc ++ (item_of <$> filter (is_new W R) (concat threads))) as H
    by apply (H []).
  induction threads as [|t ts IH]; intros acc; simpl.
  - by rewrite app_nil_r.
  - rewrite IH, collect_thread, filter_app, fmap_app, app_assoc. done.
Qed.

Lemma select_perm (ts : list Thread) (W : Z) (R : JsSet.t) :
  select ts W R ≡ₚ item_of <$> filter (is_new W R) (scanned ts).
Proof. unfold select. rewrite collect_spec. apply (js_sort_perm date). Qed.

(** C1. For every list of source threads, watermark [W] and recency set
    [R], the selection step yields exactly the scanned messages with
    timestamp strictly greater than [W] and identifier not in [R] (as a
    rearrangement of them), ordered by descending timestamp, messages
    with the same timestamp staying in source iteration order. *)
Theorem select_spec (threads : list Thread) (W : Z) (R : JsSet.t) :
  let news := item_of <$> filter (is_new W R) (scanned threads) in
  select threads W R ≡ₚ news
  ∧ StronglySorted (λ a b, date b <= date a) (select threads W R)
  ∧ ∀ t, filter (λ it, date it = t) (select threads W R)
         = filter (λ it, date it = t) news.
Proof.
  intros news. split; [apply select_perm|].
  unfold select. rewrite collect_spec. fold news.
  split; [apply (js_sort_sorted date)|].
  intros t. apply (js_sort_stable date).
Qed.

(** The scenario of the specification: timestamps [T+3; T+1; T+2], all
    new, come out as [T+3; T+2; T+1]; equal timestamps keep source order. *)
Example select_scenario :
  id <$> select [[msg_b; msg_a]; [msg_c; msg_d]] 15 ["d"] = ["b"; "c"]
  ∧ id <$> select [[msg_a; mkMessage "z" 10 "" "" "" "" ""; msg_b]] 0 []
    = ["b"; "a"; "z"].
Proof. by vm_compute. Qed.

(** ** Running computations *)

Lemma bind_ok {A B} (m : M A) (k : A → M B) w a w' :
  m w = Ok a w' → (m ≫= k) w = k a w'.
Proof. unfold mbind, M_bind, bind. by intros ->. Qed.

Lemma bind_throw {A B} (m : M A) (k : A → M B) w e w' :
  m w = Throw e w' → (m ≫= k) w = Throw e w'.
Proof. unfold mbind, M_bind, bind. by intros ->. Qed.

Lemma try_ok {A} (m : M A) h w a w' :
  m w = Ok a w' → try_catch m h w = Ok a w'.
Proof. unfold try_catch. by intros ->. Qed.

Lemma try_throw {A} (m : M A) h w e w' :
  m w = Throw e w' → try_catch m h w = h e w'.
Proof. unfold try_catch. by intros ->. Qed.

Ltac run :=
  unfold mbind, M_bind, bind, mret, M_ret, ret, throw, try_catch,
    getProperties, setProperties, set_last_iso, set_consolidated_doc,
    set_recent_ids, Logger_log, put_file, getFileById in *;
  simpl in *.

(** ** The destination document: [ensureConsolidatedDoc_] *)

Lemma new_id_fresh w : drive w !! new_id w = None.
Proof. unfold new_id. apply not_elem_of_dom, is_fresh. Qed.

Lemma ensure_eq w :
  ensureConsolidatedDoc_ w =
  match live_handle w with
  | Some d => Ok d w
  | None => Ok (new_id w) (created w)
  end.
Proof.
  unfold ensureConsolidatedDoc_, live_handle, handle, DocumentApp_create,
    new_doc, created, new_id. run.
  destruct (gtd_consolidated_doc_id (props w)) as [d|]; simpl; [|done].
  destruct (drive w !! d) as [f|]; simpl; [|done].
  destruct (isTrashed f); [done|]. by destruct w.
Qed.

Lemma live_created w : live_handle (created w) = Some (new_id w).
Proof.
  unfold live_handle, handle, created. simpl. by rewrite lookup_insert_eq.
Qed.

Lemma live_handle_inv w d :
  live_handle w = Some d →
  handle w = Some d ∧ ∃ f, drive w !! d = Some f ∧ isTrashed f = false.
Proof.
  unfold live_handle. destruct (handle w) as [d'|]; [|done].
  destruct (drive w !! d') as [f|] eqn:E; [|done].
  destruct (isTrashed f) eqn:T; [done|]. intros [= ->]. eauto.
Qed.

(** C6. [ensureConsolidatedDoc_] returns the persisted handle and changes
    nothing when that handle resolves to a document that is not trashed;
    in every other case (no handle, document trashed, lookup raising) it
    creates a new empty document under an id Drive did not hold, persists
    that id and returns it. A second call on the resulting world returns
    the same handle and leaves the world as it is: nothing is created
    again. *)
Theorem ensureConsolidatedDoc_spec (w : World) :
  ensureConsolidatedDoc_ w =
    match live_handle w with
    | Some d => Ok d w
    | None => Ok (new_id w) (created w)
    end
  ∧ drive w !! new_id w = None
  ∧ handle (created w) = Some (new_id w)
  ∧ drive (created w) !! new_id w = Some empty_doc
  ∧ ensureConsolidatedDoc_ (final_world (ensureConsolidatedDoc_ w))
    = ensureConsolidatedDoc_ w.
Proof.
  split; [apply ensure_eq|]. split; [apply new_id_fresh|].
  split; [done|]. split; [apply lookup_insert_eq|].
  rewrite (ensure_eq w).
  destruct (live_handle w) as [d|] eqn:E; simpl.
  - by rewrite ensure_eq, E.
  - by rewrite ensure_eq, live_created.
Qed.

(** ** Reset *)

(** C8. From any state [gtd_resetForReimport] sets the persisted
    watermark to the epoch start, removes the persisted recency set and
    keeps the persisted document handle and every document; run a second
    time it leaves the persisted state as the first run left it. *)
Theorem gtd_resetForReimport_spec (w : World) :
  ∃ w1 w2,
    gtd_resetForReimport w = Ok tt w1
    ∧ gtd_last_iso (props w1) = Some EPOCH
    ∧ watermark w1 = 0
    ∧ gtd_recent_ids (props w1) = None
    ∧ recency w1 = []
    ∧ handle w1 = handle w
    ∧ drive w1 = drive w
    ∧ gtd_resetForReimport w1 = Ok tt w2
    ∧ props w2 = props w1
    ∧ drive w2 = drive w1.
Proof.
  unfold gtd_resetForReimport. run.
  eexists _, _. repeat split; reflexivity.
Qed.

(** ** Frame conditions

    A relation between the world before and after a computation that is
    reflexive and transitive is kept by sequencing, by [try]/[catch] and
    by the loops, whether the computation returns or raises. *)


Section respects.
Context (R : relation World) `{!PreOrder R}.

Lemma respects_ret {A} (a : A) : respects R (mret a).
Proof. intros w. simpl. reflexivity. Qed.

Lemma respects_throw {A} e : respects R (@throw A e).
Proof. intros w. simpl. reflexivity. Qed.

Lemma respects_bind {A B} (m : M A) (k : A → M B) :
  respects R m → (∀ a, respects R (k a)) → respects R (m ≫= k).
Proof.
  intros Hm Hk w. specialize (Hm w).
  unfold mbind, M_bind, bind. destruct (m w) as [a w'|e w']; simpl in *.
  - etrans; [exact Hm|]. apply Hk.
  - done.
Qed.

Lemma respects_try {A} (m : M A) h :
  respects R m → (∀ e, respects R (h e)) → respects R (try_catch m h).
Proof.
  intros Hm Hh w. specialize (Hm w).
  unfold try_catch. destruct (m w) as [a w'|e w']; simpl in *.
  - done.
  - etrans; [exact Hm|]. apply Hh.
Qed.

Lemma respects_for_of {A} (l : list A) body :
  (∀ x, respects R (body x)) → respects R (for_of l body).
Proof.
  intros Hb. induction l as [|x l IH]; simpl.
  - apply respects_ret.
  - apply respects_bind; [apply Hb|]. by intros _.
Qed.

Lemma respects_for_down n body :
  (∀ i, respects R (body i)) → respects R (for_down n body).
Proof.
  intros Hb. induction n as [|n IH]; simpl.
  - apply respects_ret.
  - apply respects_bind; [apply Hb|]. by intros _.
Qed.

Lemma respects_for_of_with {A S} (l : list A) (s : S) body :
  (∀ x s, respects R (body x s)) → respects R (for_of_with l s body).
Proof.
  intros Hb. revert s. induction l as [|x l IH]; intros s; simpl.
  - apply respects_ret.
  - apply respects_bind; [apply Hb|]. intros s'. apply IH.
Qed.

Lemma respects_getFileById d : respects R (getFileById d).
Proof.
  intros w. unfold getFileById. destruct (drive w !! d); simpl; reflexivity.
Qed.

Lemma respects_getProperties : respects R getProperties.
Proof. intros w. simpl. reflexivity. Qed.
End respects.


#[global] Instance same_props_po : PreOrder same_props.
Proof. split; [by intros x|]. intros x y z. unfold same_props. congruence. Qed.
#[global] Instance log_grows_po : PreOrder log_grows.
Proof.
  split; [intros x; unfold log_grows; reflexivity|].
  intros x y z. unfold log_grows. intros ??. by etrans.
Qed.

Create HintDb frame.
#[global] Hint Resolve respects_ret respects_throw respects_getFileById
  respects_getProperties : frame.
#[global] Hint Extern 0 (PreOrder _) => apply _ : frame.
#[global] Hint Extern 2 (respects _ (_ ≫= _)) =>
  apply respects_bind; [apply _| |intros ?] : frame.
#[global] Hint Extern 2 (respects _ (try_catch _ _)) =>
  apply respects_try; [apply _| |intros ?] : frame.
#[global] Hint Extern 2 (respects _ (for_of _ _)) =>
  apply respects_for_of; [apply _|intros ?] : frame.
#[global] Hint Extern 2 (respects _ (for_down _ _)) =>
  apply respects_for_down; [apply _|intros ?] : frame.
#[global] Hint Extern 2 (respects _ (for_of_with _ _ _)) =>
  apply respects_for_of_with; [apply _|intros ? ?] : frame.
#[global] Hint Extern 3 (respects _ (match ?x with _ => _ end)) =>
  destruct x : frame.

Section document_frames.
Context (R : relation World) `{!PreOrder R}.
(** [R] is kept by storing a file, given it was there already or not. *)
Hypothesis R_put : ∀ w d f,
  R w {| props := props w; drive := <[d := f]> (drive w); logged := logged w |}.

Lemma respects_put_file d f : respects R (put_file d f).
Proof. intros w. apply R_put. Qed.

Lemma respects_new_doc body : respects R (new_doc body).
Proof. intros w. apply R_put. Qed.

Hint Resolve respects_put_file respects_new_doc : frame.

Lemma respects_append d el : respects R (append d el).
Proof. unfold append. auto with frame. Qed.

Lemma respects_insert0 env d el : respects R (insert0 env d el).
Proof. unfold insert0. auto 6 with frame. Qed.

Lemma respects_setTrashed d b : respects R (setTrashed d b).
Proof. unfold setTrashed. auto with frame. Qed.

Lemma respects_getChild d i : respects R (getChild d i).
Proof. unfold getChild. auto 6 with frame. Qed.

Lemma respects_getNumChildren d : respects R (getNumChildren d).
Proof. unfold getNumChildren. auto with frame. Qed.

Lemma respects_openById d : respects R (openById d).
Proof. unfold openById. auto with frame. Qed.

Hint Resolve respects_append respects_insert0 respects_setTrashed
  respects_getChild respects_getNumChildren respects_openById : frame.

Lemma respects_prependBatchPlain env messages d :
  respects R (prependBatchPlain env messages d).
Proof.
  unfold prependBatchPlain, DocumentApp_create, append_plain, copy_plain.
  auto 20 with frame.
Qed.

Lemma respects_prependMessageHtmlToDoc env msg d :
  respects R (prependMessageHtmlToDoc env msg d).
Proof.
  unfold prependMessageHtmlToDoc, convertHtmlToDoc, copy_html.
  auto 20 with frame.
Qed.
End document_frames.

Lemma log_grows_put w d f : log_grows w (with_file w d f).
Proof. unfold log_grows. done. Qed.

(** ** [prependBatchPlain] *)

Lemma append_ok w d f el :
  drive w !! d = Some f →
  append d el w
  = Ok tt (with_file w d {| isTrashed := isTrashed f;
                            children := children f ++ [el] |}).
Proof. intros H. unfold append. run. by rewrite H. Qed.

Lemma with_file_lookup w d f : drive (with_file w d f) !! d = Some f.
Proof. apply lookup_insert_eq. Qed.

Lemma with_file_lookup_ne w d d' f :
  d ≠ d' → drive (with_file w d f) !! d' = drive w !! d'.
Proof. intros. by apply lookup_insert_ne. Qed.

Lemma with_file_twice w d f f' :
  with_file (with_file w d f) d f' = with_file w d f'.
Proof. unfold with_file. simpl. by rewrite insert_insert_eq. Qed.

Lemma with_file_id w d f : drive w !! d = Some f → with_file w d f = w.
Proof.
  intros H. unfold with_file. rewrite insert_id by done. by destruct w.
Qed.


Lemma appends_ret d : appends d [] (mret tt).
Proof.
  intros w f H. rewrite app_nil_r.
  replace {| isTrashed := isTrashed f; children := children f |} with f
    by by destruct f.
  by rewrite with_file_id.
Qed.

Lemma appends_append d el : appends d [el] (append d el).
Proof. intros w f H. by apply append_ok. Qed.

Lemma appends_seq d els1 els2 m1 m2 :
  appends d els1 m1 → appends d els2 m2 → appends d (els1 ++ els2) (m1;; m2).
Proof.
  intros H1 H2 w f H.
  erewrite bind_ok; [|by apply H1].
  erewrite H2; [|apply with_file_lookup].
  by rewrite with_file_twice, app_assoc.
Qed.

Lemma appends_for_of {A} d (g : A → list Element) (l : list A) body :
  (∀ x, appends d (g x) (body x)) →
  appends d (concat (g <$> l)) (for_of l body).
Proof.
  intros Hb. induction l as [|x l IH]; simpl.
  - apply appends_ret.
  - by apply appends_seq.
Qed.

Lemma appends_append_plain env d msg :
  appends d (render_plain env msg) (append_plain env d msg).
Proof.
  unfold append_plain, render_plain.
  do 6 (apply (appends_seq d [_]); [apply appends_append|]).
  apply appends_seq.
  - replace (Paragraph NORMAL <$> split_lines (plain_text msg))
      with (concat ((λ l, [Paragraph NORMAL l]) <$> split_lines (plain_text msg))).
    + apply appends_for_of. intros x. apply appends_append.
    + induction (split_lines (plain_text msg)); simpl; [done|]. by f_equal.
  - apply (appends_seq d [_] [_]); apply appends_append.
Qed.

Lemma appends_batch env d (messages : list Item) :
  appends d (concat (render_plain env ∘ message <$> messages))
          (for_of messages (λ it, append_plain env d (message it))).
Proof. apply appends_for_of. intros it. apply appends_append_plain. Qed.

Lemma insert0_ok env w d f el :
  drive w !! d = Some f → insert_error env el = None →
  insert0 env d el w
  = Ok tt (with_file w d {| isTrashed := isTrashed f;
                            children := el :: children f |}).
Proof. intros H He. unfold insert0. run. by rewrite H, He. Qed.

Lemma insert0_throw env w d f el e :
  drive w !! d = Some f → insert_error env el = Some e →
  insert0 env d el w = Throw e w.
Proof. intros H He. unfold insert0. run. by rewrite H, He. Qed.

Lemma copy_plain_eq env d child :
  copy_plain env d child = insert0 env d (copied_plain child).
Proof. by destruct child. Qed.

Lemma getChild_ok w d f i c :
  drive w !! d = Some f → children f !! i = Some c →
  getChild d i w = Ok c w.
Proof. intros H Hc. unfold getChild. run. by rewrite H, Hc. Qed.

Lemma plain_copy_loop env tmp main ft n : ∀ w fm,
  tmp ≠ main →
  drive w !! tmp = Some ft →
  drive w !! main = Some fm →
  (n ≤ length (children ft))%nat →
  (∀ el, el ∈ take n (children ft) →
         insert_error env (copied_plain el) = None) →
  for_down n (λ i, child ← getChild tmp i; copy_plain env main child) w
  = Ok tt (with_file w main
      {| isTrashed := isTrashed fm;
         children := (copied_plain <$> take n (children ft)) ++ children fm |}).
Proof.
  induction n as [|n IH]; intros w fm Hne Ht Hm Hn Herr.
  - simpl.
    replace {| isTrashed := isTrashed fm; children := children fm |} with fm
      by by destruct fm.
    by rewrite with_file_id.
  - destruct (lookup_lt_is_Some_2 (children ft) n) as [c Hc]; [lia|].
    rewrite (take_S_r _ _ _ Hc) in *.
    simpl. erewrite bind_ok; cycle 1.
    { erewrite bind_ok; [|by eapply getChild_ok].
      rewrite copy_plain_eq. apply insert0_ok; [done|].
      apply Herr. apply elem_of_app. right. left. }
    erewrite IH; [|done|by rewrite with_file_lookup_ne
                  |apply with_file_lookup|lia
                  |intros; apply Herr, elem_of_app; by left].
    rewrite with_file_twice. simpl.
    by rewrite fmap_app, <- app_assoc.
Qed.

Lemma plain_batch_copied env (messages : list Item) :
  plain_batch env messages
  = copied_plain <$> concat (render_plain env ∘ message <$> messages).
Proof.
  unfold plain_batch.
  induction messages as [|m ms IH]; [done|].
  rewrite !fmap_cons, !concat_cons, fmap_app, IH. done.
Qed.

Lemma prependBatchPlain_ok env messages main w prior :
  drive w !! main = Some prior →
  (∀ el, el ∈ plain_batch env messages → insert_error env el = None) →
  let tmp := new_id w in
  let rendered := concat (render_plain env ∘ message <$> messages) in
  prependBatchPlain env messages main w
  = Ok tt (with_file
      (with_file
         (with_file w tmp {| isTrashed := false; children := rendered |})
         main {| isTrashed := isTrashed prior;
                 children := plain_batch env messages ++ children prior |})
      tmp {| isTrashed := true; children := rendered |}).
Proof.
  intros Hm Herr tmp rendered.
  assert (tmp ≠ main) as Hne.
  { intros E. pose proof (new_id_fresh w) as Hf. fold tmp in Hf. congruence. }
  assert (plain_batch env messages = copied_plain <$> rendered) as Hpb.
  { apply plain_batch_copied. }
  unfold prependBatchPlain.
  erewrite bind_ok; [|unfold openById; erewrite bind_ok; [done|]; run; by rewrite Hm].
  erewrite bind_ok; [|reflexivity].
  fold (new_id w). fold tmp.
  change {| props := props w; drive := <[tmp := _]> (drive w); logged := logged w |}
    with (with_file w tmp empty_doc).
  erewrite bind_ok; [|apply appends_batch, with_file_lookup].
  rewrite with_file_twice. simpl. fold rendered.
  erewrite bind_ok; [|unfold getNumChildren; run; by rewrite lookup_insert_eq].
  simpl.
  erewrite bind_ok; cycle 1.
  { apply plain_copy_loop with (ft := {| isTrashed := false; children := rendered |})
                               (fm := prior);
      [done|apply with_file_lookup|by rewrite with_file_lookup_ne|done|].
    simpl. rewrite firstn_all. intros el Hel. apply Herr.
    rewrite Hpb. by apply list_elem_of_fmap_2. }
  simpl. rewrite firstn_all, <- Hpb.
  unfold setTrashed.
  erewrite bind_ok; cycle 1.
  { run. rewrite lookup_insert_ne by done. by rewrite lookup_insert_eq. }
  done.
Qed.

Lemma plain_copy_loop_throw env tmp main ft n : ∀ w fm,
  tmp ≠ main →
  drive w !! tmp = Some ft →
  drive w !! main = Some fm →
  (n ≤ length (children ft))%nat →
  (∃ el, el ∈ take n (children ft)
         ∧ insert_error env (copied_plain el) ≠ None) →
  ∃ e w',
    for_down n (λ i, child ← getChild tmp i; copy_plain env main child) w
    = Throw e w'.
Proof.
  induction n as [|n IH]; intros w fm Hne Ht Hm Hn (el & Hel & Herr).
  - by apply elem_of_nil in Hel.
  - destruct (lookup_lt_is_Some_2 (children ft) n) as [c Hc]; [lia|].
    rewrite (take_S_r _ _ _ Hc) in Hel. simpl.
    destruct (insert_error env (copied_plain c)) as [e|] eqn:Ec.
    + exists e, w. erewrite bind_throw; [done|].
      erewrite bind_ok; [|by eapply getChild_ok].
      rewrite copy_plain_eq. by eapply insert0_throw.
    + erewrite bind_ok; cycle 1.
      { erewrite bind_ok; [|by eapply getChild_ok].
        rewrite copy_plain_eq. by apply insert0_ok. }
      eapply IH; [done|by rewrite with_file_lookup_ne
                 |apply with_file_lookup|lia|].
      exists el. split; [|done].
      apply elem_of_app in Hel as [?|Hel]; [done|].
      apply list_elem_of_singleton in Hel as ->. congruence.
Qed.

(** Without per-message isolation: one insertion that raises makes
    [prependBatchPlain] raise. *)
Lemma prependBatchPlain_throw env messages main w prior el :
  drive w !! main = Some prior →
  el ∈ plain_batch env messages →
  insert_error env el ≠ None →
  ∃ e w', prependBatchPlain env messages main w = Throw e w'.
Proof.
  intros Hm Hel Herr.
  assert (new_id w ≠ main) as Hne.
  { intros E. pose proof (new_id_fresh w) as Hf. congruence. }
  rewrite plain_batch_copied in Hel.
  apply list_elem_of_fmap in Hel as (c & -> & Hc).
  unfold prependBatchPlain.
  erewrite bind_ok; [|unfold openById; erewrite bind_ok; [done|]; run; by rewrite Hm].
  erewrite bind_ok; [|reflexivity].
  fold (new_id w).
  change {| props := props w; drive := <[new_id w := _]> (drive w);
            logged := logged w |}
    with (with_file w (new_id w) empty_doc).
  erewrite bind_ok; [|apply appends_batch, with_file_lookup].
  rewrite with_file_twice. simpl.
  erewrite bind_ok; [|unfold getNumChildren; run; by rewrite lookup_insert_eq].
  simpl.
  edestruct (plain_copy_loop_throw env (new_id w) main
    {| isTrashed := false;
       children := concat (render_plain env ∘ message <$> messages) |})
    as (e & w' & Hthrow);
    [done|apply with_file_lookup|by rewrite with_file_lookup_ne|done| |].
  { simpl. rewrite firstn_all. eauto. }
  exists e, w'. by erewrite bind_throw.
Qed.

(** ** The run: gathering *)

#[global] Instance same_state_po : PreOrder same_state.
Proof.
  split; [by intros x|]. intros x y z [??] [??]. split; congruence.
Qed.

Lemma ensure_eq' w :
  ensureConsolidatedDoc_ w = Ok (destination w) (ensured w).
Proof.
  rewrite ensure_eq. unfold destination, ensured.
  by destruct (live_handle w).
Qed.

Lemma ensured_state w : same_state w (ensured w).
Proof. unfold ensured. by destruct (live_handle w). Qed.

Lemma ensured_watermark w : watermark (ensured w) = watermark w.
Proof. unfold watermark. by rewrite (proj1 (ensured_state w)). Qed.

Lemma ensured_recency w : recency (ensured w) = recency w.
Proof. unfold recency. by rewrite (proj2 (ensured_state w)). Qed.

Lemma destination_live w :
  ∃ f, drive (ensured w) !! destination w = Some f
       ∧ handle (ensured w) = Some (destination w).
Proof.
  unfold ensured, destination.
  destruct (live_handle w) as [d|] eqn:E.
  - apply live_handle_inv in E as (? & f & ? & ?). eauto.
  - exists empty_doc. split; [apply lookup_insert_eq|done].
Qed.

Lemma gather_eq env w :
  ∃ extra,
    gather env w
    = Ok (gathered env w)
         {| props := props (ensured w); drive := drive (ensured w);
            logged := logged (ensured w) ++ extra |}.
Proof.
  unfold gather.
  erewrite bind_ok; [|reflexivity].
  erewrite bind_ok; [|apply ensure_eq'].
  erewrite bind_ok; [|reflexivity].
  fold (recency (ensured w)). rewrite ensured_recency.
  fold (watermark w). fold (scan env). fold (batch env w).
  unfold gathered.
  destruct (batch env w) as [|first rest]; run;
    rewrite <- ?app_assoc; eexists; reflexivity.
Qed.

Lemma gather_world env w :
  props (final_world (gather env w)) = props (ensured w)
  ∧ drive (final_world (gather env w)) = drive (ensured w)
  ∧ logged (ensured w) `prefix_of` logged (final_world (gather env w)).
Proof.
  destruct (gather_eq env w) as [extra ->]. simpl.
  repeat split. by apply prefix_app_r.
Qed.

Lemma insertion_start_world env w :
  props (insertion_start env w) = props (ensured w)
  ∧ drive (insertion_start env w) = drive (ensured w).
Proof.
  unfold insertion_start. simpl.
  destruct (gather_world env w) as (-> & -> & _). done.
Qed.

(** ** The run: the [doc_html] loop *)

Lemma html_props env msg d :
  respects same_props (prependMessageHtmlToDoc env msg d).
Proof. apply respects_prependMessageHtmlToDoc; [apply _|]. by intros. Qed.

Lemma html_log env msg d :
  respects log_grows (prependMessageHtmlToDoc env msg d).
Proof.
  apply respects_prependMessageHtmlToDoc; [apply _|].
  intros. apply (log_grows_put _ d0 f).
Qed.

Lemma plain_props env messages d :
  respects same_props (prependBatchPlain env messages d).
Proof. apply respects_prependBatchPlain; [apply _|]. by intros. Qed.

Lemma max_step (a b : Z) : (if decide (a > b) then a else b) = Z.max b a.
Proof. case_decide; lia. Qed.

Lemma succeeded_cons_ok it tr : succeeded ((it, None) :: tr) = it :: succeeded tr.
Proof. done. Qed.
Lemma succeeded_cons_err it e tr : succeeded ((it, Some e) :: tr) = succeeded tr.
Proof. done. Qed.

Lemma html_step_ok env doc it l w u w1 :
  prependMessageHtmlToDoc env (message it) doc w = Ok u w1 →
  html_step env doc it l w
  = Ok {| recent := JsSet.add (recent l) (id it);
          newestSeen := Z.max (newestSeen l) (date it) |} w1.
Proof.
  intros H. unfold html_step. erewrite try_ok; [done|].
  erewrite bind_ok; [|exact H]. by rewrite max_step.
Qed.

Lemma html_step_err env doc it l w e w1 :
  prependMessageHtmlToDoc env (message it) doc w = Throw e w1 →
  html_step env doc it l w
  = Ok l (final_world (Logger_log (LogError (getSubject (message it)) e) w1)).
Proof.
  intros H. unfold html_step. erewrite try_throw; [done|].
  by erewrite bind_throw.
Qed.

Lemma html_loop_spec env doc items : ∀ l w,
  let tr := html_trace env doc items w in
  ∃ l' w',
    html_loop env doc items l w = Ok l' w'
    ∧ recent l' = foldl JsSet.add (recent l) (id <$> succeeded tr)
    ∧ newestSeen l' = max_date (newestSeen l) (succeeded tr)
    ∧ props w' = props w
    ∧ logged w `prefix_of` logged w'
    ∧ ∀ it e, (it, Some e) ∈ tr →
              LogError (getSubject (message it)) e ∈ logged w'.
Proof.
  induction items as [|it items IH]; intros l w tr.
  - exists l, w. repeat split; try done. subst tr. simpl.
    intros it e H. by apply elem_of_nil in H.
  - subst tr. unfold html_loop in *. simpl.
    pose proof (html_props env (message it) doc w) as Hp.
    pose proof (html_log env (message it) doc w) as Hl.
    destruct (prependMessageHtmlToDoc env (message it) doc w)
      as [[] w1|e w1] eqn:E; simpl in Hp, Hl.
    + erewrite bind_ok; [|by eapply html_step_ok].
      edestruct IH as (l' & w' & -> & Hr & Hn & Hpr & Hlog & Herr).
      exists l', w'. rewrite succeeded_cons_ok. simpl in *.
      split; [done|]. split; [done|].
      split; [done|].
      split; [by rewrite Hpr|]. split; [by etrans|].
      intros it' e' [[=]|Hin]%elem_of_cons. eauto.
    + erewrite bind_ok; [|by eapply html_step_err].
      edestruct IH as (l' & w' & -> & Hr & Hn & Hpr & Hlog & Herr).
      exists l', w'. rewrite succeeded_cons_err. simpl in *.
      split; [done|]. split; [done|]. split; [done|].
      split; [by rewrite Hpr|].
      split; [etrans; [exact Hl|]; etrans; [|exact Hlog]; by apply prefix_app_r|].
      intros it' e' [[= -> ->]|Hin]%elem_of_cons; [|eauto].
      eapply elem_of_prefix; [|exact Hlog]. apply elem_of_app. right. left.
Qed.

(** ** The run: processing and persisting *)

Lemma max_date_cons W y l : max_date W (y :: l) = max_date (Z.max W (date y)) l.
Proof. reflexivity. Qed.

Lemma max_date_ge W l : W <= max_date W l.
Proof.
  revert W. induction l as [|x l IH]; intros W; [cbn; lia|].
  rewrite max_date_cons. etrans; [|apply IH]. lia.
Qed.

Lemma max_date_upper W l x : x ∈ l → date x <= max_date W l.
Proof.
  revert W. induction l as [|y l IH]; intros W Hx.
  - by apply elem_of_nil in Hx.
  - rewrite max_date_cons.
    apply elem_of_cons in Hx as [->|Hx]; [|by apply IH].
    etrans; [|apply (max_date_ge _ l)]. lia.
Qed.

Lemma max_date_attained W l :
  max_date W l = W ∨ ∃ x, x ∈ l ∧ max_date W l = date x.
Proof.
  revert W. induction l as [|y l IH]; intros W; [by left|].
  rewrite max_date_cons.
  destruct (IH (Z.max W (date y))) as [E|(x & Hx & E)]; rewrite E.
  - destruct (Z.max_spec W (date y)) as [[_ ->]|[_ ->]]; [|by left].
    right. exists y. split; [left|done].
  - right. exists x. split; [by right|done].
Qed.

Lemma batch_new env w it :
  it ∈ batch env w →
  ∃ m, m ∈ scanned (scan env) ∧ it = item_of m
       ∧ is_new (watermark w) (recency w) m.
Proof.
  intros Hin. unfold batch in Hin. rewrite select_perm in Hin.
  apply list_elem_of_fmap in Hin as (m & -> & Hm).
  apply list_elem_of_filter in Hm as [??]. eauto.
Qed.

Lemma batch_date env w it : it ∈ batch env w → watermark w < date it.
Proof. intros (m & _ & -> & [? _])%batch_new. simpl. lia. Qed.

Lemma batch_head_max env w first rest :
  batch env w = first :: rest →
  max_date (watermark w) (batch env w) = date first.
Proof.
  intros E.
  assert (∀ y, y ∈ batch env w → date y <= date first) as Hle.
  { intros y Hy. unfold batch, select in *.
    eapply (js_sort_head date); [exact E|].
    by rewrite <- (js_sort_perm date). }
  assert (first ∈ batch env w) as Hf by (rewrite E; left).
  pose proof (batch_date _ _ _ Hf).
  pose proof (max_date_upper (watermark w) _ _ Hf).
  destruct (max_date_attained (watermark w) (batch env w))
    as [Em|(x & Hx & Em)]; rewrite Em in *.
  - lia.
  - specialize (Hle _ Hx). lia.
Qed.

Lemma persist_eq l w :
  persist l w
  = Ok tt {| props := {| gtd_last_iso := Some (newestSeen l);
                         gtd_consolidated_doc_id := handle w;
                         gtd_recent_ids :=
                           Some (slice_last RECENT_IDS_LIMIT (recent l)) |};
             drive := drive w;
             logged := logged w ++ [LogUpdated (newestSeen l) (JsSet.size (recent l))] |}.
Proof. reflexivity. Qed.

Lemma process_start env w :
  process env (gathered env w) (final_world (gather env w))
  = if decide (OUTPUT_MODE env = "doc_plain") then
      (prependBatchPlain env (batch env w) (destination w);;
       match batch env w with
       | first :: _ =>
         mret {| recent := foldl JsSet.add (recency w) (id <$> batch env w);
                 newestSeen := date first |}
       | [] => throw undefined_date
       end) (insertion_start env w)
    else if decide (OUTPUT_MODE env = "doc_html") then
      html_loop env (destination w) (batch env w)
                {| recent := recency w; newestSeen := watermark w |}
                (insertion_start env w)
    else Throw ("Error: Unknown OUTPUT_MODE: " +:+ OUTPUT_MODE env)
               (final_world (gather env w)).
Proof.
  unfold process, insertion_start. simpl.
  repeat case_decide; try done; by erewrite bind_ok.
Qed.

(** What a run that selected something leaves behind: either it reaches
    "Persist state", or it is aborted by an exception and then leaves
    the properties as [ensureConsolidatedDoc_] left them. *)
Lemma run_selected env w :
  batch env w ≠ [] →
  let r := processMessagesToDoc env w in
  (r = Ok tt (final_world r)
   ∧ props (final_world r) = committed env w)
  ∨ (is_ok r = false
     ∧ props (final_world r) = props (ensured w)
     ∧ inserted env w = []
     ∧ OUTPUT_MODE env ≠ "doc_html").
Proof.
  intros Hb r. subst r. unfold processMessagesToDoc.
  destruct (gather_eq env w) as [extra Hg].
  pose proof (process_start env w) as Hp. rewrite Hg in Hp. simpl in Hp.
  erewrite bind_ok; [|exact Hg]. simpl.
  destruct (batch env w) as [|first rest] eqn:Eb; [done|]. clear Hb.
  destruct (insertion_start_world env w) as [Hprops Hdrive].
  destruct (destination_live w) as (fd & Hfd & Hh).
  unfold committed, inserted. rewrite Eb in *.
  destruct (decide (OUTPUT_MODE env = "doc_plain")) as [Hm|Hm].
  - pose proof (plain_props env (first :: rest) (destination w)
                  (insertion_start env w)) as Hpp.
    destruct (prependBatchPlain env (first :: rest) (destination w)
                (insertion_start env w)) as [[] w2|e w2] eqn:E;
      unfold same_props in Hpp; cbn [final_world] in Hpp.
    + left. erewrite bind_ok in Hp; [|exact E]. simpl in Hp.
      erewrite bind_ok; [|exact Hp]. rewrite persist_eq. simpl.
      split; [done|]. unfold handle. rewrite Hpp, Hprops.
      fold (handle (ensured w)). rewrite Hh.
      pose proof (batch_head_max _ _ _ _ Eb) as Hmax. rewrite Eb in Hmax.
      by rewrite Hmax.
    + right. erewrite bind_throw in Hp; [|exact E].
      erewrite bind_throw; [|exact Hp]. simpl.
      rewrite Hpp, Hprops. repeat split; try done. by rewrite Hm.
  - destruct (decide (OUTPUT_MODE env = "doc_html")) as [Hh'|Hh'].
    + left.
      destruct (html_loop_spec env (destination w) (first :: rest)
                  {| recent := recency w; newestSeen := watermark w |}
                  (insertion_start env w))
        as (l' & w' & Hloop & Hr & Hn & Hpr & _).
      rewrite Hloop in Hp. erewrite bind_ok; [|exact Hp].
      rewrite persist_eq. simpl. split; [done|].
      unfold handle. rewrite Hpr, Hprops. fold (handle (ensured w)).
      rewrite Hh, Hr, Hn. unfold run_trace. by rewrite Eb.
    + right. erewrite bind_throw; [|exact Hp]. simpl.
      destruct (gather_world env w) as (Hgp & _). rewrite Hg in Hgp.
      done.
Qed.

Lemma run_empty env w :
  batch env w = [] →
  ∃ extra,
    processMessagesToDoc env w
    = Ok tt {| props := props (ensured w); drive := drive (ensured w);
               logged := logged (ensured w) ++ extra |}.
Proof.
  intros Hb. unfold processMessagesToDoc.
  destruct (gather_eq env w) as [extra Hg].
  erewrite bind_ok; [|exact Hg]. simpl. rewrite Hb.
  exists (extra ++ [LogNoNew]). run. by rewrite app_assoc.
Qed.

(** ** What a run inserts *)

Lemma html_trace_items env doc items : ∀ w,
  fst <$> html_trace env doc items w = items.
Proof.
  induction items as [|it items IH]; intros w; simpl; [done|].
  destruct (prependMessageHtmlToDoc env (message it) doc w);
    simpl; by rewrite IH.
Qed.

Lemma succeeded_sub tr x : x ∈ succeeded tr → x ∈ fst <$> tr.
Proof.
  unfold succeeded. intros ([y o] & -> & Hy)%list_elem_of_fmap.
  apply list_elem_of_filter in Hy as [_ Hy].
  apply list_elem_of_fmap. by exists (y, o).
Qed.

Lemma inserted_sub env w x : x ∈ inserted env w → x ∈ batch env w.
Proof.
  unfold inserted. repeat case_decide.
  - destruct (is_ok _); [done|]. by intros ?%elem_of_nil.
  - intros Hx%succeeded_sub. unfold run_trace in Hx.
    by rewrite html_trace_items in Hx.
  - by intros ?%elem_of_nil.
Qed.

Lemma run_state env w :
  let w' := final_world (processMessagesToDoc env w) in
  match inserted env w with
  | [] => watermark w' = watermark w
  | _ :: _ => processMessagesToDoc env w = Ok tt w'
              ∧ props w' = committed env w
  end.
Proof.
  intros w'. subst w'.
  destruct (decide (batch env w = [])) as [Hb|Hb].
  - assert (inserted env w = []) as ->.
    { destruct (inserted env w) as [|x l] eqn:E; [done|].
      assert (x ∈ batch env w) as Hx by (apply inserted_sub; rewrite E; left).
      rewrite Hb in Hx. by apply elem_of_nil in Hx. }
    destruct (run_empty env w Hb) as [extra ->]. simpl.
    unfold watermark. simpl. fold (watermark (ensured w)).
    apply ensured_watermark.
  - destruct (run_selected env w Hb) as [[Hr Hp]|(Hr & Hp & Hi & _)].
    + destruct (inserted env w) eqn:E; [|done].
      unfold watermark. rewrite Hp. unfold committed. rewrite E. done.
    + rewrite Hi. unfold watermark. rewrite Hp.
      fold (watermark (ensured w)). apply ensured_watermark.
Qed.

(** ** Watermark *)

(** The scenario of the specification, from a blank store in
    [doc_plain] mode: the three messages are inserted, the watermark is
    the newest timestamp and the recency set holds the three identifiers.
    In [doc_html] mode with the conversion failing for the newest message,
    the watermark is the newest timestamp among the other two. *)
Example run_scenario :
  let plain := sample_env "doc_plain" [[msg_a; msg_b]; [msg_c]] in
  let html := sample_env "doc_html" [[msg_a; msg_b]; [msg_c]] in
  id <$> inserted plain blank = ["b"; "c"; "a"]
  ∧ props (final_world (processMessagesToDoc plain blank))
    = {| gtd_last_iso := Some 30; gtd_consolidated_doc_id := Some 1%positive;
         gtd_recent_ids := Some ["b"; "c"; "a"] |}
  ∧ id <$> inserted html blank = ["c"; "a"]
  ∧ props (final_world (processMessagesToDoc html blank))
    = {| gtd_last_iso := Some 20; gtd_consolidated_doc_id := Some 1%positive;
         gtd_recent_ids := Some ["c"; "a"] |}.
Proof. by vm_compute. Qed.

(** ** A run that selects nothing *)

Lemma created_keeps w d f :
  drive w !! d = Some f → drive (created w) !! d = Some f.
Proof.
  intros H. unfold created. simpl. rewrite lookup_insert_ne; [done|].
  intros E. pose proof (new_id_fresh w). congruence.
Qed.

(** C5, as the code has it. When zero messages are selected the run
    returns; the persisted watermark and recency set are unchanged and
    every document that existed is left as it was. The persisted document
    handle and Drive are unchanged as well when the handle resolves to a
    document that is not trashed; otherwise [ensureConsolidatedDoc_],
    which runs before the selection, has created a new empty document and
    persisted its handle. *)
Theorem no_selection_spec env w :
  batch env w = [] →
  ∃ w', processMessagesToDoc env w = Ok tt w'
    ∧ gtd_last_iso (props w') = gtd_last_iso (props w)
    ∧ gtd_recent_ids (props w') = gtd_recent_ids (props w)
    ∧ (∀ d f, drive w !! d = Some f → drive w' !! d = Some f)
    ∧ match live_handle w with
      | Some d => props w' = props w ∧ drive w' = drive w
      | None => handle w' = Some (new_id w)
                ∧ drive w' = <[new_id w := empty_doc]> (drive w)
      end.
Proof.
  intros Hb. destruct (run_empty env w Hb) as [extra ->].
  eexists. split; [done|]. simpl.
  destruct (ensured_state w) as [H1 H2].
  split; [done|]. split; [done|].
  unfold ensured. destruct (live_handle w); [done|].
  split; [|done]. intros d f. apply created_keeps.
Qed.

Lemma no_selection_spec_witness :
  batch (sample_env "doc_plain" []) blank = []
  ∧ ∃ w', processMessagesToDoc (sample_env "doc_plain" []) blank = Ok tt w'
          ∧ gtd_last_iso (props w') = None
          ∧ gtd_recent_ids (props w') = None.
Proof.
  split; [reflexivity|].
  destruct (no_selection_spec (sample_env "doc_plain" []) blank)
    as (w' & Hr & H1 & H2 & _); [reflexivity|].
  exists w'. auto.
Defined.

(** C5 as stated fails for the document handle: on a store without a
    handle and a mailbox without messages, the run selects nothing and
    yet persists the handle of a document it has created. *)
Lemma no_selection_creates_document :
  batch (sample_env "doc_plain" []) blank = []
  ∧ handle blank = None
  ∧ handle (final_world (processMessagesToDoc (sample_env "doc_plain" []) blank))
    = Some 1%positive
  ∧ handle (final_world (processMessagesToDoc (sample_env "doc_plain" []) blank))
    ≠ handle blank
  ∧ drive blank !! 1%positive = None
  ∧ drive (final_world (processMessagesToDoc (sample_env "doc_plain" []) blank))
      !! 1%positive = Some empty_doc.
Proof. vm_compute. done. Qed.

(** ** The per-run cap *)

Lemma totalMsgsSeen_length (ts : list Thread) :
  totalMsgsSeen ts = length (scanned ts).
Proof.
  unfold totalMsgsSeen, scanned.
  enough (∀ n, foldl (λ n t, (n + length t)%nat) n ts
               = (n + length (concat ts))%nat) as H by apply (H 0%nat).
  induction ts as [|t ts IH]; intros n; simpl; [lia|].
  rewrite IH, length_app. lia.
Qed.

(** C9, as the code has it. The cap bounds the threads of one scan, not
    its messages: a run scans the first [MAX_MESSAGES_PER_RUN] threads
    carrying the label, considers every message of those threads, and
    selects every new message among them; the eligible set is not
    truncated. *)
Theorem scan_cap_spec env w :
  ∃ w1, gather env w = Ok (gathered env w) w1
    ∧ threads (gathered env w) = take MAX_MESSAGES_PER_RUN (labelled env)
    ∧ (length (threads (gathered env w)) ≤ MAX_MESSAGES_PER_RUN)%nat
    ∧ totalMsgsSeen (threads (gathered env w))
      = length (scanned (threads (gathered env w)))
    ∧ newMessages (gathered env w)
      ≡ₚ item_of <$> filter (is_new (watermark w) (recency w))
                            (scanned (threads (gathered env w))).
Proof.
  destruct (gather_eq env w) as [extra Hg]. eexists. split; [exact Hg|].
  simpl. split; [done|].
  split; [unfold scan, search; rewrite length_take; lia|].
  split; [apply totalMsgsSeen_length|].
  apply select_perm.
Qed.

(** C9 as stated fails: from three threads of 67 messages each, one run
    considers, and selects, 201 messages. *)
Lemma scan_exceeds_message_cap :
  length (labelled (sample_env "doc_plain" big_mailbox)) = 3%nat
  ∧ totalMsgsSeen (scan (sample_env "doc_plain" big_mailbox)) = 201%nat
  ∧ length (batch (sample_env "doc_plain" big_mailbox) blank) = 201%nat
  ∧ ¬ (totalMsgsSeen (scan (sample_env "doc_plain" big_mailbox))
       ≤ MAX_MESSAGES_PER_RUN)%nat.
Proof.
  split; [reflexivity|]. split; [by vm_compute|]. split; [by vm_compute|].
  replace (totalMsgsSeen (scan (sample_env "doc_plain" big_mailbox)))
    with 201%nat by by vm_compute.
  unfold MAX_MESSAGES_PER_RUN. lia.
Qed.

(** ** The recency set *)

Lemma slice_last_length {A} n (l : list A) : (length (slice_last n l) ≤ n)%nat.
Proof. unfold slice_last. rewrite length_drop. lia. Qed.

Lemma slice_last_suffix {A} n (l : list A) :
  l = take (length l - n) l ++ slice_last n l.
Proof. unfold slice_last. by rewrite take_drop. Qed.

Lemma slice_last_sub {A} n (l : list A) x : x ∈ slice_last n l → x ∈ l.
Proof.
  intros H. rewrite (slice_last_suffix n l). apply elem_of_app. by right.
Qed.

Lemma slice_last_tail {A} n (l1 l2 : list A) x :
  (length l2 ≤ n)%nat → x ∈ l2 → x ∈ slice_last n (l1 ++ l2).
Proof.
  intros Hn (j & Hj)%list_elem_of_lookup.
  pose proof (lookup_lt_Some _ _ _ Hj) as Hlt.
  unfold slice_last. apply list_elem_of_lookup.
  exists (length l1 + j - (length (l1 ++ l2) - n))%nat.
  rewrite lookup_drop, length_app.
  replace (length l1 + length l2 - n
           + (length l1 + j - (length l1 + length l2 - n)))%nat
    with (length l1 + j)%nat by lia.
  by rewrite lookup_app_r, Nat.add_comm, Nat.add_sub by lia.
Qed.

Lemma add_cases s x : JsSet.add s x = s ∧ x ∈ s ∨ JsSet.add s x = s ++ [x] ∧ x ∉ s.
Proof.
  unfold JsSet.add, JsSet.has. case_bool_decide; [by left|by right].
Qed.

(** Adding identifiers extends the set at its end, by no more entries
    than were added, and every added identifier is then a member. *)
Lemma add_all (ids : list string) : ∀ R,
  ∃ D, foldl JsSet.add R ids = R ++ D
       ∧ (length D ≤ length ids)%nat
       ∧ (∀ x, x ∈ D → x ∈ ids)
       ∧ ∀ x, x ∈ ids → x ∈ R ∨ x ∈ D.
Proof.
  induction ids as [|y ids IH]; intros R; simpl.
  - exists []. rewrite app_nil_r. repeat split; [done..|].
    intros x Hx. by apply elem_of_nil in Hx.
  - destruct (add_cases R y) as [[-> Hy]|[-> Hy]].
    + destruct (IH R) as (D & -> & Hl & Hsub & Hin).
      exists D. split; [done|]. split; [lia|].
      split; [intros x Hx; right; by apply Hsub|]. intros x Hx.
      apply elem_of_cons in Hx as [->|Hx]; [by left|by apply Hin].
    + destruct (IH (R ++ [y])) as (D & -> & Hl & Hsub & Hin).
      exists (y :: D). rewrite <- app_assoc. split; [done|].
      split; [simpl; lia|]. split.
      * intros x Hx. apply elem_of_cons in Hx as [->|Hx]; [left|].
        right. by apply Hsub.
      * intros x Hx. apply elem_of_cons in Hx as [->|Hx]; [right; left|].
        destruct (Hin x Hx) as [Hx'|Hx']; [|right; by right].
        apply elem_of_app in Hx' as [Hx'|Hx']; [by left|].
        apply list_elem_of_singleton in Hx' as ->. right. left.
Qed.

#[global] Instance same_guard_po : PreOrder same_guard.
Proof.
  split; [by intros x|]. intros x y z [??] [??]. split; congruence.
Qed.

Lemma ensure_guard : respects same_guard ensureConsolidatedDoc_.
Proof.
  intros w. rewrite ensure_eq'. simpl. split.
  - apply ensured_watermark.
  - apply ensured_state.
Qed.

Lemma init_guard : respects same_guard gtd_init.
Proof.
  intros w. unfold gtd_init.
  erewrite bind_ok; [|reflexivity].
  destruct (gtd_last_iso (props w)) as [t|] eqn:E.
  - erewrite bind_ok; [|reflexivity].
    erewrite bind_ok; [|apply ensure_eq']. simpl.
    split; [apply ensured_watermark|apply ensured_state].
  - erewrite bind_ok; [|reflexivity].
    erewrite bind_ok; [|apply ensure_eq']. simpl.
    split.
    + unfold watermark. simpl. rewrite (proj1 (ensured_state _)). simpl.
      by rewrite E.
    + simpl. by rewrite (proj2 (ensured_state _)).
Qed.

Lemma inserted_fresh env w x : x ∈ inserted env w → id x ∉ recency w.
Proof.
  intros (m & _ & -> & [_ ?])%inserted_sub%batch_new. done.
Qed.

(** C7, as the code has it. The persisted recency set stays within
    [RECENT_IDS_LIMIT] under every operation. After a run that inserted
    messages it is the last [RECENT_IDS_LIMIT] entries of the set that was
    read, extended in insertion order by the identifiers of the inserted
    messages: the oldest entries are the ones evicted. It holds the
    identifier of every inserted message when the run inserted at most
    [RECENT_IDS_LIMIT] messages. *)
Theorem recent_ids_spec env w :
  (length (persisted_ids w) ≤ RECENT_IDS_LIMIT)%nat →
  let w' := final_world (processMessagesToDoc env w) in
  (length (persisted_ids w') ≤ RECENT_IDS_LIMIT)%nat
  ∧ (length (persisted_ids (final_world (gtd_init w))) ≤ RECENT_IDS_LIMIT)%nat
  ∧ (length (persisted_ids (final_world (ensureConsolidatedDoc_ w)))
     ≤ RECENT_IDS_LIMIT)%nat
  ∧ persisted_ids (final_world (gtd_resetForReimport w)) = []
  ∧ match inserted env w with
    | [] => True
    | _ :: _ =>
      let all := foldl JsSet.add (recency w) (id <$> inserted env w) in
      persisted_ids w' = slice_last RECENT_IDS_LIMIT all
      ∧ (∃ evicted, all = evicted ++ persisted_ids w')
      ∧ ((length (inserted env w) ≤ RECENT_IDS_LIMIT)%nat →
         ∀ x, x ∈ inserted env w → id x ∈ persisted_ids w')
    end.
Proof.
  intros Hinv w'.
  assert (∀ w2, same_guard w w2 →
                (length (persisted_ids w2) ≤ RECENT_IDS_LIMIT)%nat) as Hkeep.
  { intros w2 [_ H2]. unfold persisted_ids in *. by rewrite H2. }
  assert (length (persisted_ids w') ≤ RECENT_IDS_LIMIT)%nat as Hrun.
  { subst w'. destruct (decide (batch env w = [])) as [Hb|Hb].
    - destruct (run_empty env w Hb) as [extra ->]. simpl.
      unfold persisted_ids in *. simpl. by rewrite (proj2 (ensured_state w)).
    - destruct (run_selected env w Hb) as [[_ Hp]|(_ & Hp & _)];
        unfold persisted_ids in *; rewrite Hp.
      + apply slice_last_length.
      + by rewrite (proj2 (ensured_state w)). }
  split; [done|].
  split; [apply Hkeep, init_guard|].
  split; [apply Hkeep, ensure_guard|].
  split; [done|].
  pose proof (run_state env w) as Hs. fold w' in Hs. simpl in Hs.
  destruct (inserted env w) as [|x l] eqn:E; [done|].
  destruct Hs as [_ Hp]. rewrite <- E in *.
  assert (persisted_ids w'
          = slice_last RECENT_IDS_LIMIT
              (foldl JsSet.add (recency w) (id <$> inserted env w))) as Hpers.
  { unfold persisted_ids. by rewrite Hp. }
  simpl. split; [done|]. split.
  - rewrite Hpers. eexists. apply slice_last_suffix.
  - intros Hlen y Hy. rewrite Hpers.
    destruct (add_all (id <$> inserted env w) (recency w))
      as (D & -> & Hl & _ & Hin).
    apply slice_last_tail.
    + rewrite length_fmap in Hl. lia.
    + destruct (Hin (id y)) as [Hr|?]; [by apply list_elem_of_fmap_2| |done].
      by apply inserted_fresh in Hy.
Qed.

Lemma recent_ids_spec_witness :
  (length (persisted_ids blank) ≤ RECENT_IDS_LIMIT)%nat
  ∧ persisted_ids
      (final_world
         (processMessagesToDoc (sample_env "doc_html" [[msg_a; msg_b]; [msg_c]])
                               blank))
    = ["c"; "a"].
Proof.
  split; [cbn; lia|].
  pose proof (recent_ids_spec (sample_env "doc_html" [[msg_a; msg_b]; [msg_c]])
                blank ltac:(cbn; lia)) as (_ & _ & _ & _ & H).
  replace (inserted (sample_env "doc_html" [[msg_a; msg_b]; [msg_c]]) blank)
    with [item_of msg_c; item_of msg_a] in H by by vm_compute.
  destruct H as [-> _]. by vm_compute.
Defined.

(** C7 as stated fails: a run that inserts 201 messages persists 200
    identifiers, and the identifier of the newest inserted message, the
    first one added, is no longer among them. *)
Lemma recent_ids_drop_inserted :
  let env := sample_env "doc_plain" big_mailbox in
  let w' := final_world (processMessagesToDoc env blank) in
  is_ok (processMessagesToDoc env blank) = true
  ∧ length (inserted env blank) = 201%nat
  ∧ (item_of (numbered 200) ∈ inserted env blank)
  ∧ (id (item_of (numbered 200)) ∉ persisted_ids w')
  ∧ length (persisted_ids w') = 200%nat
  ∧ ¬ (∀ x, x ∈ inserted env blank → id x ∈ persisted_ids w').
Proof.
  intros env w'.
  assert (item_of (numbered 200) ∈ inserted env blank) as Hin
    by (apply (bool_decide_unpack _); by vm_compute).
  assert (id (item_of (numbered 200)) ∉ persisted_ids w') as Hout
    by (apply (bool_decide_unpack _); by vm_compute).
  split; [by vm_compute|]. split; [by vm_compute|].
  split; [done|]. split; [done|]. split; [by vm_compute|].
  intros H. by apply Hout, H.
Qed.

(** ** Failures in [doc_html] mode *)

Lemma convert_failure env msg doc w e :
  convert_html env (fullHtml env msg) = inl e →
  prependMessageHtmlToDoc env msg doc w = Throw e w.
Proof.
  intros H. unfold prependMessageHtmlToDoc.
  erewrite bind_throw; [done|]. unfold convertHtmlToDoc. by rewrite H.
Qed.

Lemma run_html env w :
  OUTPUT_MODE env = "doc_html" →
  let r := processMessagesToDoc env w in
  r = Ok tt (final_world r)
  ∧ (batch env w ≠ [] → props (final_world r) = committed env w)
  ∧ ∀ it e, (it, Some e) ∈ run_trace env w →
            LogError (getSubject (message it)) e ∈ logged (final_world r).
Proof.
  intros Hmode r. subst r.
  destruct (decide (batch env w = [])) as [Hb|Hb].
  - destruct (run_empty env w Hb) as [extra ->]. simpl.
    split; [done|]. split; [done|]. unfold run_trace. rewrite Hb. simpl.
    intros it e H. by apply elem_of_nil in H.
  - unfold processMessagesToDoc.
    destruct (gather_eq env w) as [extra Hg].
    pose proof (process_start env w) as Hp. rewrite Hg in Hp. simpl in Hp.
    erewrite bind_ok; [|exact Hg]. simpl.
    rewrite decide_False in Hp by (rewrite Hmode; done).
    rewrite decide_True in Hp by done.
    destruct (html_loop_spec env (destination w) (batch env w)
                {| recent := recency w; newestSeen := watermark w |}
                (insertion_start env w))
      as (l' & w' & Hloop & Hr & Hn & Hpr & Hlog & Herr).
    rewrite Hloop in Hp.
    destruct (batch env w) as [|first rest] eqn:Eb; [done|].
    erewrite bind_ok; [|exact Hp]. rewrite persist_eq. simpl.
    split; [done|]. split.
    + intros _. destruct (insertion_start_world env w) as [Hprops _].
      destruct (destination_live w) as (fd & _ & Hh).
      unfold committed, inserted.
      rewrite decide_False by (rewrite Hmode; done).
      rewrite decide_True by done.
      unfold handle. rewrite Hpr, Hprops. fold (handle (ensured w)).
      rewrite Hh, Hr, Hn. unfold run_trace. by rewrite Eb.
    + intros it e Hin. apply elem_of_app. left. apply Herr.
      unfold run_trace in Hin. by rewrite Eb in Hin.
Qed.

Lemma run_plain_throw env w e w2 :
  OUTPUT_MODE env = "doc_plain" →
  batch env w ≠ [] →
  prependBatchPlain env (batch env w) (destination w) (insertion_start env w)
  = Throw e w2 →
  processMessagesToDoc env w = Throw e w2 ∧ same_state w w2.
Proof.
  intros Hmode Hb Ht. unfold processMessagesToDoc.
  destruct (gather_eq env w) as [extra Hg].
  pose proof (process_start env w) as Hp. rewrite Hg in Hp. simpl in Hp.
  erewrite bind_ok; [|exact Hg]. simpl.
  rewrite decide_True in Hp by done.
  erewrite bind_throw in Hp; [|exact Ht].
  destruct (batch env w) as [|first rest] eqn:Eb; [done|].
  erewrite bind_throw; [|exact Hp]. split; [done|].
  pose proof (plain_props env (first :: rest) (destination w)
                (insertion_start env w)) as Hpp.
  rewrite Ht in Hpp. unfold same_props in Hpp. cbn [final_world] in Hpp.
  destruct (insertion_start_world env w) as [Hprops _].
  unfold same_state. rewrite Hpp, Hprops. apply ensured_state.
Qed.

(** C4 as stated fails twice. In [doc_html] mode a message whose
    conversion raises is logged and skipped: the destination holds no
    placeholder for it. In [doc_plain] mode the failure of one insertion
    aborts the run, which persists nothing. *)
Lemma failure_without_placeholder :
  let env := sample_env "doc_html" [[msg_b]] in
  let r := processMessagesToDoc env blank in
  let env2 := refusing_env [[msg_b]] in
  let r2 := processMessagesToDoc env2 blank in
  run_trace env blank = [(item_of msg_b, Some "Exception: conversion failed")]
  ∧ is_ok r = true
  ∧ destination blank = 1%positive
  ∧ body_of (final_world r) 1%positive = []
  ∧ ¬ (∃ e, insert_failed e ∈ body_of (final_world r) 1%positive)
  ∧ batch env2 blank = [item_of msg_b]
  ∧ r2 = Throw "Exception: Service error" (final_world r2)
  ∧ is_ok r2 = false
  ∧ gtd_last_iso (props (final_world r2)) = None.
Proof.
  intros env r env2 r2.
  assert (body_of (final_world r) 1%positive = []) as Hbody by by vm_compute.
  split; [by vm_compute|]. split; [by vm_compute|]. split; [by vm_compute|].
  split; [done|].
  split; [rewrite Hbody; intros [e He]; by apply elem_of_nil in He|].
  by vm_compute.
Qed.

(** ** A message that failed below the new watermark *)

Lemma run_watermark_mono env w :
  watermark w <= watermark (final_world (processMessagesToDoc env w)).
Proof.
  pose proof (run_state env w) as H. simpl in H.
  destruct (inserted env w) as [|x l] eqn:E; [lia|].
  destruct H as [_ Hp]. unfold watermark at 2. rewrite Hp.
  apply max_date_ge.
Qed.

Lemma exec_mono o w : watermark w <= watermark (exec o w).
Proof.
  destruct o as [env| |]; simpl.
  - apply run_watermark_mono.
  - by rewrite (proj1 (init_guard w)).
  - by rewrite (proj1 (ensure_guard w)).
Qed.

Lemma after_mono ops : ∀ w, watermark w <= watermark (after ops w).
Proof.
  unfold after. induction ops as [|o ops IH]; intros w; simpl; [lia|].
  etrans; [apply (exec_mono o)|apply IH].
Qed.

Lemma of_array_sub a x : x ∈ JsSet.of_array a → x ∈ a.
Proof.
  unfold JsSet.of_array.
  destruct (add_all a []) as (D & -> & _ & Hsub & _). simpl. apply Hsub.
Qed.

Lemma added_from R ids x :
  x ∈ foldl JsSet.add R ids → x ∈ R ∨ x ∈ ids.
Proof.
  destruct (add_all ids R) as (D & -> & _ & Hsub & _).
  intros [?|?]%elem_of_app; [by left|right; by apply Hsub].
Qed.

Lemma NoDup_fmap_eq {A B} (f : A → B) (l : list A) a b :
  NoDup (f <$> l) → a ∈ l → b ∈ l → f a = f b → a = b.
Proof.
  induction l as [|c l IH]; intros Hnd Ha Hb Hf.
  - by apply elem_of_nil in Ha.
  - rewrite fmap_cons in Hnd. apply NoDup_cons in Hnd as [Hc Hnd].
    apply elem_of_cons in Ha as [->|Ha]; apply elem_of_cons in Hb as [->|Hb].
    + done.
    + exfalso. apply Hc. rewrite Hf. by apply list_elem_of_fmap_2.
    + exfalso. apply Hc. rewrite <- Hf. by apply list_elem_of_fmap_2.
    + by apply IH.
Qed.

Lemma batch_ids_NoDup env w :
  NoDup (getId <$> scanned (scan env)) → NoDup (id <$> batch env w).
Proof.
  intros Hnd. unfold batch. rewrite select_perm, <- list_fmap_compose.
  apply (sublist_NoDup _ (getId <$> scanned (scan env))); [exact Hnd|].
  change (id ∘ item_of) with getId.
  apply fmap_sublist, sublist_filter.
Qed.

(** C10. In [doc_html] mode, with identifiers unique in the source: when
    the call for a message [m] raised and the call for a message with a
    strictly greater timestamp returned in the same run, then after the
    run the timestamp of [m] is at most the persisted watermark and its
    identifier is not in the recency set; and after any further operations
    other than a reset, no run selects or inserts [m] again. *)
Theorem failed_html_message_dropped env w m e m' :
  OUTPUT_MODE env = "doc_html" →
  NoDup (getId <$> scanned (scan env)) →
  (m, Some e) ∈ run_trace env w →
  (m', None) ∈ run_trace env w →
  date m < date m' →
  let w1 := final_world (processMessagesToDoc env w) in
  date m <= watermark w1
  ∧ (id m ∉ persisted_ids w1)
  ∧ (id m ∉ recency w1)
  ∧ ∀ ops env' x,
      message x = message m →
      (x ∉ batch env' (after ops w1)) ∧ (x ∉ inserted env' (after ops w1)).
Proof.
  intros Hmode Hnd Hm Hm' Hlt w1.
  assert (m' ∈ inserted env w) as Hins.
  { unfold inserted. rewrite decide_False by (rewrite Hmode; done).
    rewrite decide_True by done. unfold succeeded.
    apply list_elem_of_fmap. exists (m', None). split; [done|].
    by apply list_elem_of_filter. }
  assert (m ∈ batch env w) as Hmb.
  { rewrite <- (html_trace_items env (destination w) (batch env w)
                  (insertion_start env w)).
    apply list_elem_of_fmap. by exists (m, Some e). }
  pose proof (run_state env w) as Hs. fold w1 in Hs. simpl in Hs.
  destruct (inserted env w) as [|x0 l0] eqn:E; [by apply elem_of_nil in Hins|].
  destruct Hs as [_ Hp]. rewrite <- E in *.
  assert (date m' <= watermark w1) as Hw.
  { unfold watermark. rewrite Hp. by apply max_date_upper. }
  assert (id m ∉ persisted_ids w1) as Hpers.
  { unfold persisted_ids. rewrite Hp. simpl.
    intros [Hr|Hi]%slice_last_sub%added_from.
    - apply batch_new in Hmb as (mm & _ & -> & [_ Hfresh]). done.
    - apply list_elem_of_fmap in Hi as (x & Hid & Hx).
      unfold inserted in Hx. rewrite decide_False in Hx by (rewrite Hmode; done).
      rewrite decide_True in Hx by done.
      unfold succeeded in Hx.
      apply list_elem_of_fmap in Hx as ([x' o] & -> & Hx).
      apply list_elem_of_filter in Hx as [Ho Hx]. simpl in *. subst o.
      assert ((m, Some e) = (x', None)) as Heq; [|done].
      apply (NoDup_fmap_eq (id ∘ fst) (run_trace env w)); [|done..].
      rewrite list_fmap_compose. unfold run_trace.
      rewrite html_trace_items. by apply batch_ids_NoDup. }
  split; [lia|]. split; [done|]. split.
  { intros Hr. apply Hpers. unfold recency, persisted_ids in *.
    destruct (gtd_recent_ids (props w1)); [by apply of_array_sub|].
    by apply elem_of_nil in Hr. }
  intros ops env' x Hx.
  assert (x ∉ batch env' (after ops w1)) as Hnot.
  { intros Hin. pose proof (batch_date _ _ _ Hin) as Hd.
    pose proof (after_mono ops w1).
    apply batch_new in Hin as (mx & _ & -> & _).
    apply batch_new in Hmb as (mm & _ & -> & _).
    simpl in *. subst mx. lia. }
  split; [done|]. intros Hin. by apply Hnot, inserted_sub.
Qed.

Lemma failed_html_message_dropped_witness :
  let env := sample_env "doc_html" [[msg_b; msg_d]] in
  let w1 := final_world (processMessagesToDoc env blank) in
  run_trace env blank
  = [(item_of msg_d, None);
     (item_of msg_b, Some "Exception: conversion failed")]
  ∧ watermark w1 = 40
  ∧ persisted_ids w1 = ["d"]
  ∧ (item_of msg_b ∉ batch env w1)
  ∧ (item_of msg_b ∉ batch env (after [Run env; Init; Run env] w1)).
Proof.
  intros env w1.
  assert (run_trace env blank
          = [(item_of msg_d, None);
             (item_of msg_b, Some "Exception: conversion failed")]) as Htr
    by by vm_compute.
  split; [exact Htr|]. split; [by vm_compute|]. split; [by vm_compute|].
  assert (NoDup (getId <$> scanned (scan env))) as Hnd.
  { apply (bool_decide_unpack _). by vm_compute. }
  destruct (failed_html_message_dropped env blank (item_of msg_b)
              "Exception: conversion failed" (item_of msg_d)
              eq_refl Hnd) as (_ & _ & _ & H).
  - rewrite Htr. right. left.
  - rewrite Htr. left.
  - simpl. lia.
  - split.
    + apply (H [] env (item_of msg_b) eq_refl).
    + apply (H [Run env; Init; Run env] env (item_of msg_b) eq_refl).
Defined.

(** * Further properties of the script *)

(** ** [gtd_init] *)

Lemma gtd_init_eq w :
  ∃ extra,
    gtd_init w
    = Ok tt
        (let w0 := {| props := {| gtd_last_iso := Some (watermark w);
                                  gtd_consolidated_doc_id := handle w;
                                  gtd_recent_ids := gtd_recent_ids (props w) |};
                      drive := drive w; logged := logged w |} in
         {| props := props (ensured w0); drive := drive (ensured w0);
            logged := logged (ensured w0) ++ extra |}).
Proof.
  unfold gtd_init. erewrite bind_ok; [|reflexivity].
  destruct (gtd_last_iso (props w)) as [t|] eqn:E.
  - erewrite bind_ok; [|reflexivity].
    erewrite bind_ok; [|apply ensure_eq'].
    erewrite bind_ok; [|reflexivity]. eexists. unfold Logger_log.
    replace {| props := {| gtd_last_iso := Some (watermark w);
                           gtd_consolidated_doc_id := handle w;
                           gtd_recent_ids := gtd_recent_ids (props w) |};
               drive := drive w; logged := logged w |} with w; [done|].
    unfold watermark, handle. rewrite E. simpl.
    destruct w as [[a b c] dr lg]. simpl in *. by subst.
  - erewrite bind_ok; [|reflexivity].
    erewrite bind_ok; [|apply ensure_eq'].
    erewrite bind_ok; [|reflexivity]. eexists. unfold Logger_log.
    unfold watermark, handle. rewrite E. simpl. reflexivity.
Qed.

Lemma live_ensured w : live_handle (ensured w) = Some (destination w).
Proof.
  unfold ensured, destination. destruct (live_handle w) eqn:E; [done|].
  apply live_created.
Qed.

Lemma ensured_keeps w d f :
  drive w !! d = Some f → drive (ensured w) !! d = Some f.
Proof.
  unfold ensured. destruct (live_handle w); [done|]. apply created_keeps.
Qed.

Lemma ensured_live w d : live_handle w = Some d → ensured w = w.
Proof. unfold ensured. by intros ->. Qed.

(** X1. [gtd_init] always returns. It seeds the watermark property with
    the epoch only when the property is missing, so the watermark a run
    reads is the same before and after; it leaves the recency set and every
    existing document as they are; afterwards the persisted handle resolves
    to a document that is not trashed. Running it a second time changes
    neither the properties nor Drive. *)
Theorem gtd_init_spec (w : World) :
  ∃ w1 w2,
    gtd_init w = Ok tt w1
    ∧ gtd_last_iso (props w1) = Some (watermark w)
    ∧ gtd_recent_ids (props w1) = gtd_recent_ids (props w)
    ∧ live_handle w1 = Some (destination w)
    ∧ (live_handle w = None → drive w1 !! destination w = Some empty_doc)
    ∧ (∀ d f, drive w !! d = Some f → drive w1 !! d = Some f)
    ∧ gtd_init w1 = Ok tt w2
    ∧ props w2 = props w1
    ∧ drive w2 = drive w1.
Proof.
  destruct (gtd_init_eq w) as [extra Hi].
  set (w0 := {| props := {| gtd_last_iso := Some (watermark w);
                            gtd_consolidated_doc_id := handle w;
                            gtd_recent_ids := gtd_recent_ids (props w) |};
                drive := drive w; logged := logged w |}) in *.
  simpl in Hi.
  assert (live_handle w0 = live_handle w) as Hlive by done.
  assert (destination w0 = destination w) as Hdest.
  { unfold destination. by rewrite Hlive. }
  set (w1 := {| props := props (ensured w0); drive := drive (ensured w0);
                logged := logged (ensured w0) ++ extra |}) in *.
  assert (live_handle w1 = Some (destination w)) as Hl1.
  { rewrite <- Hdest, <- (live_ensured w0). done. }
  destruct (gtd_init_eq w1) as [extra2 Hi2].
  eexists w1, _. split; [exact Hi|].
  split. { simpl. by rewrite (proj1 (ensured_state w0)). }
  split. { simpl. by rewrite (proj2 (ensured_state w0)). }
  split; [done|]. split.
  { intros Hnone. simpl. unfold ensured, destination.
    rewrite Hlive, Hnone. apply lookup_insert_eq. }
  split. { intros d f Hd. simpl. by apply ensured_keeps. }
  split; [exact Hi2|]. simpl.
  rewrite !(ensured_live _ (destination w)) by exact Hl1. simpl.
  split; [|done].
  unfold watermark, handle. simpl.
  pose proof (proj1 (ensured_state w0)) as H1.
  rewrite H1. simpl.
  destruct (props (ensured w0)); simpl in *. by rewrite H1.
Qed.

Lemma gtd_init_spec_witness :
  live_handle blank = None
  ∧ ∃ w1, gtd_init blank = Ok tt w1
          ∧ drive w1 !! 1%positive = Some empty_doc.
Proof.
  split; [reflexivity|].
  destruct (gtd_init_spec blank) as (w1 & w2 & Hi & _ & _ & _ & Hnew & _).
  exists w1. split; [exact Hi|]. apply (Hnew eq_refl).
Defined.

(** ** The persisted recency set read back *)

Lemma add_NoDup s x : NoDup s → NoDup (JsSet.add s x).
Proof.
  intros Hs. destruct (add_cases s x) as [[-> _]|[-> Hx]]; [done|].
  apply NoDup_app. split; [done|]. split.
  - intros y Hy ->%list_elem_of_singleton. done.
  - apply NoDup_singleton.
Qed.

Lemma add_all_NoDup R ids : NoDup (R ++ ids) → foldl JsSet.add R ids = R ++ ids.
Proof.
  revert R. induction ids as [|y ids IH]; intros R Hnd; simpl.
  - by rewrite app_nil_r.
  - destruct (add_cases R y) as [[_ Hy]|[-> _]].
    + apply NoDup_app in Hnd as (_ & Hd & _). exfalso.
      apply (Hd y Hy). left.
    + rewrite IH; rewrite <- app_assoc; done.
Qed.

Lemma of_array_NoDup a : NoDup a → JsSet.of_array a = a.
Proof. intros H. unfold JsSet.of_array. by rewrite add_all_NoDup. Qed.

Lemma slice_last_NoDup {A} n (l : list A) : NoDup l → NoDup (slice_last n l).
Proof.
  intros H. rewrite (slice_last_suffix n l) in H.
  by apply NoDup_app in H as (_ & _ & ?).
Qed.

Lemma slice_last_all {A} n (l : list A) :
  (length l ≤ n)%nat → slice_last n l = l.
Proof.
  intros H. unfold slice_last.
  replace (length l - n)%nat with 0%nat by lia. done.
Qed.

(** X2. What [saveRecentIds_] stores, [getRecentIds_] reads back: for a
    set without repeated members (as every JavaScript [Set] is), saving and
    then reading gives its last [RECENT_IDS_LIMIT] members in the same
    order, and the set itself when it has at most that many; nothing else
    of the state changes. *)
Theorem recent_ids_round_trip (set : JsSet.t) (w : World) :
  NoDup set →
  ∃ w',
    (saveRecentIds_ set;; getRecentIds_) w
    = Ok (slice_last RECENT_IDS_LIMIT set) w'
    ∧ ((length set ≤ RECENT_IDS_LIMIT)%nat →
       (saveRecentIds_ set;; getRecentIds_) w = Ok set w')
    ∧ gtd_last_iso (props w') = gtd_last_iso (props w)
    ∧ handle w' = handle w
    ∧ drive w' = drive w.
Proof.
  intros Hnd. eexists.
  assert ((saveRecentIds_ set;; getRecentIds_) w
          = Ok (slice_last RECENT_IDS_LIMIT set)
               {| props := {| gtd_last_iso := gtd_last_iso (props w);
                              gtd_consolidated_doc_id := handle w;
                              gtd_recent_ids :=
                                Some (slice_last RECENT_IDS_LIMIT set) |};
                  drive := drive w; logged := logged w |}) as Heq.
  { unfold saveRecentIds_, getRecentIds_. run.
    by rewrite of_array_NoDup by by apply slice_last_NoDup. }
  split; [exact Heq|]. split; [|done].
  intros Hlen. rewrite Heq. by rewrite slice_last_all.
Qed.

Lemma recent_ids_round_trip_witness :
  NoDup ["x"; "y"; "z"]
  ∧ ∃ w', (saveRecentIds_ ["x"; "y"; "z"];; getRecentIds_) blank
          = Ok ["x"; "y"; "z"] w'.
Proof.
  assert (NoDup ["x"; "y"; "z"]) as Hnd
    by (apply (bool_decide_unpack _); by vm_compute).
  split; [exact Hnd|].
  destruct (recent_ids_round_trip ["x"; "y"; "z"] blank Hnd)
    as (w' & _ & H & _).
  exists w'. apply H. unfold RECENT_IDS_LIMIT. simpl. lia.
Defined.

(** ** [escapeHtml] *)

Lemma app_cons_s x (a b : string) : String x a +:+ b = String x (a +:+ b).
Proof. reflexivity. Qed.
Lemma app_nil_s (b : string) : "" +:+ b = b.
Proof. reflexivity. Qed.

Ltac sapp := rewrite ?app_cons_s, ?app_nil_s in *.

Lemma append_assoc_s (a b c : string) : (a +:+ b) +:+ c = a +:+ (b +:+ c).
Proof. induction a as [|x a IH]; sapp; [done|]. by f_equal. Qed.

Lemma chars_app (a b : string) : chars (a +:+ b) = chars a ++ chars b.
Proof. induction a as [|x a IH]; sapp; simpl; [done|]. by f_equal. Qed.

Lemma escapeHtml_cons c s :
  escapeHtml (String c s) = escape_char c +:+ escapeHtml s.
Proof.
  unfold escapeHtml, escape_char, AMP, LT, GT. simpl.
  destruct (decide (c = "&"%char)) as [->|Hamp]; [done|].
  simpl. destruct (decide (c = "<"%char)) as [->|Hlt]; [done|].
  simpl. destruct (decide (c = ">"%char)) as [->|Hgt]; done.
Qed.

Lemma escapeHtml_chars s : escapeHtml s = escape_chars s.
Proof.
  induction s as [|c s IH]; [done|]. by rewrite escapeHtml_cons, IH.
Qed.

Lemma escape_char_clean c x : x ∈ chars (escape_char c) → x ≠ LT ∧ x ≠ GT.
Proof.
  unfold escape_char. repeat case_decide; simpl; intros Hx.
  - repeat (apply elem_of_cons in Hx as [->|Hx]; [by vm_compute|]).
    by apply elem_of_nil in Hx.
  - repeat (apply elem_of_cons in Hx as [->|Hx]; [by vm_compute|]).
    by apply elem_of_nil in Hx.
  - repeat (apply elem_of_cons in Hx as [->|Hx]; [by vm_compute|]).
    by apply elem_of_nil in Hx.
  - apply elem_of_cons in Hx as [->|Hx]; [done|]. by apply elem_of_nil in Hx.
Qed.

(** X3. The text [escapeHtml] returns holds no [<] and no [>], whatever
    the input, so a metadata field cannot open or close a tag in the page
    built by [prependMessageHtmlToDoc]; a text without [&], [<] and [>]
    is returned as it is. *)
Theorem escapeHtml_no_tags (s : string) :
  (LT ∉ chars (escapeHtml s))
  ∧ (GT ∉ chars (escapeHtml s))
  ∧ ((∀ c, c ∈ chars s → c ≠ AMP ∧ c ≠ LT ∧ c ≠ GT) → escapeHtml s = s).
Proof.
  rewrite escapeHtml_chars.
  assert (∀ x, x ∈ chars (escape_chars s) → x ≠ LT ∧ x ≠ GT) as Hclean.
  { induction s as [|c s IH]; simpl; intros x Hx.
    - by apply elem_of_nil in Hx.
    - rewrite chars_app in Hx. apply elem_of_app in Hx as [Hx|Hx].
      + by eapply escape_char_clean.
      + by apply IH. }
  split; [intros H; by destruct (Hclean _ H)|].
  split; [intros H; by destruct (Hclean _ H)|].
  clear Hclean. induction s as [|c s IH]; simpl; intros Hs; [done|].
  destruct (Hs c) as (? & ? & ?); [left|].
  unfold escape_char. rewrite !decide_False by done. sapp.
  f_equal. apply IH. intros x Hx. apply Hs. by right.
Qed.

Lemma escapeHtml_no_tags_witness :
  (∀ c, c ∈ chars "Re: hello" → c ≠ AMP ∧ c ≠ LT ∧ c ≠ GT)
  ∧ escapeHtml "Re: hello" = "Re: hello".
Proof.
  assert (∀ c, c ∈ chars "Re: hello" → c ≠ AMP ∧ c ≠ LT ∧ c ≠ GT) as H.
  { intros c Hc. simpl in Hc.
    repeat (apply elem_of_cons in Hc as [->|Hc]; [by vm_compute|]).
    by apply elem_of_nil in Hc. }
  split; [exact H|].
  by apply (proj2 (proj2 (escapeHtml_no_tags "Re: hello"))).
Defined.

Lemma escape_char_inj c1 c2 r1 r2 :
  escape_char c1 +:+ r1 = escape_char c2 +:+ r2 → c1 = c2 ∧ r1 = r2.
Proof.
  unfold escape_char, AMP, LT, GT.
  repeat case_decide; subst; intros Heq; sapp; simplify_eq; done.
Qed.

(** X4. [escapeHtml] loses nothing and works piecewise: two different
    texts never escape to the same text, and escaping a concatenation is
    concatenating the escaped parts. *)
Theorem escapeHtml_faithful (s1 s2 : string) :
  (escapeHtml s1 = escapeHtml s2 → s1 = s2)
  ∧ escapeHtml (s1 +:+ s2) = escapeHtml s1 +:+ escapeHtml s2.
Proof.
  split.
  - rewrite !escapeHtml_chars. revert s2.
    induction s1 as [|c1 s1 IH]; intros [|c2 s2]; simpl; intros H.
    + done.
    + exfalso. unfold escape_char in H. repeat case_decide; sapp; discriminate.
    + exfalso. unfold escape_char in H. repeat case_decide; sapp; discriminate.
    + apply escape_char_inj in H as [-> H]. f_equal. by apply IH.
  - rewrite !escapeHtml_chars.
    induction s1 as [|c s1 IH]; simpl; [done|].
    sapp. by rewrite IH, append_assoc_s.
Qed.

Lemma escapeHtml_faithful_witness :
  escapeHtml "a<b" = escapeHtml ("a" +:+ "<b")
  ∧ "a<b" = "a" +:+ "<b"
  ∧ escapeHtml ("a" +:+ "<b") = "a" +:+ "&lt;b".
Proof.
  split; [reflexivity|]. split.
  - apply (proj1 (escapeHtml_faithful "a<b" ("a" +:+ "<b"))). reflexivity.
  - rewrite (proj2 (escapeHtml_faithful "a" "<b")). by vm_compute.
Defined.

(** ** An unrecognised [OUTPUT_MODE] *)

(** X5. The output mode is only looked at when something was selected.
    With a mode that is neither [doc_plain] nor [doc_html], a run that
    selects nothing returns as usual, and a run that selects something
    raises [Unknown OUTPUT_MODE] before any insertion. In both cases
    watermark and recency set are unchanged and no document content
    changes; the destination document has been ensured first, so a new
    handle may have been persisted. *)
Theorem unknown_mode_spec env w :
  OUTPUT_MODE env ≠ "doc_plain" →
  OUTPUT_MODE env ≠ "doc_html" →
  let r := processMessagesToDoc env w in
  match batch env w with
  | [] => r = Ok tt (final_world r)
  | _ :: _ =>
    r = Throw ("Error: Unknown OUTPUT_MODE: " +:+ OUTPUT_MODE env) (final_world r)
  end
  ∧ same_state w (final_world r)
  ∧ drive (final_world r) = drive (ensured w)
  ∧ handle (final_world r) = Some (destination w).
Proof.
  intros Hp Hh r. subst r.
  destruct (destination_live w) as (fd & _ & Hdest).
  destruct (batch env w) as [|first rest] eqn:Eb.
  - destruct (run_empty env w Eb) as [extra ->]. simpl.
    split; [done|]. split; [apply ensured_state|]. done.
  - unfold processMessagesToDoc.
    destruct (gather_eq env w) as [extra Hg].
    pose proof (process_start env w) as Hps. rewrite Hg in Hps. simpl in Hps.
    rewrite !decide_False in Hps by done.
    erewrite bind_ok; [|exact Hg]. simpl. rewrite Eb.
    erewrite bind_throw; [|exact Hps]. simpl.
    split; [done|]. split; [apply ensured_state|]. done.
Qed.

Lemma unknown_mode_spec_witness :
  let env := sample_env "pdf" [[msg_a]] in
  OUTPUT_MODE env ≠ "doc_plain" ∧ OUTPUT_MODE env ≠ "doc_html"
  ∧ processMessagesToDoc env blank
    = Throw "Error: Unknown OUTPUT_MODE: pdf"
            (final_world (processMessagesToDoc env blank))
  ∧ handle (final_world (processMessagesToDoc env blank)) = Some 1%positive.
Proof.
  intros env.
  assert (OUTPUT_MODE env ≠ "doc_plain") as H1 by done.
  assert (OUTPUT_MODE env ≠ "doc_html") as H2 by done.
  split; [exact H1|]. split; [exact H2|].
  destruct (unknown_mode_spec env blank H1 H2) as (Hr & _ & _ & Hh).
  replace (batch env blank) with [item_of msg_a] in Hr by by vm_compute.
  split; [exact Hr|]. rewrite Hh. by vm_compute.
Defined.

(** ** Reset, then run *)

(** X6. After [gtd_resetForReimport] nothing of the earlier watermark or
    recency set bears on the next selection: the next run selects exactly
    the scanned messages dated after the epoch start, whatever was
    processed before. *)
Theorem reset_then_select env w :
  let w1 := final_world (gtd_resetForReimport w) in
  batch env w1 = select (scan env) 0 []
  ∧ batch env w1
    ≡ₚ item_of <$> filter (λ m, getDate m > 0) (scanned (scan env)).
Proof.
  intros w1. assert (batch env w1 = select (scan env) 0 []) as Hb by done.
  split; [done|]. rewrite Hb, select_perm.
  assert (∀ l : list Message,
            filter (is_new 0 []) l = filter (λ m, getDate m > 0) l) as ->; [|done].
  induction l as [|m l IH]; [done|].
  rewrite !filter_cons, IH.
  destruct (decide (is_new 0 [] m)) as [[Hd _]|Hn].
  - by rewrite decide_True.
  - rewrite decide_False; [done|]. intros Hd. apply Hn. split; [done|].
    apply not_elem_of_nil.
Qed.

(** ** Copy loops with a guard around each insertion *)

Lemma try_bind_ok {A B} (m : M A) (k : A → M B) h w a w1 :
  m w = Ok a w1 → try_catch (m ≫= k) h w = try_catch (k a) h w1.
Proof. intros H. unfold try_catch. by erewrite bind_ok. Qed.

Lemma try_bind_throw {A B} (m : M A) (k : A → M B) h w e w1 :
  m w = Throw e w1 → try_catch (m ≫= k) h w = h e w1.
Proof. intros H. unfold try_catch. by erewrite bind_throw. Qed.

Lemma prepends_guarded env d el :
  placeholders_ok env →
  prepends d [guarded env el]
    (try_catch (insert0 env d el) (λ e, insert0 env d (insert_failed e))).
Proof.
  intros Hph w f Hf. unfold guarded.
  destruct (insert_error env el) as [e|] eqn:E.
  - erewrite try_throw; [|by eapply insert0_throw]. by apply insert0_ok.
  - erewrite try_ok; [done|]. by apply insert0_ok.
Qed.

Lemma prepends_table env d rows : ∀ acc base w f,
  placeholders_ok env →
  drive w !! d = Some f →
  children f = acc ++ base →
  try_catch
    (for_of rows (λ row, insert0 env d (Paragraph NORMAL (join_tab row))))
    (λ e, insert0 env d (insert_failed e)) w
  = Ok tt (with_file w d {| isTrashed := isTrashed f;
                            children := table_rows env rows acc ++ base |}).
Proof.
  induction rows as [|row rows IH]; intros acc base w f Hph Hf Hc; simpl.
  - rewrite <- Hc.
    replace {| isTrashed := isTrashed f; children := children f |} with f
      by by destruct f.
    by rewrite with_file_id.
  - destruct (insert_error env (Paragraph NORMAL (join_tab row)))
      as [e|] eqn:E.
    + erewrite try_bind_throw; [|by eapply insert0_throw].
      erewrite insert0_ok; [|done|apply Hph]. by rewrite Hc.
    + erewrite try_bind_ok; [|by eapply insert0_ok].
      erewrite (IH (Paragraph NORMAL (join_tab row) :: acc) base);
        [|done|apply with_file_lookup|simpl; by rewrite Hc].
      by rewrite with_file_twice.
Qed.

Lemma prepends_copy_html env d child :
  placeholders_ok env →
  prepends d (html_child env child)
    (try_catch (copy_html env d child)
               (λ e, insert0 env d (insert_failed e))).
Proof.
  intros Hph. destruct child as [h t|t|rows| |blob|t];
    try (by apply prepends_guarded).
  intros w f Hf. simpl.
  erewrite (prepends_table env d (reverse rows) [] (children f)); done.
Qed.

Lemma prepends_copy_plain env d child :
  placeholders_ok env →
  prepends d [guarded env (copied_plain child)]
    (try_catch (copy_plain env d child)
               (λ e, insert0 env d (insert_failed e))).
Proof. intros Hph. rewrite copy_plain_eq. by apply prepends_guarded. Qed.

Lemma copy_loop_prepends (step : Element → M unit) (g : Element → list Element)
    tmp main ft n :
  (∀ c, prepends main (g c) (step c)) →
  ∀ w fm,
  tmp ≠ main →
  drive w !! tmp = Some ft →
  drive w !! main = Some fm →
  (n ≤ length (children ft))%nat →
  for_down n (λ i, child ← getChild tmp i; step child) w
  = Ok tt (with_file w main
      {| isTrashed := isTrashed fm;
         children := concat (g <$> take n (children ft)) ++ children fm |}).
Proof.
  intros Hstep. induction n as [|n IH]; intros w fm Hne Ht Hm Hn.
  - simpl.
    replace {| isTrashed := isTrashed fm; children := children fm |} with fm
      by by destruct fm.
    by rewrite with_file_id.
  - destruct (lookup_lt_is_Some_2 (children ft) n) as [c Hc]; [lia|].
    rewrite (take_S_r _ _ _ Hc).
    simpl. erewrite bind_ok; cycle 1.
    { erewrite bind_ok; [|by eapply getChild_ok]. by apply Hstep. }
    erewrite IH; [|done|by rewrite with_file_lookup_ne
                  |apply with_file_lookup|lia].
    rewrite with_file_twice. simpl.
    rewrite fmap_app, concat_app. simpl.
    by rewrite app_nil_r, <- app_assoc.
Qed.

(** ** Prepending through a temporary document *)

Lemma main_not_new w main f : drive w !! main = Some f → new_id w ≠ main.
Proof. intros H E. pose proof (new_id_fresh w). congruence. Qed.

Lemma after_prepend_facts w main rendered block prior :
  drive w !! main = Some prior →
  let w' := after_prepend w main rendered block prior in
  props w' = props w
  ∧ logged w' = logged w
  ∧ drive w' !! main = Some {| isTrashed := isTrashed prior;
                               children := block ++ children prior |}
  ∧ body_of w' main = block ++ children prior
  ∧ drive w' !! new_id w = Some {| isTrashed := true; children := rendered |}
  ∧ ∀ d, d ≠ main → d ≠ new_id w → drive w' !! d = drive w !! d.
Proof.
  intros Hm w'. pose proof (main_not_new _ _ _ Hm) as Hne.
  assert (drive w' !! main
          = Some {| isTrashed := isTrashed prior;
                    children := block ++ children prior |}) as Hmain.
  { unfold w', after_prepend. rewrite with_file_lookup_ne by done.
    apply with_file_lookup. }
  split; [done|]. split; [done|]. split; [done|].
  split; [unfold body_of; by rewrite Hmain|].
  split; [apply with_file_lookup|].
  intros d Hd Hd'. unfold w', after_prepend.
  by rewrite !with_file_lookup_ne by done.
Qed.

Lemma prependBatchPlain_after env messages main w prior :
  drive w !! main = Some prior →
  (∀ el, el ∈ plain_batch env messages → insert_error env el = None) →
  prependBatchPlain env messages main w
  = Ok tt (after_prepend w main
             (concat (render_plain env ∘ message <$> messages))
             (plain_batch env messages) prior).
Proof. intros. by apply prependBatchPlain_ok. Qed.

Lemma plain_batch_plain env messages :
  Forall is_plain (plain_batch env messages).
Proof.
  unfold plain_batch. apply Forall_concat, Forall_fmap, Forall_forall.
  intros it _. unfold compose, plain_block, render_plain.
  rewrite !fmap_app, !Forall_app. repeat split.
  - repeat constructor.
  - rewrite <- list_fmap_compose. apply Forall_fmap, Forall_forall.
    by intros line _.
  - repeat constructor.
Qed.

(** X7. Besides the destination, a returning [prependBatchPlain] touches
    one document only: the temporary document it created under an id Drive
    did not hold, which holds the rendering and ends trashed. Every other
    document, the trashed flag of the destination, the properties and the
    log are as before. What lands in the destination is normal paragraphs
    and page breaks only: the heading given to the start marker in the
    temporary document does not reach the destination. *)
Theorem prependBatchPlain_frame env (messages : list Item) main w prior :
  drive w !! main = Some prior →
  (∀ el, el ∈ plain_batch env messages → insert_error env el = None) →
  ∃ w' tmp,
    prependBatchPlain env messages main w = Ok tt w'
    ∧ drive w !! tmp = None
    ∧ drive w' !! tmp
      = Some {| isTrashed := true;
                children := concat (render_plain env ∘ message <$> messages) |}
    ∧ (∀ d, d ≠ main → d ≠ tmp → drive w' !! d = drive w !! d)
    ∧ drive w' !! main
      = Some {| isTrashed := isTrashed prior;
                children := plain_batch env messages ++ children prior |}
    ∧ Forall is_plain (plain_batch env messages)
    ∧ props w' = props w
    ∧ logged w' = logged w.
Proof.
  intros Hm Herr. eexists _, (new_id w).
  split; [by apply prependBatchPlain_after|].
  destruct (after_prepend_facts w main
              (concat (render_plain env ∘ message <$> messages))
              (plain_batch env messages) prior Hm)
    as (Hp & Hl & Hmain & _ & Htmp & Hother).
  split; [apply new_id_fresh|]. split; [done|]. split; [done|].
  split; [done|]. split; [apply plain_batch_plain|]. done.
Qed.

Lemma prependBatchPlain_frame_witness :
  let env := sample_env "doc_plain" [] in
  let prior := {| isTrashed := false; children := [Paragraph NORMAL "old"] |} in
  let w := with_file blank 7%positive prior in
  drive w !! 7%positive = Some prior
  ∧ ∃ w' tmp, prependBatchPlain env [item_of msg_a] 7%positive w = Ok tt w'
              ∧ drive w !! tmp = None
              ∧ isTrashed <$> drive w' !! tmp = Some true.
Proof.
  intros env prior w. split; [by vm_compute|].
  destruct (prependBatchPlain_frame env [item_of msg_a] 7%positive w prior)
    as (w' & tmp & Hr & Hnew & Htmp & _).
  - by vm_compute.
  - intros el _. reflexivity.
  - exists w', tmp. split; [exact Hr|]. split; [exact Hnew|]. by rewrite Htmp.
Defined.

(** ** A [doc_plain] run, end to end *)

Lemma insertion_start_new_id env w : new_id (insertion_start env w) = new_id (ensured w).
Proof.
  unfold new_id. by rewrite (proj2 (insertion_start_world env w)).
Qed.

(** X8. A [doc_plain] run that selects something and in which no
    insertion raises returns; the destination then shows the rendering of
    the whole batch, newest message first, above everything it held
    before; every selected message counts as inserted and the watermark is
    the timestamp of the first message of the batch. Apart from the
    destination and the trashed temporary document, Drive is as
    [ensureConsolidatedDoc_] left it. *)
Theorem plain_run_spec env w :
  OUTPUT_MODE env = "doc_plain" →
  batch env w ≠ [] →
  (∀ el, el ∈ plain_batch env (batch env w) → insert_error env el = None) →
  ∃ w',
    processMessagesToDoc env w = Ok tt w'
    ∧ body_of w' (destination w)
      = plain_batch env (batch env w) ++ body_of (ensured w) (destination w)
    ∧ StronglySorted (λ a b, date b <= date a) (batch env w)
    ∧ inserted env w = batch env w
    ∧ (∃ rest, batch env w = (hd (item_of msg_a) (batch env w)) :: rest
               ∧ watermark w' = date (hd (item_of msg_a) (batch env w)))
    ∧ (∀ d, d ≠ destination w → d ≠ new_id (ensured w) →
            drive w' !! d = drive (ensured w) !! d).
Proof.
  intros Hmode Hb Herr.
  destruct (destination_live w) as (fd & Hfd & Hh).
  destruct (insertion_start_world env w) as [Hprops Hdrive].
  assert (drive (insertion_start env w) !! destination w = Some fd) as Hfd'
    by by rewrite Hdrive.
  pose proof (prependBatchPlain_after env (batch env w) (destination w)
                (insertion_start env w) fd Hfd' Herr) as Hpre.
  destruct (after_prepend_facts (insertion_start env w) (destination w)
              (concat (render_plain env ∘ message <$> batch env w))
              (plain_batch env (batch env w)) fd Hfd')
    as (Hp2 & _ & _ & Hbody & _ & Hother).
  set (w2 := after_prepend (insertion_start env w) (destination w)
               (concat (render_plain env ∘ message <$> batch env w))
               (plain_batch env (batch env w)) fd) in *.
  assert (inserted env w = batch env w) as Hins.
  { unfold inserted. rewrite decide_True by done. by rewrite Hpre. }
  unfold processMessagesToDoc.
  destruct (gather_eq env w) as [extra Hg].
  pose proof (process_start env w) as Hps. rewrite Hg in Hps. simpl in Hps.
  rewrite decide_True in Hps by done.
  erewrite bind_ok in Hps; [|exact Hpre].
  erewrite bind_ok; [|exact Hg]. simpl.
  destruct (batch env w) as [|first rest] eqn:Eb; [done|].
  erewrite bind_ok; [|exact Hps]. rewrite persist_eq.
  eexists. split; [done|].
  split.
  { transitivity (body_of w2 (destination w)); [done|].
    rewrite Hbody. unfold body_of. by rewrite Hfd. }
  split.
  { rewrite <- Eb. unfold batch, select. apply (js_sort_sorted date). }
  split; [done|].
  split; [by exists rest|].
  intros d Hd Hd'. simpl. rewrite Hother; [by rewrite Hdrive|done|].
  by rewrite insertion_start_new_id.
Qed.

Lemma plain_run_spec_witness :
  let env := sample_env "doc_plain" [[msg_a; msg_b]; [msg_c]] in
  OUTPUT_MODE env = "doc_plain"
  ∧ batch env blank ≠ []
  ∧ ∃ w', processMessagesToDoc env blank = Ok tt w'
          ∧ body_of w' 1%positive
            = plain_block env msg_b ++ plain_block env msg_c
              ++ plain_block env msg_a.
Proof.
  intros env.
  assert (batch env blank = [item_of msg_b; item_of msg_c; item_of msg_a])
    as Hb by by vm_compute.
  assert (batch env blank ≠ []) as Hne by by rewrite Hb.
  split; [reflexivity|]. split; [exact Hne|].
  destruct (plain_run_spec env blank eq_refl Hne) as (w' & Hr & Hbody & _).
  - intros el _. reflexivity.
  - exists w'. split; [exact Hr|].
    replace (destination blank) with 1%positive in Hbody by by vm_compute.
    rewrite Hbody, Hb. by vm_compute.
Defined.

(** ** [prependMessageToDocPlain] *)

Lemma prependMessageToDocPlain_ok env msg main w prior :
  drive w !! main = Some prior →
  placeholders_ok env →
  prependMessageToDocPlain env msg main w
  = Ok tt (after_prepend w main (render_plain env msg)
             (guarded env <$> plain_block env msg) prior).
Proof.
  intros Hm Hph. pose proof (main_not_new _ _ _ Hm) as Hne.
  unfold prependMessageToDocPlain, plain_block.
  pose proof (appends_append_plain env (new_id w) msg) as Happ.
  remember (render_plain env msg) as rendered eqn:Hr. clear Hr.
  erewrite bind_ok; [|unfold openById; erewrite bind_ok; [done|]; run; by rewrite Hm].
  erewrite bind_ok; [|reflexivity].
  fold (new_id w).
  change {| props := props w; drive := <[new_id w := _]> (drive w);
            logged := logged w |}
    with (with_file w (new_id w) empty_doc).
  erewrite bind_ok; [|apply Happ, with_file_lookup].
  rewrite with_file_twice.
  change (children empty_doc ++ rendered) with rendered.
  change (isTrashed empty_doc) with false.
  erewrite bind_ok; [|unfold getNumChildren; run; by rewrite lookup_insert_eq].
  cbn [children].
  erewrite bind_ok; cycle 1.
  { apply (copy_loop_prepends _ (λ c, [guarded env (copied_plain c)]))
      with (ft := {| isTrashed := false; children := rendered |})
           (fm := prior);
      [intros c; by apply prepends_copy_plain|done|apply with_file_lookup
      |by rewrite with_file_lookup_ne|done]. }
  cbn [children]. rewrite firstn_all.
  unfold setTrashed.
  erewrite bind_ok; cycle 1.
  { run. rewrite lookup_insert_ne by done. by rewrite lookup_insert_eq. }
  unfold after_prepend.
  replace (concat ((λ c, [guarded env (copied_plain c)]) <$> rendered))
    with (guarded env <$> (copied_plain <$> rendered)); [done|].
  clear. induction rendered as [|c l IH]; [done|].
  rewrite !fmap_cons, concat_cons, IH. done.
Qed.

Lemma guarded_id env (l : list Element) :
  (∀ el, el ∈ l → insert_error env el = None) → guarded env <$> l = l.
Proof.
  induction l as [|el l IH]; intros H; [done|].
  rewrite fmap_cons, IH by (intros; apply H; by right).
  unfold guarded. rewrite (H el) by left. done.
Qed.

(** X9. [prependMessageToDocPlain] guards each insertion: when the
    destination exists and the placeholder itself can be inserted, it
    always returns, and the destination shows the rendering of the message
    above its prior content, the placeholder [insert failed] standing
    exactly where an element could not be inserted. When no insertion
    raises, it does to the whole world what [prependBatchPlain] does for
    the batch of that one message. *)
Theorem prependMessageToDocPlain_spec env (it : Item) main w prior :
  drive w !! main = Some prior →
  placeholders_ok env →
  ∃ w',
    prependMessageToDocPlain env (message it) main w = Ok tt w'
    ∧ body_of w' main
      = (guarded env <$> plain_block env (message it)) ++ children prior
    ∧ props w' = props w
    ∧ ((∀ el, el ∈ plain_block env (message it) → insert_error env el = None) →
       prependBatchPlain env [it] main w = Ok tt w').
Proof.
  intros Hm Hph. eexists.
  split; [by apply prependMessageToDocPlain_ok|].
  destruct (after_prepend_facts w main (render_plain env (message it))
              (guarded env <$> plain_block env (message it)) prior Hm)
    as (Hp & _ & _ & Hbody & _).
  split; [done|]. split; [done|].
  intros Herr. rewrite (prependBatchPlain_after env [it] main w prior Hm).
  - unfold plain_batch. rewrite !fmap_cons, !fmap_nil, !concat_cons.
    simpl concat. rewrite !app_nil_r.
    by rewrite guarded_id.
  - unfold plain_batch. rewrite fmap_cons, fmap_nil, concat_cons.
    simpl concat. by rewrite app_nil_r.
Qed.

Lemma prependMessageToDocPlain_spec_witness :
  let env := refusing_env [] in
  let prior := {| isTrashed := false; children := [Paragraph NORMAL "old"] |} in
  let w := with_file blank 7%positive prior in
  drive w !! 7%positive = Some prior
  ∧ placeholders_ok env
  ∧ ∃ w', prependMessageToDocPlain env msg_a 7%positive w = Ok tt w'
          ∧ drop 7 (body_of w' 7%positive)
            = [Paragraph NORMAL "--- EMAIL END ---";
               Paragraph NORMAL "[insert failed: Exception: Service error]";
               Paragraph NORMAL "old"].
Proof.
  intros env prior w.
  assert (placeholders_ok env) as Hph by (intros e; reflexivity).
  split; [by vm_compute|]. split; [exact Hph|].
  destruct (prependMessageToDocPlain_spec env (item_of msg_a) 7%positive w prior)
    as (w' & Hr & Hbody & _); [by vm_compute|exact Hph|].
  exists w'. split; [exact Hr|]. rewrite Hbody. by vm_compute.
Defined.

(** ** [prependMessageHtmlToDoc] *)

Lemma prependMessageHtmlToDoc_ok env msg main w prior kids :
  converted env msg = Some kids →
  drive w !! main = Some prior →
  placeholders_ok env →
  prependMessageHtmlToDoc env msg main w
  = Ok tt (after_prepend w main kids (html_block env kids) prior).
Proof.
  intros Hc Hm Hph. pose proof (main_not_new _ _ _ Hm) as Hne.
  unfold converted in Hc.
  destruct (convert_html env (fullHtml env msg)) as [e|kids'] eqn:E; [done|].
  injection Hc as ->.
  unfold prependMessageHtmlToDoc.
  erewrite bind_ok; [|unfold convertHtmlToDoc; rewrite E; reflexivity].
  fold (new_id w).
  change {| props := props w; drive := <[new_id w := _]> (drive w);
            logged := logged w |}
    with (with_file w (new_id w) {| isTrashed := false; children := kids |}).
  erewrite bind_ok;
    [|unfold openById; erewrite bind_ok; [done|]; run;
      by rewrite lookup_insert_eq].
  erewrite bind_ok;
    [|unfold openById; erewrite bind_ok; [done|]; run;
      by rewrite lookup_insert_ne, Hm].
  erewrite bind_ok; [|unfold getNumChildren; run; by rewrite lookup_insert_eq].
  cbn [children].
  erewrite bind_ok; cycle 1.
  { apply (copy_loop_prepends _ (html_child env))
      with (ft := {| isTrashed := false; children := kids |}) (fm := prior);
      [intros c; by apply prepends_copy_html|done|apply with_file_lookup
      |by rewrite with_file_lookup_ne|done]. }
  cbn [children]. rewrite firstn_all.
  unfold setTrashed.
  erewrite bind_ok; cycle 1.
  { run. rewrite lookup_insert_ne by done. by rewrite lookup_insert_eq. }
  done.
Qed.

Lemma table_rows_flat env rows : ∀ acc,
  (∀ row, row ∈ rows →
          insert_error env (Paragraph NORMAL (join_tab row)) = None) →
  table_rows env rows acc
  = ((λ row, Paragraph NORMAL (join_tab row)) <$> reverse rows) ++ acc.
Proof.
  induction rows as [|row rows IH]; intros acc H; simpl; [done|].
  rewrite (H row) by left.
  rewrite IH by (intros; apply H; by right).
  by rewrite reverse_cons, fmap_app, <- app_assoc.
Qed.

Lemma html_child_flat env child :
  (∀ el, el ∈ flat_child child → insert_error env el = None) →
  html_child env child = flat_child child.
Proof.
  intros H.
  destruct child as [h t|t|rows| |blob|t]; simpl in *;
    try (unfold guarded; by rewrite H by left).
  rewrite table_rows_flat.
  - by rewrite reverse_involutive, app_nil_r.
  - intros row Hrow. apply H. apply list_elem_of_fmap.
    exists row. split; [done|]. by apply elem_of_reverse.
Qed.

(** X10. [prependMessageHtmlToDoc] isolates failures element by element.
    When the conversion returns, the destination exists and the placeholder
    can be inserted, the call always returns; the converted content stands
    above the prior content in the order of the converted document, a
    table as one tab-separated paragraph per row, and where an insertion
    raised the placeholder stands in its place (for a table, above the rows
    inserted before the failure, the rows above it being lost). The
    temporary document ends trashed; properties, log and all other
    documents are unchanged. Without any failing insertion the content is
    the converted document flattened. *)
Theorem prependMessageHtmlToDoc_spec env msg main w prior kids :
  converted env msg = Some kids →
  drive w !! main = Some prior →
  placeholders_ok env →
  ∃ w',
    prependMessageHtmlToDoc env msg main w = Ok tt w'
    ∧ body_of w' main = html_block env kids ++ children prior
    ∧ ((∀ el, el ∈ concat (flat_child <$> kids) → insert_error env el = None) →
       body_of w' main = concat (flat_child <$> kids) ++ children prior)
    ∧ drive w' !! new_id w = Some {| isTrashed := true; children := kids |}
    ∧ (∀ d, d ≠ main → d ≠ new_id w → drive w' !! d = drive w !! d)
    ∧ props w' = props w
    ∧ logged w' = logged w.
Proof.
  intros Hc Hm Hph. eexists.
  split; [by apply prependMessageHtmlToDoc_ok|].
  destruct (after_prepend_facts w main kids (html_block env kids) prior Hm)
    as (Hp & Hl & _ & Hbody & Htmp & Hother).
  split; [done|]. split; [|done].
  intros Herr. rewrite Hbody. f_equal. unfold html_block.
  clear -Herr. induction kids as [|c kids IH]; [done|].
  rewrite !fmap_cons, !concat_cons in *.
  rewrite html_child_flat, IH; [done| |].
  - intros el Hel. apply Herr, elem_of_app. by right.
  - intros el Hel. apply Herr, elem_of_app. by left.
Qed.

Lemma prependMessageHtmlToDoc_spec_witness :
  let env := tabular_env "doc_html" [] in
  let prior := {| isTrashed := false; children := [Paragraph NORMAL "old"] |} in
  let w := with_file blank 7%positive prior in
  placeholders_ok env
  ∧ ∃ w', prependMessageHtmlToDoc env msg_a 7%positive w = Ok tt w'
          ∧ body_of w' 7%positive
            = [Paragraph NORMAL "title";
               Paragraph NORMAL ("a" +:+ TAB +:+ "b"); Paragraph NORMAL "c";
               Paragraph NORMAL "[insert failed: Exception: Service error]";
               Paragraph NORMAL "old"].
Proof.
  intros env prior w.
  assert (placeholders_ok env) as Hph by (intros e; reflexivity).
  split; [exact Hph|].
  destruct (prependMessageHtmlToDoc_spec env msg_a 7%positive w prior
              [Paragraph HEADING6 "title"; Table [["a"; "b"]; ["c"]]; PageBreak])
    as (w' & Hr & Hbody & _); [reflexivity|by vm_compute|exact Hph|].
  exists w'. split; [exact Hr|]. rewrite Hbody. by vm_compute.
Defined.

(** ** A [doc_html] run, end to end *)

Lemma converted_none env msg :
  converted env msg = None →
  ∃ e, convert_html env (fullHtml env msg) = inl e.
Proof.
  unfold converted. destruct (convert_html env (fullHtml env msg)); [eauto|done].
Qed.

Lemma html_loop_body env doc items : ∀ l w f,
  placeholders_ok env →
  drive w !! doc = Some f →
  ∃ l' w',
    html_loop env doc items l w = Ok l' w'
    ∧ body_of w' doc
      = concat (reverse (html_message_block env <$> items)) ++ children f
    ∧ succeeded (html_trace env doc items w) = filter (converts env) items.
Proof.
  induction items as [|it items IH]; intros l w f Hph Hf.
  - exists l, w. split; [done|]. unfold body_of. rewrite Hf. done.
  - unfold html_loop in *.
    rewrite filter_cons, fmap_cons, reverse_cons, concat_app.
    cbn [for_of_with html_trace].
    unfold html_message_block at 2.
    destruct (converted env (message it)) as [kids|] eqn:Ec.
    + pose proof (prependMessageHtmlToDoc_ok env (message it) doc w f kids
                    Ec Hf Hph) as Hok.
      destruct (after_prepend_facts w doc kids (html_block env kids) f Hf)
        as (_ & _ & Hmain & _).
      rewrite Hok. erewrite bind_ok; [|by eapply html_step_ok].
      destruct (IH {| recent := JsSet.add (recent l) (id it);
                      newestSeen := Z.max (newestSeen l) (date it) |}
                   (after_prepend w doc kids (html_block env kids) f)
                   _ Hph Hmain)
        as (l' & w' & -> & Hbody & Htr).
      exists l', w'. split; [done|]. split.
      { rewrite Hbody. simpl. by rewrite app_nil_r, <- app_assoc. }
      rewrite decide_True by (unfold converts; by rewrite Ec).
      by rewrite succeeded_cons_ok, Htr.
    + destruct (converted_none _ _ Ec) as [e He].
      rewrite (convert_failure env (message it) doc w e He).
      erewrite bind_ok;
        [|by eapply html_step_err, convert_failure].
      destruct (IH l (final_world
                   (Logger_log (LogError (getSubject (message it)) e) w)) f
                   Hph Hf)
        as (l' & w' & -> & Hbody & Htr).
      exists l', w'. split; [done|]. split.
      { rewrite Hbody. simpl. by rewrite app_nil_r. }
      rewrite decide_False
        by (unfold converts; rewrite Ec; by intros [? ?]).
      by rewrite succeeded_cons_err, Htr.
Qed.

(** X11. A [doc_html] run, when the placeholder can be inserted, always
    returns, and a message is inserted exactly when its conversion returns.
    Each inserted message is put on top of the destination in turn, the
    newest first, so that within the run the destination ends with the
    messages of the batch in reverse batch order: the oldest inserted
    message on top, the newest just above the prior content. *)
Theorem html_run_spec env w :
  OUTPUT_MODE env = "doc_html" →
  placeholders_ok env →
  ∃ w',
    processMessagesToDoc env w = Ok tt w'
    ∧ body_of w' (destination w)
      = concat (reverse (html_message_block env <$> batch env w))
        ++ body_of (ensured w) (destination w)
    ∧ inserted env w = filter (converts env) (batch env w).
Proof.
  intros Hmode Hph.
  destruct (destination_live w) as (fd & Hfd & Hh).
  destruct (insertion_start_world env w) as [Hprops Hdrive].
  assert (drive (insertion_start env w) !! destination w = Some fd) as Hfd'
    by by rewrite Hdrive.
  assert (body_of (ensured w) (destination w) = children fd) as Hprior.
  { unfold body_of. by rewrite Hfd. }
  assert (inserted env w = succeeded (run_trace env w)) as Hins.
  { unfold inserted. rewrite decide_False by (rewrite Hmode; done).
    by rewrite decide_True. }
  destruct (html_loop_body env (destination w) (batch env w)
              {| recent := recency w; newestSeen := watermark w |}
              (insertion_start env w) fd Hph Hfd')
    as (l' & w2 & Hloop & Hbody & Htr).
  destruct (decide (batch env w = [])) as [Hb|Hb].
  - destruct (run_empty env w Hb) as [extra ->]. eexists. split; [done|].
    rewrite Hins. unfold run_trace. rewrite Hb, Hprior. simpl.
    unfold body_of. simpl. by rewrite Hfd.
  - unfold processMessagesToDoc.
    destruct (gather_eq env w) as [extra Hg].
    pose proof (process_start env w) as Hps. rewrite Hg in Hps. simpl in Hps.
    rewrite decide_False in Hps by (rewrite Hmode; done).
    rewrite decide_True in Hps by done. rewrite Hloop in Hps.
    erewrite bind_ok; [|exact Hg]. simpl.
    destruct (batch env w) as [|first rest] eqn:Eb; [done|].
    erewrite bind_ok; [|exact Hps]. rewrite persist_eq.
    eexists. split; [done|]. split.
    + transitivity (body_of w2 (destination w)); [done|]. by rewrite Hbody, Hprior.
    + rewrite Hins. unfold run_trace. by rewrite Eb.
Qed.

Lemma html_run_spec_witness :
  let env := tabular_env "doc_html" [[msg_a; msg_b]] in
  OUTPUT_MODE env = "doc_html"
  ∧ placeholders_ok env
  ∧ id <$> batch env blank = ["b"; "a"]
  ∧ ∃ w', processMessagesToDoc env blank = Ok tt w'
          ∧ body_of w' 1%positive
            = html_message_block env (item_of msg_a)
              ++ html_message_block env (item_of msg_b).
Proof.
  intros env.
  assert (placeholders_ok env) as Hph by (intros e; reflexivity).
  split; [reflexivity|]. split; [exact Hph|]. split; [by vm_compute|].
  destruct (html_run_spec env blank eq_refl Hph) as (w' & Hr & Hbody & _).
  exists w'. split; [exact Hr|].
  replace (destination blank) with 1%positive in Hbody by by vm_compute.
  rewrite Hbody. by vm_compute.
Defined.

(** ** Watermark and recency set together *)

Lemma filter_agree {A} (P Q : A → Prop) `{∀ x, Decision (P x)}
    `{∀ x, Decision (Q x)} (l : list A) :
  (∀ x, x ∈ l → P x ↔ Q x) → filter P l = filter Q l.
Proof.
  induction l as [|x l IH]; intros Hl; [done|].
  rewrite !filter_cons, IH by (intros; apply Hl; by right).
  destruct (decide (P x)) as [Hp|Hp].
  - rewrite decide_True; [done|]. apply Hl; [left|done].
  - rewrite decide_False; [done|]. intros Hq. apply Hp, Hl; [left|done].
Qed.

Lemma select_same_filter ts W R R' :
  (∀ m, m ∈ scanned ts → is_new W R m ↔ is_new W R' m) →
  select ts W R = select ts W R'.
Proof.
  intros H. unfold select. rewrite !collect_spec.
  by rewrite (filter_agree (is_new W R) (is_new W R')).
Qed.

Lemma guard_redundant date_of env w :
  guard_covered date_of w → dated date_of env →
  batch env w = select (scan env) (watermark w) [].
Proof.
  intros Hg Hd. apply select_same_filter. intros m Hm. unfold is_new.
  split; intros [Hdate Hid]; (split; [done|]).
  - apply not_elem_of_nil.
  - intros Hin. specialize (Hg _ Hin). rewrite <- (Hd m Hm) in Hg. lia.
Qed.

Lemma batch_same_state env w w' :
  same_state w w' → batch env w' = batch env w.
Proof.
  intros [H1 H2]. unfold batch, watermark, recency. by rewrite H1, H2.
Qed.

Lemma guard_same_state date_of w w' :
  same_state w w' → guard_covered date_of w → guard_covered date_of w'.
Proof.
  intros [H1 H2] Hg x. unfold recency, watermark. rewrite H1, H2. apply Hg.
Qed.

Lemma run_same_or_committed env w :
  let w' := final_world (processMessagesToDoc env w) in
  same_state w w'
  ∨ (processMessagesToDoc env w = Ok tt w' ∧ props w' = committed env w
     ∧ batch env w ≠ []).
Proof.
  intros w'. subst w'.
  destruct (decide (batch env w = [])) as [Hb|Hb].
  - left. destruct (run_empty env w Hb) as [extra ->]. simpl.
    apply ensured_state.
  - destruct (run_selected env w Hb) as [[Hr Hp]|(_ & Hp & _)].
    + right. done.
    + left. unfold same_state. rewrite Hp. apply ensured_state.
Qed.

Lemma guard_run date_of env w :
  guard_covered date_of w → dated date_of env →
  guard_covered date_of (final_world (processMessagesToDoc env w)).
Proof.
  intros Hg Hd.
  destruct (run_same_or_committed env w) as [Hs|(_ & Hp & _)].
  - by eapply guard_same_state.
  - intros x. unfold recency, watermark. rewrite Hp. simpl.
    intros Hx%of_array_sub%slice_last_sub%added_from.
    destruct Hx as [Hx|Hx].
    + etrans; [by apply Hg|]. apply max_date_ge.
    + apply list_elem_of_fmap in Hx as (it & -> & Hit).
      pose proof (max_date_upper (watermark w) _ _ Hit) as Hle.
      apply inserted_sub, batch_new in Hit as (m & Hm & -> & _).
      simpl in *. by rewrite <- (Hd m Hm).
Qed.

(** X12. When every identifier of the recency set names a message at or
    below the watermark (as after a reset), and an identifier always names
    a message with the same timestamp, the recency set excludes nothing
    that the watermark does not exclude already: the batch is the one
    selected with an empty recency set. A run keeps this relation between
    recency set and watermark, and so do [gtd_init] and the reset. *)
Theorem recency_covered_by_watermark date_of env w :
  guard_covered date_of w →
  dated date_of env →
  batch env w = select (scan env) (watermark w) []
  ∧ guard_covered date_of (final_world (processMessagesToDoc env w))
  ∧ guard_covered date_of (final_world (gtd_init w))
  ∧ guard_covered date_of (final_world (gtd_resetForReimport w)).
Proof.
  intros Hg Hd. split; [by eapply guard_redundant|].
  split; [by apply guard_run|]. split.
  - destruct (init_guard w) as [H1 H2]. intros x.
    unfold recency. rewrite H2, H1. apply Hg.
  - intros x Hx. by apply elem_of_nil in Hx.
Qed.

Lemma recency_covered_by_watermark_witness :
  let env := sample_env "doc_plain" [[msg_a; msg_b]] in
  let date_of := λ x : string, if decide (x = "a") then 10 else 30 in
  let w := {| props := {| gtd_last_iso := Some 15; gtd_consolidated_doc_id := None;
                          gtd_recent_ids := Some ["a"] |};
              drive := ∅; logged := [] |} in
  guard_covered date_of w ∧ dated date_of env
  ∧ id <$> batch env w = ["b"].
Proof.
  intros env date_of w.
  assert (guard_covered date_of w) as Hg.
  { intros x Hx. apply list_elem_of_singleton in Hx as ->. by vm_compute. }
  assert (dated date_of env) as Hd.
  { intros m Hm. change (scanned (scan env)) with [msg_a; msg_b] in Hm.
    apply elem_of_cons in Hm as [->|Hm]; [done|].
    by apply list_elem_of_singleton in Hm as ->. }
  split; [exact Hg|]. split; [exact Hd|].
  rewrite (proj1 (recency_covered_by_watermark date_of env w Hg Hd)).
  by vm_compute.
Defined.

Lemma plain_ok_inserted env w :
  OUTPUT_MODE env = "doc_plain" →
  is_ok (processMessagesToDoc env w) = true →
  inserted env w = batch env w.
Proof.
  intros Hmode Hok. unfold inserted. rewrite decide_True by done.
  destruct (prependBatchPlain env (batch env w) (destination w)
              (insertion_start env w)) as [u w2|e w2] eqn:E; [done|].
  simpl. destruct (decide (batch env w = [])) as [Hb|Hb]; [done|].
  destruct (run_plain_throw env w e w2 Hmode Hb E) as [Hr _].
  rewrite Hr in Hok. done.
Qed.

(** X13. Under the same two conditions, a [doc_plain] run that returned
    has nothing left to do: run again at once on the same mailbox, the
    script selects no message, so nothing is inserted twice. *)
Theorem plain_rerun_selects_nothing date_of env w :
  guard_covered date_of w →
  dated date_of env →
  OUTPUT_MODE env = "doc_plain" →
  is_ok (processMessagesToDoc env w) = true →
  batch env (final_world (processMessagesToDoc env w)) = [].
Proof.
  intros Hg Hd Hmode Hok.
  pose proof (guard_run date_of env w Hg Hd) as Hg'.
  pose proof (plain_ok_inserted env w Hmode Hok) as Hins.
  destruct (decide (batch env w = [])) as [Hb|Hb].
  - destruct (run_empty env w Hb) as [extra Hr]. rewrite Hr. simpl.
    rewrite <- Hb. apply batch_same_state. apply ensured_state.
  - destruct (run_selected env w Hb) as [[Hr Hp]|(Hno & _)]; [|congruence].
    set (w' := final_world (processMessagesToDoc env w)) in *.
    assert (watermark w' = max_date (watermark w) (batch env w)) as Hw.
    { unfold watermark at 1. rewrite Hp. simpl. by rewrite Hins. }
    rewrite (guard_redundant date_of env w' Hg' Hd).
    apply Permutation_nil_r. rewrite select_perm.
    assert (filter (is_new (watermark w') []) (scanned (scan env)) = [])
      as ->; [|done].
    destruct (filter (is_new (watermark w') []) (scanned (scan env)))
      as [|m rest] eqn:Ef; [done|]. exfalso.
    assert (m ∈ filter (is_new (watermark w') []) (scanned (scan env))) as Hmf
      by (rewrite Ef; left).
    apply list_elem_of_filter in Hmf as [[Hdate _] Hm].
    assert (item_of m ∈ batch env w) as Hin.
    { rewrite (guard_redundant date_of env w Hg Hd), select_perm.
      apply list_elem_of_fmap_2, list_elem_of_filter. split; [|done].
      split; [|apply not_elem_of_nil].
      pose proof (max_date_ge (watermark w) (batch env w)). lia. }
    pose proof (max_date_upper (watermark w) _ _ Hin) as Hup.
    simpl in Hup. lia.
Qed.

Lemma plain_rerun_selects_nothing_witness :
  let env := sample_env "doc_plain" [[msg_a; msg_b]; [msg_c]] in
  let date_of := λ x : string,
    if decide (x = "a") then 10 else if decide (x = "b") then 30 else 20 in
  guard_covered date_of blank ∧ dated date_of env
  ∧ is_ok (processMessagesToDoc env blank) = true
  ∧ batch env (final_world (processMessagesToDoc env blank)) = [].
Proof.
  intros env date_of.
  assert (guard_covered date_of blank) as Hg.
  { intros x Hx. by apply elem_of_nil in Hx. }
  assert (dated date_of env) as Hd.
  { intros m Hm. change (scanned (scan env)) with [msg_a; msg_b; msg_c] in Hm.
    apply elem_of_cons in Hm as [->|Hm]; [done|].
    apply elem_of_cons in Hm as [->|Hm]; [done|].
    by apply list_elem_of_singleton in Hm as ->. }
  assert (is_ok (processMessagesToDoc env blank) = true) as Hok by by vm_compute.
  split; [exact Hg|]. split; [exact Hd|]. split; [exact Hok|].
  exact (plain_rerun_selects_nothing date_of env blank Hg Hd eq_refl Hok).
Defined.

(** ** A destination that does not exist *)



(** ** [copyElementToBody] *)

#[global] Instance body_grows_po d : PreOrder (body_grows d).
Proof.
  split.
  - intros w f Hf. eauto.
  - intros w1 w2 w3 H12 H23 f Hf.
    destruct (H12 f Hf) as (f2 & Hf2 & Hp2).
    destruct (H23 f2 Hf2) as (f3 & Hf3 & Hp3).
    exists f3. split; [done|]. by etrans.
Qed.

Lemma append_checked_grows ae d d' el :
  respects (body_grows d) (append_checked ae d' el).
Proof.
  intros w f Hf. unfold append_checked. run.
  destruct (drive w !! d') as [f'|] eqn:E; simpl; [|eauto].
  destruct (ae el); simpl; [eauto|].
  destruct (decide (d' = d)) as [->|Hne].
  - rewrite lookup_insert_eq. eexists. split; [done|]. simpl.
    rewrite Hf in E. injection E as <-. by apply prefix_app_r.
  - rewrite lookup_insert_ne by done. eauto.
Qed.

Lemma copyElementToBody_grows ae d child dest :
  respects (body_grows d) (copyElementToBody ae child dest).
Proof.
  pose proof (append_checked_grows ae d dest) as Ha.
  destruct child as [h t|t|rows| |blob|[t|]]; simpl.
  - apply Ha.
  - apply Ha.
  - apply respects_for_of; [apply _|]. intros row. apply Ha.
  - apply Ha.
  - apply respects_try; [apply _|apply Ha|]. intros _. apply Ha.
  - apply respects_try; [apply _|apply Ha|]. intros _. apply Ha.
  - apply respects_try; [apply _|apply respects_throw, _|]. intros _. apply Ha.
Qed.

Lemma append_checked_ok ae w d f el :
  drive w !! d = Some f → ae el = None →
  append_checked ae d el w
  = Ok tt (with_file w d {| isTrashed := isTrashed f;
                            children := children f ++ [el] |}).
Proof. intros H He. unfold append_checked. run. by rewrite H, He. Qed.

Lemma appends_checked ae d el :
  ae el = None → appends d [el] (append_checked ae d el).
Proof. intros He w f Hf. by apply append_checked_ok. Qed.

Lemma appends_rows ae d (rows : list (list string)) :
  (∀ row, row ∈ rows → ae (Paragraph NORMAL (join_tab row)) = None) →
  appends d ((λ row, Paragraph NORMAL (join_tab row)) <$> rows)
    (for_of rows (λ row, append_checked ae d (Paragraph NORMAL (join_tab row)))).
Proof.
  induction rows as [|row rows IH]; intros Herr.
  - apply appends_ret.
  - rewrite fmap_cons. simpl for_of.
    apply (appends_seq d [_]).
    + apply appends_checked, Herr. left.
    + apply IH. intros r Hr. apply Herr. by right.
Qed.

Lemma appends_copyElementToBody ae d child :
  (∀ el, el ∈ flat_child child → ae el = None) →
  appends d (flat_child child) (copyElementToBody ae child d).
Proof.
  intros Herr.
  destruct child as [h t|t|rows| |blob|[t|]]; simpl in *.
  - apply appends_checked, Herr. left.
  - apply appends_checked, Herr. left.
  - apply appends_rows. intros row Hrow.
    apply Herr, list_elem_of_fmap. by exists row.
  - apply appends_checked, Herr. left.
  - intros w f Hf. erewrite try_ok; [done|].
    apply append_checked_ok; [done|]. apply Herr. left.
  - intros w f Hf. erewrite try_ok; [done|].
    apply append_checked_ok; [done|]. apply Herr. left.
  - intros w f Hf. erewrite try_throw; [|reflexivity].
    apply append_checked_ok; [done|]. apply Herr. left.
Qed.

(** X15. [copyElementToBody] only ever adds at the end of the
    destination: copying any children, whether the copy returns or raises,
    leaves what the destination held in place at the top. When no append
    raises, copying the children of a document in order adds them
    flattened (a table as one tab-separated paragraph per row), the very
    elements [prependMessageHtmlToDoc] puts on top. An image that cannot be
    copied is replaced by the paragraph [image error] and the copy
    returns, provided that paragraph itself can be appended. *)
Theorem copyElementToBody_spec ae (kids : list Element) dest w prior :
  drive w !! dest = Some prior →
  (∃ f', drive (final_world
                  (for_of kids (λ c, copyElementToBody ae c dest) w)) !! dest
         = Some f'
         ∧ children prior `prefix_of` children f')
  ∧ ((∀ el, el ∈ concat (flat_child <$> kids) → ae el = None) →
     for_of kids (λ c, copyElementToBody ae c dest) w
     = Ok tt (with_file w dest
                {| isTrashed := isTrashed prior;
                   children := children prior ++ concat (flat_child <$> kids) |}))
  ∧ (∀ blob e,
       ae (InlineImage blob) = Some e →
       ae (Paragraph NORMAL "[image error]") = None →
       copyElementToBody ae (InlineImage blob) dest w
       = Ok tt (with_file w dest
                  {| isTrashed := isTrashed prior;
                     children := children prior
                                 ++ [Paragraph NORMAL "[image error]"] |})).
Proof.
  intros Hd. split; [|split].
  - apply (respects_for_of (body_grows dest)); [|done].
    intros c. apply copyElementToBody_grows.
  - intros Herr.
    assert (∀ l : list Element,
              (∀ el, el ∈ concat (flat_child <$> l) → ae el = None) →
              appends dest (concat (flat_child <$> l))
                (for_of l (λ c, copyElementToBody ae c dest))) as Happ.
    { induction l as [|c l IH]; intros Hl.
      - apply appends_ret.
      - rewrite fmap_cons, concat_cons in *. simpl for_of.
        apply appends_seq.
        + apply appends_copyElementToBody. intros el Hel.
          apply Hl, elem_of_app. by left.
        + apply IH. intros el Hel. apply Hl, elem_of_app. by right. }
    by apply Happ.
  - intros blob e He Hph. simpl.
    erewrite try_throw; [by apply append_checked_ok|].
    unfold append_checked. run. by rewrite Hd, He.
Qed.

Lemma copyElementToBody_spec_witness :
  let ae := λ el, match el with
                  | InlineImage _ => Some "Exception: no blob"
                  | _ => None
                  end in
  let prior := {| isTrashed := false; children := [Paragraph NORMAL "old"] |} in
  let w := with_file blank 7%positive prior in
  drive w !! 7%positive = Some prior
  ∧ body_of (final_world
               (for_of [Table [["a"; "b"]; ["c"]]; PageBreak]
                       (λ c, copyElementToBody ae c 7%positive) w)) 7%positive
    = [Paragraph NORMAL "old"; Paragraph NORMAL ("a" +:+ TAB +:+ "b");
       Paragraph NORMAL "c"; PageBreak]
  ∧ body_of (final_world (copyElementToBody ae (InlineImage "png") 7%positive w))
            7%positive
    = [Paragraph NORMAL "old"; Paragraph NORMAL "[image error]"].
Proof.
  intros ae prior w.
  assert (drive w !! 7%positive = Some prior) as Hd by by vm_compute.
  split; [exact Hd|].
  destruct (copyElementToBody_spec ae [Table [["a"; "b"]; ["c"]]; PageBreak]
              7%positive w prior Hd) as (_ & Hflat & Himg).
  split.
  - rewrite Hflat; [by vm_compute|].
    intros el Hel. simpl in Hel.
    repeat (apply elem_of_cons in Hel as [->|Hel]; [done|]).
    by apply elem_of_nil in Hel.
  - by rewrite (Himg "png" "Exception: no blob" eq_refl eq_refl).
Defined.

(** ** docs_mode.gs: the orchestrator without the dedup ring *)

Section docs_mode_gs.
Import DocsModeGs.

Lemma lbind_done {A B} (m : L A) (k : A → L B) s a s' :
  m s = Done a s' → (m ≫= k) s = k a s'.
Proof. unfold mbind, L_bind, lbind. by intros ->. Qed.

Lemma lbind_raised {A B} (m : L A) (k : A → L B) s e s' :
  m s = Raised e s' → (m ≫= k) s = Raised e s'.
Proof. unfold mbind, L_bind, lbind. by intros ->. Qed.

Lemma ltry_done {A} (m : L A) h s a s' :
  m s = Done a s' → ltry m h s = Done a s'.
Proof. unfold ltry. by intros ->. Qed.

Lemma ltry_raised {A} (m : L A) h s e s' :
  m s = Raised e s' → ltry m h s = h e s'.
Proof. unfold ltry. by intros ->. Qed.

Lemma lift_ok {A} (m : M A) s a w :
  m (world s) = Ok a w → lift m s = Done a {| world := w; lines := lines s |}.
Proof. unfold lift. by intros ->. Qed.

Lemma lift_throw {A} (m : M A) s e w :
  m (world s) = Throw e w →
  lift m s = Raised e {| world := w; lines := lines s |}.
Proof. unfold lift. by intros ->. Qed.

(** The mode dispatch of [step] is the call of that mode. *)
Lemma dispatch_call env doc msg s :
  (if decide (OUTPUT_MODE env = "doc_plain") then
     lift (prependMessageToDocPlain env msg doc)
   else if decide (OUTPUT_MODE env = "doc_html") then
     lift (prependMessageHtmlToDoc env msg doc)
   else lthrow ("Error: Unknown OUTPUT_MODE: " +:+ OUTPUT_MODE env)) s
  = lift (call env doc msg) s.
Proof. unfold call. repeat case_decide; try done. by destruct s. Qed.

Lemma step_done env doc item n s u w1 :
  call env doc (message item) (world s) = Ok u w1 →
  step env doc item n s
  = Done (Z.max n (date item))
         {| world := w1;
            lines := lines s ++ [Processed (getSubject (message item))
                                           (getDate (message item))] |}.
Proof.
  intros Hc. unfold step. erewrite ltry_done; [done|].
  erewrite lbind_done; [|rewrite dispatch_call; by eapply lift_ok].
  erewrite lbind_done; [|reflexivity]. by rewrite max_step.
Qed.

Lemma step_failed env doc item n s e w1 :
  call env doc (message item) (world s) = Throw e w1 →
  step env doc item n s
  = Done n {| world := w1;
              lines := lines s ++ [Failed (getSubject (message item)) e] |}.
Proof.
  intros Hc. unfold step. erewrite ltry_raised; cycle 1.
  { erewrite lbind_raised; [done|]. rewrite dispatch_call. by eapply lift_throw. }
  by erewrite lbind_done.
Qed.

Lemma forEach_all_failed env doc e (items : list Entry) : ∀ n w ls,
  (∀ item, item ∈ items → call env doc (message item) w = Throw e w) →
  forEach items n (step env doc) {| world := w; lines := ls |}
  = Done n {| world := w; lines := ls ++ (failed_line e <$> items) |}.
Proof.
  induction items as [|item items IH]; intros n w ls Hall.
  - simpl. by rewrite app_nil_r.
  - simpl. erewrite lbind_done; cycle 1.
    { apply step_failed. simpl. apply Hall. left. }
    simpl. rewrite IH by (intros; apply Hall; by right).
    by rewrite <- app_assoc.
Qed.

Lemma collect_thread_gs W (t : Thread) acc :
  foldl (λ acc m, if bool_decide (getDate m > W)
                  then acc ++ [{| date := getDate m; message := m |}]
                  else acc) acc t
  = acc ++ ((λ m, {| date := getDate m; message := m |})
            <$> filter (λ m, getDate m > W) t).
Proof.
  revert acc. induction t as [|m t IH]; intros acc; simpl.
  - by rewrite app_nil_r.
  - rewrite IH, filter_cons. case_bool_decide.
    + rewrite decide_True by done. by rewrite fmap_cons, <- app_assoc.
    + by rewrite decide_False.
Qed.

Lemma collect_gs ts W :
  collect ts W
  = (λ m, {| date := getDate m; message := m |})
    <$> filter (λ m, getDate m > W) (scanned ts).
Proof.
  unfold collect, scanned.
  enough (∀ acc,
    foldl (λ acc t,
      foldl (λ acc m, if bool_decide (getDate m > W)
                      then acc ++ [{| date := getDate m; message := m |}]
                      else acc) acc t) acc ts
    = acc ++ ((λ m, {| date := getDate m; message := m |})
              <$> filter (λ m, getDate m > W) (concat ts))) as H
    by apply (H []).
  induction ts as [|t ts IH]; intros acc; simpl.
  - by rewrite app_nil_r.
  - rewrite IH, collect_thread_gs, filter_app, fmap_app, app_assoc. done.
Qed.

Lemma selected_perm env s :
  selected env s
  ≡ₚ (λ m, {| date := getDate m; message := m |})
     <$> filter (λ m, getDate m > watermark (world s)) (scanned (scan env)).
Proof.
  unfold selected. rewrite (js_sort_perm date). by rewrite collect_gs.
Qed.

Lemma selected_nil env s :
  selected env s = [] ↔ collect (scan env) (watermark (world s)) = [].
Proof.
  unfold selected. split; [|by intros ->].
  intros H. apply Permutation_nil_r. rewrite <- H.
  by rewrite (js_sort_perm date).
Qed.

(** The run, up to the loop and after it. *)
Lemma run_eq env s :
  processMessagesToDoc env s
  = match selected env s with
    | [] => Done tt {| world := settled s;
                       lines := lines s ++ prelude s ++ [NoNew] |}
    | _ :: _ =>
      match forEach (selected env s) (watermark (world s))
                    (step env (target s))
                    {| world := settled s;
                       lines := lines s ++ prelude s
                                ++ [Found (length (selected env s))] |} with
      | Done n s2 =>
        Done tt {| world := with_watermark (world s2) n;
                   lines := lines s2 ++ [StateUpdated n] |}
      | Raised e s2 => Raised e s2
      end
    end.
Proof.
  unfold processMessagesToDoc.
  erewrite lbind_done; [|reflexivity].
  erewrite lbind_done; [|reflexivity].
  fold (watermark (world s)). fold (handle (world s)).
  fold (scan env).
  assert (∀ X : Type, ∀ (k : DocId → L X),
    ((match handle (world s) with
      | Some d => mret d
      | None =>
        doc ← lift DocumentApp_create;
        lift (set_consolidated_doc doc);;
        log (CreatedNew doc);;
        mret doc
      end) ≫= k)
      {| world := world s;
         lines := lines s ++ [Starting (watermark (world s)) (handle (world s))] |}
    = k (target s) {| world := settled s; lines := lines s ++ prelude s |})
    as Hsettle.
  { intros X k. unfold target, settled, prelude.
    destruct (handle (world s)) as [d|] eqn:Eh.
    - erewrite lbind_done; [|reflexivity]. by destruct s.
    - erewrite lbind_done; [|reflexivity]. simpl.
      by rewrite <- app_assoc. }
  rewrite Hsettle.
  destruct (selected env s) as [|x l] eqn:Es.
  - apply selected_nil in Es. rewrite Es.
    unfold log. simpl. by rewrite <- app_assoc.
  - destruct (collect (scan env) (watermark (world s))) as [|y l'] eqn:Ec.
    { assert (selected env s = []) as Hn by by apply selected_nil. congruence. }
    rewrite <- Ec. fold (selected env s).
    erewrite lbind_done; [|reflexivity].
    cbn [lines world]. rewrite <- app_assoc, Es.
    unfold mbind, L_bind, lbind at 1.
    destruct (forEach _ _ _ _) as [n s2|e s2]; [|done].
    reflexivity.
Qed.

Lemma same_props_put w d f :
  same_props w {| props := props w; drive := <[d := f]> (drive w);
                  logged := logged w |}.
Proof. done. Qed.

Local Ltac fr l := eapply l; solve [apply _|apply same_props_put].
Local Hint Extern 1 (respects same_props _) =>
  first [fr respects_append | fr respects_insert0 | fr respects_new_doc
        | fr respects_getNumChildren | fr respects_getChild
        | fr respects_openById | fr respects_setTrashed] : frame.

Lemma call_props env doc msg : respects same_props (call env doc msg).
Proof.
  unfold call. repeat case_decide.
  - unfold prependMessageToDocPlain, DocumentApp_create, append_plain,
      copy_plain.
    auto 20 with frame.
  - fr respects_prependMessageHtmlToDoc.
  - apply respects_throw, _.
Qed.

(** The loop never raises, whatever the calls do; what the calls keep,
    it keeps. *)
Lemma forEach_returns env doc (P : World → Prop) (items : list Entry) :
  (∀ msg w, P w → P (final_world (call env doc msg w))) →
  ∀ n s, P (world s) →
  ∃ n' s', forEach items n (step env doc) s = Done n' s'
           ∧ P (world s')
           ∧ n ≤ n'
           ∧ (n' = n ∨ n' ∈ date <$> items).
Proof.
  intros Hcall. induction items as [|item items IH]; intros n s HP.
  - exists n, s. repeat split; [done|lia|by left].
  - cbn [forEach].
    pose proof (Hcall (message item) (world s) HP) as HP1.
    destruct (call env doc (message item) (world s)) as [u w1|e w1] eqn:Ec.
    + erewrite lbind_done; [|by eapply step_done].
      destruct (IH (Z.max n (date item))
                  {| world := w1;
                     lines := lines s ++ [Processed (getSubject (message item))
                                            (getDate (message item))] |} HP1)
        as (n' & s' & Hr & HP' & Hle & Hin).
      exists n', s'. split; [done|]. split; [done|]. split; [lia|].
      rewrite fmap_cons.
      destruct Hin as [->|Hin]; [|right; by right].
      destruct (Z.max_spec n (date item)) as [[_ ->]|[_ ->]];
        [right; left|by left].
    + erewrite lbind_done; [|by eapply step_failed].
      destruct (IH n {| world := w1;
                        lines := lines s ++ [Failed (getSubject (message item)) e] |}
                  HP1)
        as (n' & s' & Hr & HP' & Hle & Hin).
      exists n', s'. split; [done|]. split; [done|]. split; [done|].
      rewrite fmap_cons. destruct Hin as [->|Hin]; [by left|right; by right].
Qed.

Lemma selected_after env s item :
  item ∈ selected env s →
  date item > watermark (world s) ∧ message item ∈ scanned (scan env)
  ∧ date item = getDate (message item).
Proof.
  rewrite selected_perm. intros Hin.
  apply list_elem_of_fmap in Hin as (m & -> & Hm).
  apply list_elem_of_filter in Hm as [Hd Hm]. done.
Qed.

Lemma settled_props s :
  handle (settled s) = Some (target s)
  ∧ watermark (settled s) = watermark (world s)
  ∧ gtd_recent_ids (props (settled s)) = gtd_recent_ids (props (world s))
  ∧ logged (settled s) = logged (world s).
Proof.
  unfold settled, target. by destruct (handle (world s)) eqn:E.
Qed.

(** X16. The run of [docs_mode.gs] always returns, whatever the output
    mode, the destination and the calls for the messages do: every
    exception of a call is caught inside the loop. Afterwards the
    destination property names the document the run used, the recency
    property is as it was (this script never writes it), and the watermark
    has not moved back: it is the old one or the date of a selected
    message. *)
Theorem legacy_run_returns env s :
  ∃ s', processMessagesToDoc env s = Done tt s'
    ∧ handle (world s') = Some (target s)
    ∧ gtd_recent_ids (props (world s')) = gtd_recent_ids (props (world s))
    ∧ watermark (world s) ≤ watermark (world s')
    ∧ (watermark (world s') = watermark (world s)
       ∨ ∃ item, item ∈ selected env s ∧ watermark (world s') = date item).
Proof.
  rewrite run_eq.
  destruct (settled_props s) as (Hh & Hw & Hr & _).
  destruct (selected env s) as [|x l] eqn:Es.
  - eexists. split; [done|]. cbn [world].
    rewrite Hh, Hw, Hr. repeat split; [lia|by left].
  - rewrite <- Es.
    destruct (forEach_returns env (target s)
                (λ w, props w = props (settled s)) (selected env s))
      with (n := watermark (world s))
           (s := {| world := settled s;
                    lines := lines s ++ prelude s
                             ++ [Found (length (selected env s))] |})
      as (n' & s' & -> & HP & Hle & Hin); [|done|].
    { intros msg w HP. rewrite <- HP. apply call_props. }
    cbn beta in HP.
    eexists. split; [done|]. cbn [world].
    unfold with_watermark, handle, watermark at 2 4. cbn [props gtd_last_iso
      gtd_consolidated_doc_id gtd_recent_ids default].
    rewrite HP. fold (handle (settled s)). rewrite Hh, Hr.
    repeat split; [done|].
    destruct Hin as [->|Hin]; [by left|right].
    apply list_elem_of_fmap in Hin as (item & -> & Hin). eauto.
Qed.

(** When every call raises the same exception and leaves the world as it
    was, the run logs one failure per selected message and writes the old
    watermark back. *)
Lemma run_all_failed env s e :
  (∀ msg, call env (target s) msg (settled s) = Throw e (settled s)) →
  processMessagesToDoc env s
  = Done tt
      match selected env s with
      | [] => {| world := settled s;
                 lines := lines s ++ prelude s ++ [NoNew] |}
      | _ :: _ =>
        {| world := with_watermark (settled s) (watermark (world s));
           lines := lines s ++ prelude s
                    ++ Found (length (selected env s))
                       :: (failed_line e <$> selected env s)
                    ++ [StateUpdated (watermark (world s))] |}
      end.
Proof.
  intros Hall. rewrite run_eq.
  destruct (selected env s) as [|x l] eqn:Es; [done|].
  rewrite forEach_all_failed with (e := e) by (intros; apply Hall).
  cbn [world lines]. do 2 f_equal.
  by rewrite <- !app_assoc.
Qed.

(** X17. A destination property that names a document Drive does not hold
    is never repaired by [docs_mode.gs] in [doc_plain] mode: the run
    returns, every selected message is logged as failed with the lookup
    exception, and Drive, the destination property and the watermark are
    as before, so the next run selects the same messages and fails the
    same way. *)
Theorem legacy_stale_handle_spec env s d :
  OUTPUT_MODE env = "doc_plain" →
  handle (world s) = Some d →
  drive (world s) !! d = None →
  ∃ s', processMessagesToDoc env s = Done tt s'
    ∧ drive (world s') = drive (world s)
    ∧ handle (world s') = Some d
    ∧ watermark (world s') = watermark (world s)
    ∧ selected env s' = selected env s
    ∧ ∀ item, item ∈ selected env s →
        Failed (getSubject (message item)) not_found ∈ lines s'.
Proof.
  intros Hmode Hh Hd.
  assert (settled s = world s) as Hs by (unfold settled; by rewrite Hh).
  assert (target s = d) as Ht by (unfold target; by rewrite Hh).
  rewrite (run_all_failed env s not_found); cycle 1.
  { intros msg. rewrite Hs, Ht. unfold call. rewrite decide_True by done.
    unfold prependMessageToDocPlain. erewrite bind_throw; [done|].
    unfold openById. erewrite bind_throw; [done|]. run. by rewrite Hd. }
  eexists. split; [done|].
  destruct (selected env s) as [|x l] eqn:Es; cbn [world lines]; rewrite Hs.
  - split_and!; try done.
    intros item Hin. by apply elem_of_nil in Hin.
  - split_and!; try done.
    intros item Hin.
    rewrite !elem_of_app. right. right. rewrite elem_of_cons. right.
    rewrite elem_of_app. left.
    apply list_elem_of_fmap. by exists item.
Qed.

Lemma legacy_stale_handle_spec_witness :
  let env := sample_env "doc_plain" [[msg_a; msg_b]] in
  let w := {| props := {| gtd_last_iso := Some 5;
                          gtd_consolidated_doc_id := Some 7%positive;
                          gtd_recent_ids := None |};
              drive := ∅; logged := [] |} in
  let s := {| world := w; lines := [] |} in
  ∃ s', processMessagesToDoc env s = Done tt s'
        ∧ world s' = w
        ∧ Failed "first" not_found ∈ lines s'.
Proof.
  intros env w s.
  destruct (legacy_stale_handle_spec env s 7%positive)
    as (s' & Hr & _ & _ & _ & _ & Hf); [done..|].
  exists s'. split; [exact Hr|]. split.
  - vm_compute in Hr. by injection Hr as <-.
  - apply (Hf {| date := 10; message := msg_a |}). vm_compute.
    right. left.
Defined.

(** X18. An output mode that is neither [doc_plain] nor [doc_html] does
    not stop the run of [docs_mode.gs]: the error is raised inside the
    [try] of each message. The run returns, logs one failure per selected
    message, leaves Drive as it was once the destination was settled, and
    keeps the watermark. *)
Theorem legacy_unknown_mode_spec env s :
  OUTPUT_MODE env ≠ "doc_plain" →
  OUTPUT_MODE env ≠ "doc_html" →
  ∃ s', processMessagesToDoc env s = Done tt s'
    ∧ drive (world s') = drive (settled s)
    ∧ handle (world s') = Some (target s)
    ∧ watermark (world s') = watermark (world s)
    ∧ ∀ item, item ∈ selected env s →
        Failed (getSubject (message item))
               ("Error: Unknown OUTPUT_MODE: " +:+ OUTPUT_MODE env) ∈ lines s'.
Proof.
  intros Hp Hh.
  rewrite (run_all_failed env s
             ("Error: Unknown OUTPUT_MODE: " +:+ OUTPUT_MODE env)); cycle 1.
  { intros msg. unfold call. by rewrite !decide_False by done. }
  destruct (settled_props s) as (Hhs & Hw & _ & _).
  eexists. split; [done|].
  destruct (selected env s) as [|x l] eqn:Es; cbn [world lines].
  - split_and!; try done.
    intros item Hin. by apply elem_of_nil in Hin.
  - split_and!; try done.
    intros item Hin.
    rewrite !elem_of_app. right. right. rewrite elem_of_cons. right.
    rewrite elem_of_app. left.
    apply list_elem_of_fmap. by exists item.
Qed.

Lemma legacy_unknown_mode_spec_witness :
  let env := sample_env "pdf" [[msg_a; msg_b]] in
  let s := {| world := blank; lines := [] |} in
  ∃ s', processMessagesToDoc env s = Done tt s'
        ∧ body_of (world s') 1%positive = []
        ∧ Failed "first" "Error: Unknown OUTPUT_MODE: pdf" ∈ lines s'.
Proof.
  intros env s.
  destruct (legacy_unknown_mode_spec env s)
    as (s' & Hr & Hd & _ & _ & Hf); [done..|].
  exists s'. split; [exact Hr|]. split.
  - unfold body_of. rewrite Hd. by vm_compute.
  - apply (Hf {| date := 10; message := msg_a |}). vm_compute.
    right. left.
Defined.

(** The loop over a destination that exists, when the call for an item
    either puts a block on top of the destination through a temporary
    document, or raises and leaves the world as it was. [block] tells
    which. *)
Lemma forEach_blocks env doc (block : Entry → option (list Element))
    (items : list Entry) :
  (∀ item w f, drive w !! doc = Some f →
     match block item with
     | Some b => ∃ rendered,
         call env doc (message item) w
         = Ok tt (after_prepend w doc rendered b f)
     | None => ∃ e, call env doc (message item) w = Throw e w
     end) →
  ∀ n s f, drive (world s) !! doc = Some f →
  ∃ n' s',
    forEach items n (step env doc) s = Done n' s'
    ∧ n ≤ n'
    ∧ (∀ item, item ∈ items → is_Some (block item) → date item ≤ n')
    ∧ (n' = n
       ∨ ∃ item, item ∈ items ∧ is_Some (block item) ∧ n' = date item)
    ∧ props (world s') = props (world s)
    ∧ drive (world s') !! doc
      = Some {| isTrashed := isTrashed f;
                children :=
                  concat (reverse ((λ item, default [] (block item)) <$> items))
                  ++ children f |}
    ∧ (∀ d f', d ≠ doc → drive (world s) !! d = Some f' →
               drive (world s') !! d = Some f')
    ∧ (∀ l, l ∈ lines s → l ∈ lines s')
    ∧ (∀ item, item ∈ items → is_Some (block item) →
               processed_line item ∈ lines s').
Proof.
  intros Hcall. induction items as [|item items IH]; intros n s f Hf.
  - exists n, s. split; [done|]. split; [lia|].
    split; [intros item Hin; by apply elem_of_nil in Hin|].
    split; [by left|]. split; [done|].
    split; [rewrite Hf; by destruct f|].
    split; [done|]. split; [done|].
    intros item Hin; by apply elem_of_nil in Hin.
  - cbn [forEach]. specialize (Hcall item (world s) f Hf) as Hc.
    rewrite fmap_cons, reverse_cons, concat_app. cbn [concat].
    rewrite app_nil_r.
    destruct (block item) as [b|] eqn:Eb.
    + destruct Hc as [rendered Hc].
      destruct (after_prepend_facts (world s) doc rendered b f Hf)
        as (Hp & _ & Hmain & _ & _ & Hother).
      set (w1 := after_prepend _ _ _ _ _) in *.
      erewrite lbind_done; [|by eapply step_done].
      destruct (IH (Z.max n (date item))
                  {| world := w1;
                     lines := lines s ++ [processed_line item] |}
                  _ Hmain) as
        (n' & s' & Hr & Hle & Hup & Hat & Hp' & Hdoc & Hkeep & Hold & Hnew).
      cbn [world lines] in *.
      exists n', s'. split; [exact Hr|]. split; [lia|]. split.
      { intros it Hin Hb.
        apply elem_of_cons in Hin as [->|Hin]; [lia|by apply Hup]. }
      split.
      { destruct Hat as [->|(it & Hin & Hb & ->)].
        - destruct (Z.max_spec n (date item)) as [[_ ->]|[_ ->]];
            [right|by left].
          exists item. split; [left|]. by rewrite Eb.
        - right. exists it. split; [by right|done]. }
      split; [congruence|]. split.
      { rewrite Hdoc. cbn [isTrashed children default].
        by rewrite <- app_assoc. }
      split.
      { intros d f' Hd Hd'. apply Hkeep; [done|].
        rewrite Hother; [done|done|].
        intros ->. pose proof (new_id_fresh (world s)). congruence. }
      split.
      { intros l Hl. apply Hold, elem_of_app. by left. }
      intros it Hin Hb. apply elem_of_cons in Hin as [->|Hin]; [|by apply Hnew].
      apply Hold, elem_of_app. right. left.
    + destruct Hc as [e Hc].
      erewrite lbind_done; [|by eapply step_failed].
      destruct (IH n {| world := world s;
                        lines := lines s ++ [Failed (getSubject (message item)) e] |}
                  _ Hf) as
        (n' & s' & Hr & Hle & Hup & Hat & Hp' & Hdoc & Hkeep & Hold & Hnew).
      cbn [world lines] in *.
      exists n', s'. split; [exact Hr|]. split; [lia|]. split.
      { intros it Hin Hb.
        apply elem_of_cons in Hin as [->|Hin]; [|by apply Hup].
        rewrite Eb in Hb. by destruct Hb. }
      split.
      { destruct Hat as [->|(it & Hin & Hb & ->)]; [by left|].
        right. exists it. split; [by right|done]. }
      split; [done|]. split.
      { rewrite Hdoc. cbn [default]. by rewrite app_nil_r. }
      split; [done|]. split.
      { intros l Hl. apply Hold, elem_of_app. by left. }
      intros it Hin Hb. apply elem_of_cons in Hin as [->|Hin]; [|by apply Hnew].
      rewrite Eb in Hb. by destruct Hb.
Qed.

Lemma nothing_selected env s n :
  (∀ item, item ∈ selected env s → date item ≤ n) →
  watermark (world s) ≤ n →
  ∀ s', watermark (world s') = n → selected env s' = [].
Proof.
  intros Hup Hle s' Hw.
  destruct (selected env s') as [|x l] eqn:Es; [done|exfalso].
  assert (x ∈ selected env s') as Hx by (rewrite Es; left).
  destruct (selected_after _ _ _ Hx) as (Hd & Hm & Hdm).
  assert (x ∈ selected env s) as Hx'.
  { rewrite selected_perm. apply list_elem_of_fmap. exists (message x).
    split; [destruct x; cbn in *; by subst|].
    apply list_elem_of_filter. split; [lia|done]. }
  specialize (Hup x Hx'). lia.
Qed.

(** X19. In [doc_plain] mode, with a destination that exists and a
    document service that accepts the placeholder, the run of
    [docs_mode.gs] processes every selected message: each is put on top of
    the destination in turn, newest first, so the destination ends with
    the blocks in the reverse order, the oldest selected message on top,
    above the prior content. The watermark ends at or after the date of
    every selected message, and an immediate second run selects nothing. *)
Theorem legacy_plain_run_spec env s prior :
  OUTPUT_MODE env = "doc_plain" →
  placeholders_ok env →
  drive (settled s) !! target s = Some prior →
  ∃ s', processMessagesToDoc env s = Done tt s'
    ∧ body_of (world s') (target s)
      = concat (reverse (entry_block env <$> selected env s))
        ++ children prior
    ∧ (∀ item, item ∈ selected env s → date item ≤ watermark (world s'))
    ∧ (∀ item, item ∈ selected env s → processed_line item ∈ lines s')
    ∧ selected env s' = [].
Proof.
  intros Hmode Hph Hprior. rewrite run_eq.
  destruct (settled_props s) as (Hh & Hw & _ & _).
  destruct (selected env s) as [|x l] eqn:Es.
  - eexists. split; [done|]. cbn [world lines].
    split; [unfold body_of; by rewrite Hprior|].
    split; [intros item Hin; by apply elem_of_nil in Hin|].
    split; [intros item Hin; by apply elem_of_nil in Hin|].
    unfold selected. cbn [world]. rewrite Hw. exact Es.
  - rewrite <- Es.
    edestruct (forEach_blocks env (target s) (λ item, Some (entry_block env item))
                 (selected env s)) with (n := watermark (world s)) as
      (n' & s' & -> & Hle & Hup & _ & Hp' & Hdoc & _ & _ & Hnew);
      [|exact Hprior|].
    { intros item w f Hf. eexists. unfold call.
      rewrite decide_True by done.
      by apply prependMessageToDocPlain_ok. }
    cbn [world lines default] in *.
    eexists. split; [done|]. cbn [world lines].
    assert (watermark (with_watermark (world s') n') = n') as Hwm by done.
    split; [unfold body_of, with_watermark; cbn [drive]; by rewrite Hdoc|].
    split; [rewrite Hwm; intros; by apply Hup|].
    split.
    { intros item Hin. apply elem_of_app. left. by apply Hnew. }
    eapply nothing_selected; [|exact Hle|exact Hwm].
    intros; by apply Hup.
Qed.

Lemma legacy_plain_run_spec_witness :
  let env := refusing_env [[msg_a; msg_b]] in
  let s := {| world := blank; lines := [] |} in
  OUTPUT_MODE env = "doc_plain"
  ∧ placeholders_ok env
  ∧ ∃ s', processMessagesToDoc env s = Done tt s'
          ∧ length (body_of (world s') 1%positive) = 18%nat
          ∧ nth_error (body_of (world s') 1%positive) 1
            = Some (Paragraph NORMAL "Subject: first")
          ∧ watermark (world s') = 30.
Proof.
  intros env s.
  assert (placeholders_ok env) as Hph by (intros e; reflexivity).
  split; [done|]. split; [exact Hph|].
  destruct (legacy_plain_run_spec env s empty_doc)
    as (s' & Hr & Hbody & _ & _ & _); [done|exact Hph|by vm_compute|].
  exists s'. split; [exact Hr|].
  change (target s) with 1%positive in Hbody. rewrite Hbody.
  split; [by vm_compute|]. split; [by vm_compute|].
  vm_compute in Hr. by injection Hr as <-.
Defined.

(** X20. In [doc_html] mode, with a destination that exists and a
    document service that accepts the placeholder, the run of
    [docs_mode.gs] skips a message whose conversion raises and goes on:
    the destination ends with the converted messages only, the oldest on
    top. The watermark covers every converted message, so a message whose
    conversion raised is not selected again once a message at least as
    recent was converted: it never reaches the destination. When no
    conversion returns, the watermark stays and the next run selects the
    same messages. *)
Theorem legacy_html_run_spec env s prior :
  OUTPUT_MODE env = "doc_html" →
  placeholders_ok env →
  drive (settled s) !! target s = Some prior →
  ∃ s', processMessagesToDoc env s = Done tt s'
    ∧ body_of (world s') (target s)
      = concat (reverse (entry_html_block env <$> selected env s))
        ++ children prior
    ∧ (∀ item, item ∈ selected env s →
         is_Some (converted env (message item)) →
         date item ≤ watermark (world s')
         ∧ processed_line item ∈ lines s')
    ∧ (∀ item item',
         item ∈ selected env s → item' ∈ selected env s →
         converted env (message item) = None →
         is_Some (converted env (message item')) →
         date item ≤ date item' →
         item ∉ selected env s')
    ∧ ((∀ item, item ∈ selected env s → converted env (message item) = None) →
       selected env s' = selected env s).
Proof.
  intros Hmode Hph Hprior. rewrite run_eq.
  destruct (settled_props s) as (Hh & Hw & _ & _).
  destruct (selected env s) as [|x l] eqn:Es.
  - eexists. split; [done|]. cbn [world lines].
    split; [unfold body_of; by rewrite Hprior|].
    split; [intros item Hin; by apply elem_of_nil in Hin|].
    split; [intros item item' Hin; by apply elem_of_nil in Hin|].
    intros _. unfold selected. cbn [world]. rewrite Hw. exact Es.
  - rewrite <- Es.
    edestruct (forEach_blocks env (target s)
                 (λ item, html_block env <$> converted env (message item))
                 (selected env s)) with (n := watermark (world s)) as
      (n' & s' & -> & Hle & Hup & Hat & Hp' & Hdoc & _ & _ & Hnew);
      [|exact Hprior|].
    { intros item w f Hf. unfold call.
      rewrite decide_False by (rewrite Hmode; discriminate).
      rewrite decide_True by done.
      destruct (converted env (message item)) as [kids|] eqn:Ec; cbn [fmap option_fmap option_map].
      - exists kids. by apply prependMessageHtmlToDoc_ok.
      - destruct (converted_none _ _ Ec) as [e He]. exists e.
        by apply convert_failure. }
    cbn [world lines] in *.
    eexists. split; [done|]. cbn [world lines].
    assert (watermark (with_watermark (world s') n') = n') as Hwm by done.
    assert (∀ item, is_Some (converted env (message item)) →
                    is_Some (html_block env <$> converted env (message item)))
      as Hsome by (intros item [kids ->]; by eexists).
    split.
    { unfold body_of, with_watermark; cbn [drive]. rewrite Hdoc.
      cbn [children]. do 3 f_equal.
      apply list_fmap_ext. intros _ item _. unfold entry_html_block.
      by destruct (converted env (message item)). }
    split.
    { intros item Hin Hc. rewrite Hwm.
      split; [by apply Hup, Hsome|].
      apply elem_of_app. left. by apply Hnew, Hsome. }
    split.
    { intros item item' Hin Hin' Hc Hc' Hdate Hsel.
      apply selected_after in Hsel as (Hd & _ & _).
      cbn [world] in Hd. rewrite Hwm in Hd.
      specialize (Hup item' Hin' (Hsome _ Hc')). lia. }
    intros Hnone. unfold selected at 1. cbn [world]. rewrite Hwm.
    destruct Hat as [->|(item & Hin & [b Hb] & _)]; [done|exfalso].
    rewrite (Hnone item Hin) in Hb. done.
Qed.

Lemma legacy_html_run_spec_witness :
  let env := sample_env "doc_html" [[msg_a; msg_b; msg_d]] in
  let s := {| world := blank; lines := [] |} in
  OUTPUT_MODE env = "doc_html"
  ∧ placeholders_ok env
  ∧ ∃ s', processMessagesToDoc env s = Done tt s'
          ∧ body_of (world s') 1%positive
            = [Paragraph NORMAL "converted"; Paragraph NORMAL "converted"]
          ∧ {| date := 30; message := msg_b |} ∈ selected env s
          ∧ {| date := 30; message := msg_b |} ∉ selected env s'.
Proof.
  intros env s.
  assert (placeholders_ok env) as Hph by (intros e; reflexivity).
  split; [done|]. split; [exact Hph|].
  destruct (legacy_html_run_spec env s empty_doc)
    as (s' & Hr & Hbody & _ & Hdrop & _); [done|exact Hph|by vm_compute|].
  exists s'. split; [exact Hr|].
  change (target s) with 1%positive in Hbody. rewrite Hbody.
  split; [by vm_compute|].
  assert ({| date := 30; message := msg_b |} ∈ selected env s) as Hb
    by (vm_compute; right; left).
  split; [exact Hb|].
  apply (Hdrop _ {| date := 40; message := msg_d |});
    [exact Hb|vm_compute; left|reflexivity|by eexists|done].
Defined.

(** ** docs_mode.gs: [gtd_init] *)

(** X21. [gtd_init] of [docs_mode.gs] always returns. It seeds the
    watermark when none is persisted and creates a destination only when
    the destination property is empty: a property that names a document
    Drive does not hold is kept as it is. Run again on its own result it
    changes nothing, and it never changes what a run selects. *)
Theorem legacy_gtd_init_spec s :
  ∃ s', gtd_init s = Done tt s'
    ∧ world s' = with_watermark (settled s) (watermark (world s))
    ∧ (∀ d, handle (world s) = Some d →
            handle (world s') = Some d ∧ drive (world s') = drive (world s))
    ∧ (∀ env, selected env s' = selected env s)
    ∧ ∀ ls, world (final_state (gtd_init {| world := world s'; lines := ls |}))
            = world s'.
Proof.
  destruct s as [[[iso doc rec] drv lg] ls].
  destruct iso as [t|], doc as [d|];
    (eexists; split; [reflexivity|]);
    (split; [reflexivity|]);
    (split; [intros d' Hd; cbn in Hd; try done; by injection Hd as <-|]);
    (split; [done|done]).
Qed.

End docs_mode_gs.

(** * What the copies leave in the destination *)

(** ** Copy loops, returning or raising *)

Lemma with_file_same w d f :
  drive w !! d = Some f →
  with_file w d {| isTrashed := isTrashed f; children := [] ++ children f |} = w.
Proof. intros H. apply with_file_id. rewrite H. by destruct f. Qed.

Lemma leaves_ret d : leaves d {| landed := []; raised := None |} (mret tt).
Proof. intros w f Hf. unfold finish. cbn. by rewrite with_file_same. Qed.

Lemma leaves_insert0 env d el : leaves d (insertion env el) (insert0 env d el).
Proof.
  intros w f Hf. unfold insertion, finish.
  destruct (insert_error env el) as [e|] eqn:E; cbn [landed raised].
  - rewrite with_file_same by done. by eapply insert0_throw.
  - by apply insert0_ok.
Qed.

Lemma leaves_for_of {A} d (step : A → Outcome) (l : list A) body :
  (∀ x, leaves d (step x) (body x)) →
  leaves d (each step l) (for_of l body).
Proof.
  intros Hb. induction l as [|x l IH]; [apply leaves_ret|].
  intros w f Hf. cbn [for_of each].
  specialize (Hb x w f Hf). unfold finish in Hb.
  destruct (raised (step x)) as [e|] eqn:Ex.
  - erewrite bind_throw; [|exact Hb]. unfold finish. by rewrite Ex.
  - erewrite bind_ok; [|exact Hb].
    rewrite (IH _ _ (with_file_lookup _ _ _)).
    cbn [landed raised isTrashed children].
    by rewrite with_file_twice, app_assoc.
Qed.

Lemma leaves_try d o h' m h :
  leaves d o m →
  (∀ e, leaves d (h' e) (h e)) →
  leaves d (caught o h') (try_catch m h).
Proof.
  intros Hm Hh w f Hf. specialize (Hm w f Hf). unfold finish, caught in *.
  destruct (raised o) as [e|] eqn:Eo.
  - erewrite try_throw; [|exact Hm].
    rewrite (Hh e _ _ (with_file_lookup _ _ _)).
    cbn [landed raised isTrashed children].
    by rewrite with_file_twice, app_assoc.
  - erewrite try_ok; [|exact Hm]. by rewrite Eo.
Qed.

Lemma leaves_copy_plain env d child :
  leaves d (insertion env (copied_plain child)) (copy_plain env d child).
Proof. rewrite copy_plain_eq. apply leaves_insert0. Qed.

Lemma leaves_copy_html env d child :
  leaves d (copy_html_outcome env child) (copy_html env d child).
Proof.
  destruct child; try apply leaves_insert0.
  apply leaves_for_of. intros row. apply leaves_insert0.
Qed.

Lemma leaves_html_child env d child :
  leaves d (html_child_outcome env child)
    (try_catch (copy_html env d child)
               (λ e, insert0 env d (insert_failed e))).
Proof.
  apply leaves_try; [apply leaves_copy_html|].
  intros e. apply leaves_insert0.
Qed.

(** A loop that copies the first [n] children of a temporary document
    into the destination, from the last one up. *)
Lemma copy_loop_leaves (step : Element → M unit) (g : Element → Outcome)
    tmp main ft n :
  (∀ c, leaves main (g c) (step c)) →
  ∀ w fm,
  tmp ≠ main →
  drive w !! tmp = Some ft →
  drive w !! main = Some fm →
  (n ≤ length (children ft))%nat →
  let o := each g (reverse (take n (children ft))) in
  for_down n (λ i, child ← getChild tmp i; step child) w
  = finish o (with_file w main
                {| isTrashed := isTrashed fm;
                   children := landed o ++ children fm |}).
Proof.
  intros Hstep. induction n as [|n IH]; intros w fm Hne Ht Hm Hn o; subst o.
  - cbn. unfold finish. cbn. by rewrite with_file_same.
  - destruct (lookup_lt_is_Some_2 (children ft) n) as [c Hc]; [lia|].
    rewrite (take_S_r _ _ _ Hc), reverse_app.
    change (reverse [c] ++ reverse (take n (children ft)))
      with (c :: reverse (take n (children ft))).
    cbn [for_down each].
    pose proof (Hstep c w fm Hm) as Hc'. unfold finish in Hc'.
    destruct (raised (g c)) as [e|] eqn:Eg.
    + erewrite bind_throw; cycle 1.
      { erewrite bind_ok; [|by eapply getChild_ok]. exact Hc'. }
      unfold finish. by rewrite Eg.
    + erewrite bind_ok; cycle 1.
      { erewrite bind_ok; [|by eapply getChild_ok]. exact Hc'. }
      erewrite IH; [|done|by rewrite with_file_lookup_ne
                    |apply with_file_lookup|lia].
      cbn [landed raised isTrashed children].
      by rewrite with_file_twice, app_assoc.
Qed.

(** ** The prepends, returning or raising *)

(** [prependBatchPlain] on a destination that exists, in every case. *)
Lemma prependBatchPlain_eq env messages main w prior :
  drive w !! main = Some prior →
  let rendered := concat (render_plain env ∘ message <$> messages) in
  let o := plain_outcome env messages in
  prependBatchPlain env messages main w
  = match raised o with
    | None => Ok tt (after_prepend w main rendered (landed o) prior)
    | Some e => Throw e (after_abort w main rendered (landed o) prior)
    end.
Proof.
  intros Hm rendered o. pose proof (main_not_new _ _ _ Hm) as Hne.
  unfold prependBatchPlain.
  erewrite bind_ok; [|unfold openById; erewrite bind_ok; [done|]; run; by rewrite Hm].
  erewrite bind_ok; [|reflexivity].
  fold (new_id w).
  change {| props := props w; drive := <[new_id w := _]> (drive w);
            logged := logged w |}
    with (with_file w (new_id w) empty_doc).
  erewrite bind_ok; [|apply appends_batch, with_file_lookup].
  rewrite with_file_twice.
  change (children empty_doc ++ _) with rendered.
  change (isTrashed empty_doc) with false.
  erewrite bind_ok; [|unfold getNumChildren; run; by rewrite lookup_insert_eq].
  cbn [children].
  pose proof (copy_loop_leaves (copy_plain env main)
                (λ c, insertion env (copied_plain c))
                (new_id w) main {| isTrashed := false; children := rendered |}
                (length rendered) (leaves_copy_plain env main)
                (with_file w (new_id w)
                   {| isTrashed := false; children := rendered |}) prior
                Hne (with_file_lookup _ _ _)) as Hloop.
  cbn [children] in Hloop. rewrite firstn_all in Hloop.
  change (each _ (reverse rendered)) with o in Hloop.
  rewrite with_file_lookup_ne in Hloop by done.
  specialize (Hloop Hm (le_n _)). cbn zeta in Hloop. unfold finish in Hloop.
  destruct (raised o) as [e|] eqn:Eo.
  - erewrite bind_throw; [|exact Hloop]. done.
  - erewrite bind_ok; [|exact Hloop].
    unfold setTrashed.
    erewrite bind_ok; cycle 1.
    { run. rewrite lookup_insert_ne by done. by rewrite lookup_insert_eq. }
    done.
Qed.

(** [prependMessageHtmlToDoc] on a destination that exists, once the
    conversion returned. *)
Lemma prependMessageHtmlToDoc_eq env msg main w prior kids :
  convert_html env (fullHtml env msg) = inr kids →
  drive w !! main = Some prior →
  let o := html_outcome env kids in
  prependMessageHtmlToDoc env msg main w
  = match raised o with
    | None => Ok tt (after_prepend w main kids (landed o) prior)
    | Some e => Throw e (after_abort w main kids (landed o) prior)
    end.
Proof.
  intros E Hm o. pose proof (main_not_new _ _ _ Hm) as Hne.
  unfold prependMessageHtmlToDoc.
  erewrite bind_ok; [|unfold convertHtmlToDoc; rewrite E; reflexivity].
  fold (new_id w).
  change {| props := props w; drive := <[new_id w := _]> (drive w);
            logged := logged w |}
    with (with_file w (new_id w) {| isTrashed := false; children := kids |}).
  erewrite bind_ok;
    [|unfold openById; erewrite bind_ok; [done|]; run;
      by rewrite lookup_insert_eq].
  erewrite bind_ok;
    [|unfold openById; erewrite bind_ok; [done|]; run;
      by rewrite lookup_insert_ne, Hm].
  erewrite bind_ok; [|unfold getNumChildren; run; by rewrite lookup_insert_eq].
  cbn [children].
  pose proof (copy_loop_leaves
                (λ child, try_catch (copy_html env main child)
                            (λ e, insert0 env main (insert_failed e)))
                (html_child_outcome env)
                (new_id w) main {| isTrashed := false; children := kids |}
                (length kids) (leaves_html_child env main)
                (with_file w (new_id w)
                   {| isTrashed := false; children := kids |}) prior
                Hne (with_file_lookup _ _ _)) as Hloop.
  cbn [children] in Hloop. rewrite firstn_all in Hloop.
  change (each _ (reverse kids)) with o in Hloop.
  rewrite with_file_lookup_ne in Hloop by done.
  specialize (Hloop Hm (le_n _)). cbn zeta in Hloop. unfold finish in Hloop.
  destruct (raised o) as [e|] eqn:Eo.
  - erewrite bind_throw; [|exact Hloop]. done.
  - erewrite bind_ok; [|exact Hloop].
    unfold setTrashed.
    erewrite bind_ok; cycle 1.
    { run. rewrite lookup_insert_ne by done. by rewrite lookup_insert_eq. }
    done.
Qed.

(** ** What the outcomes say *)

Lemma insertion_ok env el :
  insert_error env el = None →
  insertion env el = {| landed := [el]; raised := None |}.
Proof. unfold insertion. by intros ->. Qed.

Lemma insertion_err env el e :
  insert_error env el = Some e →
  insertion env el = {| landed := []; raised := Some e |}.
Proof. unfold insertion. by intros ->. Qed.

(** A loop of bare insertions inserts a prefix of its list and raises at
    the first element that is refused. *)
Lemma each_insertion env {A} (f : A → Element) (l : list A) :
  let o := each (λ c, insertion env (f c)) l in
  ∃ before rest,
    l = before ++ rest
    ∧ landed o = reverse (f <$> before)
    ∧ (∀ c, c ∈ before → insert_error env (f c) = None)
    ∧ match raised o with
      | None => rest = []
      | Some e => ∃ c rest', rest = c :: rest' ∧ insert_error env (f c) = Some e
      end.
Proof.
  induction l as [|x l IH]; cbn [each].
  - exists [], []. split; [done|]. split; [done|].
    split; [|done]. intros c Hc. by apply elem_of_nil in Hc.
  - destruct (insert_error env (f x)) as [e|] eqn:E;
      [rewrite !(insertion_err _ _ _ E)|rewrite !(insertion_ok _ _ E)];
      cbn [raised landed].
    + exists [], (x :: l). split; [done|]. split; [done|].
      split; [intros c Hc; by apply elem_of_nil in Hc|]. eauto.
    + destruct IH as (before & rest & -> & Hl & Hok & Hr).
      exists (x :: before), rest. split; [done|]. split.
      { rewrite Hl, fmap_cons, reverse_cons. done. }
      split; [|done].
      intros c Hc. apply elem_of_cons in Hc as [->|Hc]; [done|by apply Hok].
Qed.

(** What [prependBatchPlain] leaves is the lower part of the rendering of
    the batch, below the first element, from the bottom, that the
    destination refused. *)
Lemma plain_outcome_spec env messages :
  let o := plain_outcome env messages in
  ∃ above,
    plain_batch env messages = above ++ landed o
    ∧ (∀ el, el ∈ landed o → insert_error env el = None)
    ∧ match raised o with
      | None => above = []
      | Some e => ∃ el, last above = Some el ∧ insert_error env el = Some e
      end.
Proof.
  intros o. subst o. unfold plain_outcome.
  destruct (each_insertion env copied_plain
              (reverse (concat (render_plain env ∘ message <$> messages))))
    as (before & rest & Hsplit & Hl & Hok & Hr).
  exists (copied_plain <$> reverse rest).
  assert (concat (render_plain env ∘ message <$> messages)
          = reverse rest ++ reverse before) as Hrend.
  { rewrite <- reverse_app, <- Hsplit. by rewrite reverse_involutive. }
  split.
  { rewrite Hl, plain_batch_copied, Hrend, fmap_app, !fmap_reverse. done. }
  split.
  { rewrite Hl. intros el Hel. rewrite elem_of_reverse in Hel.
    apply list_elem_of_fmap in Hel as (c & -> & Hc). by apply Hok. }
  destruct (raised _) as [e|].
  - destruct Hr as (c & rest' & -> & Hc).
    exists (copied_plain c). split; [|done].
    rewrite reverse_cons, fmap_app. apply last_snoc.
  - by rewrite Hr.
Qed.

(** A loop that did not raise left what each of its steps left. *)
Lemma each_returns {A} (step : A → Outcome) (l : list A) :
  raised (each step l) = None ↔ ∀ x, x ∈ l → raised (step x) = None.
Proof.
  induction l as [|x l IH]; cbn [each].
  - split; [|done]. intros _ x Hx. by apply elem_of_nil in Hx.
  - destruct (raised (step x)) as [e|] eqn:E; cbn [raised].
    + rewrite E. split; [done|]. intros H.
      specialize (H x ltac:(left)). congruence.
    + rewrite IH. split.
      * intros H y Hy. apply elem_of_cons in Hy as [->|Hy]; [done|by apply H].
      * intros H y Hy. apply H. by right.
Qed.

Lemma each_landed {A} (step : A → Outcome) (l : list A) :
  raised (each step l) = None →
  landed (each step l) = concat (reverse (landed ∘ step <$> l)).
Proof.
  induction l as [|x l IH]; cbn [each]; [done|].
  destruct (raised (step x)) as [e|] eqn:E; cbn [raised landed].
  - rewrite E. done.
  - intros H. rewrite IH by done.
    rewrite fmap_cons, reverse_cons, concat_app. cbn. by rewrite app_nil_r.
Qed.

Lemma table_rows_outcome env rows : ∀ acc,
  let o := each (λ row, insertion env (Paragraph NORMAL (join_tab row))) rows in
  table_rows env rows acc
  = match raised o with
    | None => landed o ++ acc
    | Some e => insert_failed e :: landed o ++ acc
    end.
Proof.
  induction rows as [|row rows IH]; intros acc; cbn [each table_rows]; [done|].
  destruct (insert_error env (Paragraph NORMAL (join_tab row))) as [e|] eqn:E;
    [rewrite !(insertion_err _ _ _ E)|rewrite !(insertion_ok _ _ E)];
    cbn [raised landed]; [done|].
  rewrite IH. cbn zeta.
  destruct (raised _); by rewrite <- app_assoc.
Qed.

(** A child whose guarded copy did not raise left the element, or the
    placeholder in its place. *)
Lemma html_child_returned env child :
  raised (html_child_outcome env child) = None →
  landed (html_child_outcome env child) = html_child env child.
Proof.
  assert (∀ el,
    raised (caught (insertion env el) (λ e, insertion env (insert_failed e)))
    = None →
    landed (caught (insertion env el) (λ e, insertion env (insert_failed e)))
    = [guarded env el]) as Hins.
  { intros el. unfold caught, insertion, guarded.
    destruct (insert_error env el) as [e|]; cbn [raised landed]; [|done].
    destruct (insert_error env (insert_failed e)); cbn [raised landed]; done. }
  unfold html_child_outcome.
  destruct child as [h t|t|rows| |blob|t]; try apply Hins.
  cbn [copy_html_outcome html_child].
  rewrite (table_rows_outcome env (reverse rows) []). cbn zeta.
  unfold caught.
  destruct (raised (each _ (reverse rows))) as [e|]; cbn [raised landed].
  - unfold insertion.
    destruct (insert_error env (insert_failed e)); cbn [raised landed]; [done|].
    intros _. by rewrite app_nil_r.
  - intros _. by rewrite app_nil_r.
Qed.

Lemma html_child_guarded env child :
  placeholders_ok env → raised (html_child_outcome env child) = None.
Proof.
  intros Hph. unfold html_child_outcome, caught.
  destruct (raised (copy_html_outcome env child)) as [e|] eqn:E; [|done].
  cbn [raised]. unfold insertion. by rewrite Hph.
Qed.

(** A call whose copy loop did not raise left the block of the message,
    placeholders included. *)
Lemma html_outcome_returned env kids :
  raised (html_outcome env kids) = None →
  landed (html_outcome env kids) = html_block env kids.
Proof.
  intros H. unfold html_outcome in *. rewrite each_landed by done.
  rewrite fmap_reverse, reverse_involutive. unfold html_block. f_equal.
  apply list_fmap_ext. intros i c Hc. cbn.
  apply html_child_returned.
  apply (proj1 (each_returns _ _) H).
  apply elem_of_reverse. by eapply list_elem_of_lookup_2.
Qed.

Lemma html_outcome_guarded env kids :
  placeholders_ok env → raised (html_outcome env kids) = None.
Proof.
  intros Hph. apply each_returns. intros c _. by apply html_child_guarded.
Qed.

(** ** The destination after a run *)

Lemma after_abort_facts w main rendered block prior :
  drive w !! main = Some prior →
  let w' := after_abort w main rendered block prior in
  props w' = props w
  ∧ drive w' !! main = Some {| isTrashed := isTrashed prior;
                               children := block ++ children prior |}
  ∧ drive w' !! new_id w = Some {| isTrashed := false; children := rendered |}.
Proof.
  intros Hm w'. pose proof (main_not_new _ _ _ Hm) as Hne.
  split; [done|]. split; [apply with_file_lookup|].
  unfold w', after_abort. rewrite with_file_lookup_ne by done.
  apply with_file_lookup.
Qed.

(** One call of [prependMessageHtmlToDoc] on a destination that exists. *)
Lemma prependMessageHtmlToDoc_outcome env msg main w prior :
  drive w !! main = Some prior →
  let o := message_outcome env msg in
  ∃ w', prependMessageHtmlToDoc env msg main w = finish o w'
        ∧ drive w' !! main = Some {| isTrashed := isTrashed prior;
                                     children := landed o ++ children prior |}.
Proof.
  intros Hm o. subst o. unfold message_outcome, finish.
  destruct (convert_html env (fullHtml env msg)) as [e|kids] eqn:E.
  - exists w. split; [by apply convert_failure|].
    cbn [landed]. rewrite Hm. by destruct prior.
  - rewrite (prependMessageHtmlToDoc_eq env msg main w prior kids E Hm).
    cbn zeta. destruct (raised (html_outcome env kids)) as [e|].
    + eexists. split; [done|]. by apply after_abort_facts.
    + eexists. split; [done|]. by apply after_prepend_facts.
Qed.

Lemma html_loop_landed env doc items : ∀ l w f,
  drive w !! doc = Some f →
  ∃ l' w',
    html_loop env doc items l w = Ok l' w'
    ∧ drive w' !! doc
      = Some {| isTrashed := isTrashed f;
                children :=
                  concat (reverse ((λ it, landed (message_outcome env (message it)))
                                   <$> items))
                  ++ children f |}
    ∧ html_trace env doc items w
      = (λ it, (it, raised (message_outcome env (message it)))) <$> items.
Proof.
  induction items as [|it items IH]; intros l w f Hf.
  - exists l, w. split; [done|]. split; [|done]. rewrite Hf. by destruct f.
  - unfold html_loop in *.
    rewrite !fmap_cons, reverse_cons, concat_app.
    cbn [for_of_with html_trace concat]. rewrite app_nil_r.
    destruct (prependMessageHtmlToDoc_outcome env (message it) doc w f Hf)
      as (w1 & Hcall & Hdoc).
    unfold finish in Hcall.
    destruct (raised (message_outcome env (message it))) as [e|] eqn:Er;
      rewrite Hcall.
    + erewrite bind_ok; [|by eapply html_step_err].
      destruct (IH l (final_world
                   (Logger_log (LogError (getSubject (message it)) e) w1)) _
                   Hdoc)
        as (l' & w' & -> & Hbody & ->).
      exists l', w'. split; [done|]. split; [|done].
      rewrite Hbody. cbn [isTrashed children]. by rewrite <- app_assoc.
    + erewrite bind_ok; [|by eapply html_step_ok].
      destruct (IH {| recent := JsSet.add (recent l) (id it);
                      newestSeen := Z.max (newestSeen l) (date it) |}
                   w1 _ Hdoc)
        as (l' & w' & -> & Hbody & ->).
      exists l', w'. split; [done|]. split; [|done].
      rewrite Hbody. cbn [isTrashed children]. by rewrite <- app_assoc.
Qed.

Lemma succeeded_returns env (items : list Item) :
  succeeded ((λ it, (it, raised (message_outcome env (message it)))) <$> items)
  = filter (returns env) items.
Proof.
  unfold succeeded. induction items as [|it items IH]; [done|].
  rewrite fmap_cons, !filter_cons. cbn [snd]. fold (returns env it).
  destruct (decide (returns env it)); [rewrite fmap_cons|]; by rewrite IH.
Qed.

Lemma plain_outcome_nil env :
  plain_outcome env [] = {| landed := []; raised := None |}.
Proof. reflexivity. Qed.

(** What a run inserts, from the outcomes of its calls. *)
Lemma inserted_eq env w :
  inserted env w
  = if decide (OUTPUT_MODE env = "doc_plain") then
      match raised (plain_outcome env (batch env w)) with
      | None => batch env w
      | Some _ => []
      end
    else if decide (OUTPUT_MODE env = "doc_html") then
      filter (returns env) (batch env w)
    else [].
Proof.
  destruct (destination_live w) as (fd & Hfd & _).
  destruct (insertion_start_world env w) as [_ Hdrive].
  rewrite <- Hdrive in Hfd.
  unfold inserted. repeat case_decide; [| |done].
  - rewrite (prependBatchPlain_eq env (batch env w) (destination w)
               (insertion_start env w) fd Hfd). cbn zeta.
    by destruct (raised (plain_outcome env (batch env w))).
  - unfold run_trace.
    destruct (html_loop_landed env (destination w) (batch env w)
                {| recent := recency w; newestSeen := watermark w |}
                (insertion_start env w) fd Hfd) as (l' & w' & _ & _ & ->).
    apply succeeded_returns.
Qed.

(** Whether the run returns or raises, the destination holds what the
    copies left, above what it held when the run started inserting. *)
Lemma run_body env w :
  body_of (final_world (processMessagesToDoc env w)) (destination w)
  = run_landed env w ++ body_of (ensured w) (destination w).
Proof.
  destruct (destination_live w) as (fd & Hfd & _).
  destruct (insertion_start_world env w) as [_ Hdrive].
  assert (drive (insertion_start env w) !! destination w = Some fd) as Hfd'
    by by rewrite Hdrive.
  assert (body_of (ensured w) (destination w) = children fd) as ->.
  { unfold body_of. by rewrite Hfd. }
  destruct (decide (batch env w = [])) as [Hb|Hb].
  - destruct (run_empty env w Hb) as [extra ->].
    unfold run_landed, body_of. rewrite Hb. cbn [final_world drive].
    rewrite Hfd. by repeat case_decide.
  - unfold processMessagesToDoc.
    destruct (gather_eq env w) as [extra Hg].
    pose proof (process_start env w) as Hps. rewrite Hg in Hps. simpl in Hps.
    erewrite bind_ok; [|exact Hg]. simpl.
    unfold run_landed.
    destruct (batch env w) as [|first rest] eqn:Eb; [done|]. clear Hb.
    rewrite <- Eb in *.
    destruct (decide (OUTPUT_MODE env = "doc_plain")) as [Hm|Hm].
    + pose proof (prependBatchPlain_eq env (batch env w) (destination w)
                    (insertion_start env w) fd Hfd') as Hpre.
      cbn zeta in Hpre.
      destruct (raised (plain_outcome env (batch env w))) as [e|].
      * erewrite bind_throw in Hps; [|exact Hpre].
        erewrite bind_throw; [|exact Hps]. cbn [final_world].
        unfold body_of.
        by rewrite (proj1 (proj2 (after_abort_facts _ _ _ _ _ Hfd'))).
      * erewrite bind_ok in Hps; [|exact Hpre].
        erewrite bind_ok; [|exact Hps]. rewrite persist_eq.
        cbn [final_world]. unfold body_of. cbn [drive].
        destruct (after_prepend_facts (insertion_start env w) (destination w)
                    (concat (render_plain env ∘ message <$> batch env w))
                    (landed (plain_outcome env (batch env w))) fd Hfd')
          as (_ & _ & -> & _). done.
    + destruct (decide (OUTPUT_MODE env = "doc_html")) as [Hh|Hh].
      * destruct (html_loop_landed env (destination w) (batch env w)
                    {| recent := recency w; newestSeen := watermark w |}
                    (insertion_start env w) fd Hfd')
          as (l' & w' & Hloop & Hbody & _).
        rewrite Hloop in Hps.
        erewrite bind_ok; [|exact Hps]. rewrite persist_eq.
        cbn [final_world]. unfold body_of. cbn [drive]. by rewrite Hbody.
      * erewrite bind_throw; [|exact Hps]. cbn [final_world].
        unfold body_of. cbn [drive]. by rewrite Hfd.
Qed.

(** ** [prependBatchPlain], the copy returning or raising *)

(** C3, as the code has it. On a destination that exists,
    [prependBatchPlain] leaves the prior content unchanged and in its
    order at the bottom of the destination, and above it the lower part of
    the rendering of the batch, in batch order. That part is the whole
    rendering exactly when no insertion raises: the call then returns,
    each newer message stands above each older one, and the temporary
    document is trashed. When an insertion raises, the call raises that
    exception: the rendering above the refused element, and the element
    itself, are missing from the destination, and the temporary document
    is left as it was filled, not trashed. *)
Theorem prependBatchPlain_spec env (messages : list Item) main w prior :
  drive w !! main = Some prior →
  let r := prependBatchPlain env messages main w in
  let w' := final_world r in
  let rendered := concat (render_plain env ∘ message <$> messages) in
  ∃ above below,
    plain_batch env messages = above ++ below
    ∧ body_of w' main = below ++ children prior
    ∧ (∀ el, el ∈ below → insert_error env el = None)
    ∧ props w' = props w
    ∧ match r with
      | Ok _ _ =>
        above = []
        ∧ (∀ newer a older, messages = newer ++ a :: older →
             body_of w' main
             = plain_batch env newer ++ plain_block env (message a)
               ++ plain_batch env older ++ children prior)
        ∧ drive w' !! new_id w
          = Some {| isTrashed := true; children := rendered |}
      | Throw e _ =>
        (∃ el, last above = Some el ∧ insert_error env el = Some e)
        ∧ drive w' !! new_id w
          = Some {| isTrashed := false; children := rendered |}
      end
    ∧ (is_ok r ↔ ∀ el, el ∈ plain_batch env messages →
                       insert_error env el = None).
Proof.
  intros Hm r w' rendered. subst r w'.
  rewrite (prependBatchPlain_eq env messages main w prior Hm). cbn zeta.
  fold rendered.
  destruct (plain_outcome_spec env messages) as (above & Hsplit & Hok & Hr).
  exists above, (landed (plain_outcome env messages)).
  split; [exact Hsplit|].
  destruct (raised (plain_outcome env messages)) as [e|]; cbn [final_world is_ok].
  - destruct (after_abort_facts w main rendered
                (landed (plain_outcome env messages)) prior Hm)
      as (Hp & Hmain & Htmp).
    split; [unfold body_of; by rewrite Hmain|].
    split; [exact Hok|]. split; [exact Hp|]. split; [by split|].
    split; [done|]. intros Hall. exfalso.
    destruct Hr as (el & Hlast & Herr).
    rewrite Hall in Herr; [done|].
    rewrite Hsplit. apply elem_of_app. left.
    by apply last_Some_elem_of.
  - subst above. cbn [app] in Hsplit.
    destruct (after_prepend_facts w main rendered
                (landed (plain_outcome env messages)) prior Hm)
      as (Hp & _ & _ & Hbody & Htmp & _).
    split; [exact Hbody|]. split; [exact Hok|]. split; [exact Hp|].
    split.
    { split; [done|]. split; [|exact Htmp].
      intros newer a older ->. rewrite Hbody, <- Hsplit.
      unfold plain_batch.
      rewrite fmap_app, concat_app, fmap_cons, concat_cons, <- !app_assoc.
      reflexivity. }
    split; [|done]. intros _ el Hel. apply Hok. by rewrite <- Hsplit.
Qed.

Lemma prependBatchPlain_spec_witness :
  let env := picky_env "doc_plain" [] in
  let prior := {| isTrashed := false; children := [Paragraph NORMAL "old"] |} in
  let w := with_file blank 7%positive prior in
  let messages := [item_of msg_d; item_of msg_b; item_of msg_a] in
  let w' := final_world (prependBatchPlain env messages 7%positive w) in
  drive w !! 7%positive = Some prior
  ∧ ∃ above below,
      plain_block env msg_d ++ plain_block env msg_b ++ plain_block env msg_a
      = above ++ below
      ∧ body_of w' 7%positive = below ++ [Paragraph NORMAL "old"]
      ∧ last above = Some (Paragraph NORMAL "Subject: third").
Proof.
  intros env prior w messages w'.
  assert (drive w !! 7%positive = Some prior) as Hm by by vm_compute.
  split; [exact Hm|].
  destruct (prependBatchPlain_spec env messages 7%positive w prior Hm)
    as (above & below & Hsplit & Hbody & _ & _ & Hr & _).
  exists above, below. split.
  { rewrite <- Hsplit. by vm_compute. }
  split; [exact Hbody|].
  assert (prependBatchPlain env messages 7%positive w
          = Throw "Exception: Service error" w') as Hthrow by by vm_compute.
  rewrite Hthrow in Hr. destruct Hr as [(el & Hlast & Herr) _].
  rewrite Hlast. f_equal. clear Hthrow Hbody Hsplit Hm Hlast.
  destruct el as [[] t| | | | |]; try discriminate Herr.
  cbn in Herr. case_decide as Ht; [by rewrite Ht|discriminate Herr].
Defined.

(** C3 as stated fails where the document service refuses an insertion:
    with a batch of two messages, newest first, over a destination that
    holds one paragraph, the destination ends without the start marker and
    the subject line of the newer message: it is not the rendering of the
    batch followed by the prior content. *)
Lemma prependBatchPlain_truncated :
  let env := picky_env "doc_plain" [] in
  let prior := {| isTrashed := false; children := [Paragraph NORMAL "old"] |} in
  let w := with_file blank 7%positive prior in
  let messages := [item_of msg_b; item_of msg_a] in
  let r := prependBatchPlain env messages 7%positive w in
  drive w !! 7%positive = Some prior
  ∧ messages ≠ []
  ∧ StronglySorted (λ a b, date b <= date a) messages
  ∧ is_ok r = false
  ∧ body_of (final_world r) 7%positive
    = drop 2 (plain_batch env messages) ++ children prior
  ∧ body_of (final_world r) 7%positive
    ≠ plain_batch env messages ++ children prior.
Proof.
  intros env prior w messages r.
  split; [by vm_compute|]. split; [done|].
  split; [repeat constructor; by vm_compute|].
  split; [by vm_compute|]. split; [by vm_compute|].
  intros H. apply (f_equal length) in H. by vm_compute in H.
Qed.

(** ** The watermark and the destination *)

Lemma concat_stands {A} (f : A → list Element) (l : list A) x tail :
  x ∈ l → stands_in (f x) (concat (f <$> l) ++ tail).
Proof.
  intros (l1 & l2 & ->)%list_elem_of_split.
  exists (concat (f <$> l1)), (concat (f <$> l2) ++ tail).
  rewrite fmap_app, concat_app, fmap_cons, concat_cons, <- !app_assoc. done.
Qed.

(** A message whose call returned left its block, placeholders included. *)
Lemma returned_rendering env it :
  OUTPUT_MODE env ≠ "doc_plain" →
  returns env it →
  landed (message_outcome env (message it)) = rendering env it.
Proof.
  intros Hm Hr. unfold rendering, html_message_block, converted.
  rewrite decide_False by done.
  unfold returns, message_outcome in *.
  destruct (convert_html env (fullHtml env (message it))) as [e|kids]; [done|].
  by apply html_outcome_returned.
Qed.

Lemma inserted_stands env w x :
  x ∈ inserted env w →
  stands_in (rendering env x)
            (run_landed env w ++ body_of (ensured w) (destination w)).
Proof.
  rewrite inserted_eq. unfold run_landed, rendering.
  destruct (decide (OUTPUT_MODE env = "doc_plain")) as [Hm|Hm].
  - destruct (plain_outcome_spec env (batch env w)) as (above & Hsplit & _ & Hr).
    destruct (raised (plain_outcome env (batch env w))) as [e|];
      [by intros ?%elem_of_nil|].
    subst above. cbn [app] in Hsplit. rewrite <- Hsplit. intros Hx.
    unfold plain_batch.
    apply (concat_stands (plain_block env ∘ message) (batch env w) x _ Hx).
  - destruct (decide (OUTPUT_MODE env = "doc_html")) as [Hh|Hh];
      [|by intros ?%elem_of_nil].
    intros [Hr Hx]%list_elem_of_filter.
    pose proof (returned_rendering env x Hm Hr) as Hrend.
    unfold rendering in Hrend. rewrite decide_False in Hrend by done.
    rewrite <- Hrend, <- fmap_reverse.
    apply (concat_stands (λ it, landed (message_outcome env (message it)))).
    by apply elem_of_reverse.
Qed.

(** C2, as the code has it. The watermark never decreases over a run,
    returned or aborted, and whatever the run did, the destination holds
    all that its copies left, above what it held before. The watermark
    counts the messages whose prepend call returned: in [doc_plain] mode
    the whole batch when [prependBatchPlain] returned, in [doc_html] mode
    each message whose call of [prependMessageHtmlToDoc] returned. When
    there is none, also with a batch that was not empty, the watermark is
    what it was. When there is one, the run returns, the persisted
    watermark is the timestamp of such a message that none of them
    exceeds, and the rendering of each of them stands in the destination.
    What a call inserted before it raised is in the destination without
    being counted. *)
Theorem watermark_spec env w :
  let r := processMessagesToDoc env w in
  let w' := final_world r in
  watermark w <= watermark w'
  ∧ body_of w' (destination w)
    = run_landed env w ++ body_of (ensured w) (destination w)
  ∧ match inserted env w with
    | [] => watermark w' = watermark w
    | _ :: _ =>
      r = Ok tt w'
      ∧ gtd_last_iso (props w') = Some (watermark w')
      ∧ (∃ m, m ∈ inserted env w ∧ watermark w' = date m)
      ∧ ∀ x, x ∈ inserted env w →
          date x <= watermark w'
          ∧ stands_in (rendering env x) (body_of w' (destination w))
    end.
Proof.
  intros r w'. subst r w'.
  pose proof (run_state env w) as H. cbn zeta in H.
  pose proof (run_body env w) as Hbody.
  pose proof (inserted_stands env w) as Hstands.
  destruct (inserted env w) as [|x l] eqn:E.
  - split; [lia|]. split; [exact Hbody|exact H].
  - destruct H as [Hr Hp].
    assert (watermark (final_world (processMessagesToDoc env w))
            = max_date (watermark w) (x :: l)) as Hw.
    { unfold watermark at 1. rewrite Hp. unfold committed. by rewrite E. }
    split; [rewrite Hw; apply max_date_ge|].
    split; [exact Hbody|].
    split; [done|]. split; [by rewrite Hp, Hw; unfold committed; rewrite E|].
    split.
    + destruct (max_date_attained (watermark w) (x :: l)) as [Em|(y & Hy & Em)].
      * assert (x ∈ batch env w) as Hx by (apply inserted_sub; rewrite E; left).
        apply batch_date in Hx.
        pose proof (max_date_upper (watermark w) (x :: l) x ltac:(left)). lia.
      * exists y. split; [done|]. by rewrite Hw.
    + intros y Hy. split; [rewrite Hw; by apply max_date_upper|].
      rewrite Hbody. by apply Hstands.
Qed.

Lemma watermark_spec_witness :
  let env := tabular_env "doc_html" [[msg_a; msg_c]] in
  let w' := final_world (processMessagesToDoc env blank) in
  inserted env blank = [item_of msg_c; item_of msg_a]
  ∧ watermark w' = 20
  ∧ stands_in [Paragraph NORMAL "title";
               Paragraph NORMAL ("a" +:+ TAB +:+ "b"); Paragraph NORMAL "c";
               Paragraph NORMAL "[insert failed: Exception: Service error]"]
              (body_of w' 1%positive).
Proof.
  intros env w'.
  assert (inserted env blank = [item_of msg_c; item_of msg_a]) as Hins
    by by vm_compute.
  split; [exact Hins|].
  destruct (watermark_spec env blank) as (_ & _ & H).
  rewrite Hins in H. destruct H as (_ & _ & (m & Hm & Hw) & Hall).
  split.
  - destruct (Hall (item_of msg_c) ltac:(left)) as [Hc _].
    destruct (Hall (item_of msg_a) ltac:(right; left)) as [Ha _].
    fold w' in Hw, Hc. rewrite Hw in *.
    apply elem_of_cons in Hm as [->|Hm]; [done|].
    apply list_elem_of_singleton in Hm as ->. cbn in Hc. cbn. lia.
  - destruct (Hall (item_of msg_a) ltac:(right; left)) as [_ Hs].
    exact Hs.
Defined.

(** C2 as stated fails where a copy raises midway. In [doc_plain] mode
    with a service that refuses the subject line of the newer of two
    messages, [prependBatchPlain] raises after it copied the whole older
    message and most of the newer one: the run is aborted, the rendering
    of the older message stands in the destination, and the watermark is
    still the epoch, below the timestamp of that message. The next run
    selects the same two messages and inserts the older one again. *)
Lemma watermark_misses_inserted :
  let env := picky_env "doc_plain" [[msg_a; msg_b]] in
  let r := processMessagesToDoc env blank in
  let w' := final_world r in
  let w'' := final_world (processMessagesToDoc env w') in
  batch env blank = [item_of msg_b; item_of msg_a]
  ∧ is_ok r = false
  ∧ destination blank = 1%positive
  ∧ body_of w' 1%positive
    = drop 2 (plain_block env msg_b) ++ plain_block env msg_a
  ∧ watermark w' = 0
  ∧ watermark w' < date (item_of msg_a)
  ∧ batch env w' = [item_of msg_b; item_of msg_a]
  ∧ body_of w'' 1%positive
    = drop 2 (plain_block env msg_b) ++ plain_block env msg_a
      ++ drop 2 (plain_block env msg_b) ++ plain_block env msg_a.
Proof.
  intros env r w' w''. repeat split; by vm_compute.
Qed.

(** ** Failures, message by message *)

Lemma run_trace_eq env w :
  run_trace env w
  = (λ it, (it, raised (message_outcome env (message it)))) <$> batch env w.
Proof.
  destruct (destination_live w) as (fd & Hfd & _).
  destruct (insertion_start_world env w) as [_ Hdrive].
  rewrite <- Hdrive in Hfd. unfold run_trace.
  by destruct (html_loop_landed env (destination w) (batch env w)
                 {| recent := recency w; newestSeen := watermark w |}
                 (insertion_start env w) fd Hfd) as (l' & w' & _ & _ & ->).
Qed.

(** C4, as the code has it. In [doc_html] mode a run never aborts: every
    message of the batch gets its call of [prependMessageHtmlToDoc],
    whatever failed before it; an exception of that call is caught and
    logged, and the persisted watermark and recency set are those of the
    messages whose call returned. The [catch] of the run inserts nothing:
    the destination holds, message by message, what each call left, which
    is nothing when the conversion raised. Inside the call, an element
    whose insertion raises is replaced by the placeholder [insert failed]:
    when the placeholder is accepted the copy goes on, and a call that
    returns has left the block of the message with the placeholders in it,
    the message counting as inserted; when the placeholder is refused the
    call raises and what it had inserted stays. In [doc_plain] mode an
    exception of [prependBatchPlain] aborts the run and leaves watermark
    and recency set unchanged. *)
Theorem failure_isolation_spec env w :
  let r := processMessagesToDoc env w in
  let w' := final_world r in
  (OUTPUT_MODE env = "doc_html" →
     r = Ok tt w'
     ∧ run_trace env w
       = (λ it, (it, raised (message_outcome env (message it))))
         <$> batch env w
     ∧ (∀ it e, it ∈ batch env w →
                raised (message_outcome env (message it)) = Some e →
                LogError (getSubject (message it)) e ∈ logged w')
     ∧ inserted env w = filter (returns env) (batch env w)
     ∧ (batch env w ≠ [] → props w' = committed env w)
     ∧ body_of w' (destination w)
       = concat (reverse ((λ it, landed (message_outcome env (message it)))
                          <$> batch env w))
         ++ body_of (ensured w) (destination w))
  ∧ (∀ msg main w0 prior,
       drive w0 !! main = Some prior →
       ∃ w1,
         prependMessageHtmlToDoc env msg main w0
         = finish (message_outcome env msg) w1
         ∧ body_of w1 main = landed (message_outcome env msg) ++ children prior)
  ∧ (∀ msg,
       match convert_html env (fullHtml env msg) with
       | inl e => message_outcome env msg = {| landed := []; raised := Some e |}
       | inr kids =>
         (raised (message_outcome env msg) = None →
          landed (message_outcome env msg) = html_block env kids)
         ∧ (placeholders_ok env → raised (message_outcome env msg) = None)
       end)
  ∧ (OUTPUT_MODE env = "doc_plain" →
     ∀ el, el ∈ plain_batch env (batch env w) →
           insert_error env el ≠ None →
           ∃ e, r = Throw e w' ∧ same_state w w').
Proof.
  intros r w'. split; [|split; [|split; [|]]].
  - intros Hmode. destruct (run_html env w Hmode) as (Hr & Hp & Hl).
    split; [done|]. split; [apply run_trace_eq|]. split.
    { intros it e Hin He. apply Hl. rewrite run_trace_eq.
      apply list_elem_of_fmap. exists it. by rewrite He. }
    split.
    { rewrite inserted_eq. rewrite decide_False by (rewrite Hmode; discriminate).
      by rewrite decide_True. }
    split; [done|].
    subst w' r. rewrite run_body. unfold run_landed.
    rewrite decide_False by (rewrite Hmode; discriminate).
    by rewrite decide_True.
  - intros msg main w0 prior Hm.
    destruct (prependMessageHtmlToDoc_outcome env msg main w0 prior Hm)
      as (w1 & Hcall & Hdoc).
    exists w1. split; [done|]. unfold body_of. by rewrite Hdoc.
  - intros msg. unfold message_outcome.
    destruct (convert_html env (fullHtml env msg)) as [e|kids]; [done|].
    split; [apply html_outcome_returned|apply html_outcome_guarded].
  - intros Hmode el Hel Herr.
    assert (batch env w ≠ []) as Hb.
    { intros E. rewrite E in Hel. by apply elem_of_nil in Hel. }
    destruct (destination_live w) as (fd & Hfd & _).
    destruct (insertion_start_world env w) as [_ Hdrive].
    rewrite <- Hdrive in Hfd.
    destruct (prependBatchPlain_throw env (batch env w) (destination w)
                (insertion_start env w) fd el Hfd Hel Herr)
      as (e & w2 & Ht).
    destruct (run_plain_throw env w e w2 Hmode Hb Ht) as [Hr Hs].
    exists e. subst w' r. rewrite Hr. done.
Qed.

Lemma failure_isolation_spec_witness :
  let down := sample_env "doc_html" [[msg_a; msg_b]; [msg_c]] in
  let refusing := tabular_env "doc_html" [[msg_a]] in
  let stubborn := stubborn_env "doc_html" [[msg_a]] in
  let r1 := processMessagesToDoc down blank in
  let r2 := processMessagesToDoc refusing blank in
  let r3 := processMessagesToDoc stubborn blank in
  (r1 = Ok tt (final_world r1)
   ∧ LogError "third" "Exception: conversion failed" ∈ logged (final_world r1)
   ∧ id <$> inserted down blank = ["c"; "a"]
   ∧ gtd_last_iso (props (final_world r1)) = Some 20
   ∧ body_of (final_world r1) 1%positive
     = [Paragraph NORMAL "converted"; Paragraph NORMAL "converted"])
  ∧ (r2 = Ok tt (final_world r2)
     ∧ id <$> inserted refusing blank = ["a"]
     ∧ body_of (final_world r2) 1%positive
       = [Paragraph NORMAL "title";
          Paragraph NORMAL ("a" +:+ TAB +:+ "b"); Paragraph NORMAL "c";
          Paragraph NORMAL "[insert failed: Exception: Service error]"])
  ∧ (r3 = Ok tt (final_world r3)
     ∧ LogError "first" "Exception: Quota exceeded" ∈ logged (final_world r3)
     ∧ inserted stubborn blank = []
     ∧ body_of (final_world r3) 1%positive
       = [Paragraph NORMAL "[insert failed: Exception: Service error]"]).
Proof.
  intros down refusing stubborn r1 r2 r3.
  destruct (failure_isolation_spec down blank) as [H1 _].
  destruct (failure_isolation_spec refusing blank) as [H2 _].
  destruct (failure_isolation_spec stubborn blank) as [H3 _].
  destruct (H1 eq_refl) as (Hr1 & _ & Hl1 & Hi1 & Hp1 & Hb1).
  destruct (H2 eq_refl) as (Hr2 & _ & _ & Hi2 & _ & Hb2).
  destruct (H3 eq_refl) as (Hr3 & _ & Hl3 & Hi3 & _ & Hb3).
  split; [|split].
  - split; [exact Hr1|]. split.
    { apply (Hl1 (item_of msg_b)); [|reflexivity].
      replace (batch down blank)
        with [item_of msg_b; item_of msg_c; item_of msg_a] by by vm_compute.
      left. }
    split; [rewrite Hi1; by vm_compute|].
    split.
    { subst r1. rewrite Hp1; [by vm_compute|].
      replace (batch down blank)
        with [item_of msg_b; item_of msg_c; item_of msg_a] by by vm_compute.
      discriminate. }
    replace (destination blank) with 1%positive in Hb1 by by vm_compute.
    subst r1. rewrite Hb1. by vm_compute.
  - split; [exact Hr2|]. split; [rewrite Hi2; by vm_compute|].
    replace (destination blank) with 1%positive in Hb2 by by vm_compute.
    subst r2. rewrite Hb2. by vm_compute.
  - split; [exact Hr3|]. split.
    { apply (Hl3 (item_of msg_a)); [|reflexivity].
      replace (batch stubborn blank) with [item_of msg_a] by by vm_compute.
      left. }
    split; [rewrite Hi3; by vm_compute|].
    replace (destination blank) with 1%positive in Hb3 by by vm_compute.
    subst r3. rewrite Hb3. by vm_compute.
Defined.
